(** * OSTEO VISION: a shallow embedding of [app/app.py]

    The application downloads a Keras model, classifies an uploaded knee
    X-ray into five Kellgren-Lawrence grades, explains the prediction by a
    Grad-CAM heatmap and draws the heatmap over the image.

    The embedding follows the script function by function:
    - [download_model_from_url] over a file system ([gmap string bytes]),
      with a file that may not open and a stream that may break;
    - [make_gradcam_heatmap] over tensors (nested lists of floats);
    - [overlay_heatmap_on_image] over NumPy arrays and PIL images;
    - the per-upload pipeline of the [if uploaded_file:] block, once as a
      function of values ([pipeline]) and once over a store of Python
      objects ([run_pipeline]) in which arrays are shared and updated in
      place;
    - the script from its first line to its last ([script]) with the
      page it draws, the [try] blocks and [st.stop()].

    Floating-point numbers are IEEE values whose finite part is a rational;
    every arithmetic operation rounds its exact result with a rounding
    function [rnd].  The properties are proved for every rounding that is
    monotone and exact on small integers, and [binary32], IEEE
    round-to-nearest-even with 24 significant bits, is proved to be one;
    the examples are computed with it.  The formulas of Grad-CAM, whose
    float sums TensorFlow may add in any order, are proved in arithmetic
    that rounds nothing.  Library calls (TensorFlow, Keras, NumPy, PIL,
    matplotlib, requests) are embedded from their documented behaviour;
    what a library leaves open (the colour table of matplotlib, PIL's
    decoder, the trained network, the text of an error of TensorFlow, the
    files the operating system lets open) is a parameter. *)

From Stdlib Require Import ZArith QArith Qcanon Qround Qabs Qpower Lqa.
From Stdlib Require Import String List.
From stdpp Require Import base numbers option list strings gmap pretty.

Local Open Scope Z_scope.

(** ** Floating-point values *)

(** A float is a finite rational, an infinity or NaN.  The sign of zero is
    not represented: [-0.0] and [0.0] compare equal in IEEE arithmetic and
    nothing below observes the difference. *)
Inductive fl : Type :=
  | Fin (q : Qc)
  | PInf
  | NInf
  | NaN.

(** The rounding of an exact result to the float format; it may overflow
    to an infinity.  [binary32] below is the rounding of the 32-bit floats
    of TensorFlow and of the arrays of the script. *)
Class Rounding := rnd : Qc → fl.

Definition fzero : fl := Fin (Qc_of_Z 0).
Definition fone : fl := Fin (Qc_of_Z 1).
Definition fl_of_Z (z : Z) : fl := Fin (Qc_of_Z z).
Definition fl_of_nat (n : nat) : fl := fl_of_Z (Z.of_nat n).

Global Instance fl_inhabited : Inhabited fl := populate NaN.
Global Instance Qc_inhabited : Inhabited Qc := populate (Qc_of_Z 0).

Global Instance fl_eq_dec : EqDecision fl.
Proof. solve_decision. Defined.

Definition Qc_sign (q : Qc) : comparison := (q ?= Qc_of_Z 0)%Qc.

(** [x <= y] and [x < y] on floats; every comparison with NaN is false. *)
Definition fleb (x y : fl) : bool :=
  match x, y with
  | NaN, _ | _, NaN => false
  | NInf, _ => true
  | _, PInf => true
  | Fin a, Fin b => bool_decide (a ≤ b)%Qc
  | _, _ => false
  end.

Definition fltb (x y : fl) : bool :=
  match x, y with
  | NaN, _ | _, NaN => false
  | NInf, NInf => false
  | PInf, PInf => false
  | NInf, _ => true
  | _, PInf => true
  | Fin a, Fin b => bool_decide (a < b)%Qc
  | _, _ => false
  end.

(** IEEE equality [x == y]: false on NaN. *)
Definition feqb (x y : fl) : bool :=
  match x, y with
  | NaN, _ | _, NaN => false
  | _, _ => bool_decide (x = y)
  end.

Definition is_nan (x : fl) : bool :=
  match x with NaN => true | _ => false end.

Definition is_finite (x : fl) : bool :=
  match x with Fin _ => true | _ => false end.

Definition fneg (x : fl) : fl :=
  match x with
  | Fin q => Fin (- q)%Qc
  | PInf => NInf
  | NInf => PInf
  | NaN => NaN
  end.

(** An infinity multiplied or divided by a finite number keeps or flips
    its sign, and is NaN against zero. *)
Definition inf_signed (positive : bool) (c : comparison) : fl :=
  match c with
  | Gt => if positive then PInf else NInf
  | Lt => if positive then NInf else PInf
  | Eq => NaN
  end.

Section Arithmetic.
Context `{Rounding}.

Definition fadd (x y : fl) : fl :=
  match x, y with
  | NaN, _ | _, NaN => NaN
  | PInf, NInf | NInf, PInf => NaN
  | PInf, _ | _, PInf => PInf
  | NInf, _ | _, NInf => NInf
  | Fin a, Fin b => rnd (a + b)%Qc
  end.

Definition fsub (x y : fl) : fl := fadd x (fneg y).

Definition fmul (x y : fl) : fl :=
  match x, y with
  | NaN, _ | _, NaN => NaN
  | PInf, PInf | NInf, NInf => PInf
  | PInf, NInf | NInf, PInf => NInf
  | PInf, Fin b | Fin b, PInf => inf_signed true (Qc_sign b)
  | NInf, Fin b | Fin b, NInf => inf_signed false (Qc_sign b)
  | Fin a, Fin b => rnd (a * b)%Qc
  end.

(** Division.  [0/0] and [inf/inf] are NaN, a non-zero finite number
    over zero is an infinity (whose sign, that of the zero divisor in
    IEEE, is taken from the dividend). *)
Definition fdiv (x y : fl) : fl :=
  match x, y with
  | NaN, _ | _, NaN => NaN
  | (PInf | NInf), (PInf | NInf) => NaN
  | PInf, Fin b => match Qc_sign b with Lt => NInf | _ => PInf end
  | NInf, Fin b => match Qc_sign b with Lt => PInf | _ => NInf end
  | Fin _, (PInf | NInf) => fzero
  | Fin a, Fin b =>
      match Qc_sign b with
      | Eq => inf_signed true (Qc_sign a)
      | _ => rnd (a / b)%Qc
      end
  end.
End Arithmetic.

(** [tf.maximum] / [np.maximum]: NaN if either argument is NaN. *)
Definition fmax (x y : fl) : fl :=
  match x, y with
  | NaN, _ | _, NaN => NaN
  | _, _ => if fleb x y then y else x
  end.

Definition fmin (x y : fl) : fl :=
  match x, y with
  | NaN, _ | _, NaN => NaN
  | _, _ => if fleb x y then x else y
  end.

(** Truncation toward zero, the C conversion of a float to an integer. *)
Definition Qc_trunc (q : Qc) : Z := Z.quot (Qnum q) (Zpos (Qden q)).

(** ** IEEE binary32 rounding *)

(** Powers of two with an integer exponent. *)
Definition pow2 (e : Z) : Q := ((2 # 1) ^ e)%Q.

(** [ilog2 q] is the exponent [e] with [2^e <= |q| < 2^(e+1)]. *)
Definition ilog2 (q : Q) : Z :=
  let e := Z.log2 (Z.abs (Qnum q)) - Z.log2 (Zpos (Qden q)) in
  if Qle_bool (pow2 e) (Qabs q) then e else e - 1.

(** Rounding to the nearest integer, ties to the even one. *)
Definition round_half_even (q : Q) : Z :=
  let f := Qfloor q in
  match (q - inject_Z f ?= 1 # 2)%Q with
  | Lt => f
  | Gt => f + 1
  | Eq => if Z.even f then f else f + 1
  end.

(** Rounding to the nearest multiple of a unit. *)
Definition round_to (ulp q : Q) : Q :=
  (inject_Z (round_half_even (q / ulp)) * ulp)%Q.

(** The unit in the last place of binary32: 24 significant bits from the
    exponent -126 on, the fixed unit [2^-149] below. *)
Definition binary32_exponent (q : Q) : Z := Z.max (ilog2 q) (-126).
Definition binary32_ulp (q : Q) : Q := pow2 (binary32_exponent q - 23).
Definition binary32_value (q : Q) : Q := round_to (binary32_ulp q) q.

(** A rounded value of magnitude [2^128] or more is an infinity.
    Subnormal results are kept, as NumPy keeps them; TensorFlow may flush
    them to zero, which is another rounding with the two properties
    ([rnd_monotone], [rnd_exact_on_integers]) the proofs rest on. *)
Definition binary32 : Rounding := λ q : Qc,
  let v := Q2Qc (binary32_value q) in
  if Qle_bool (pow2 128) v then PInf
  else if Qle_bool v (- pow2 128) then NInf
  else Fin v.

(** ** Python exceptions *)

(** The exceptions of the script by their class, with their message:
    [Exception] itself, [OSError] for a file that does not open or a
    connection that breaks (and its subclasses), the
    [InvalidArgumentError] of TensorFlow, [IndexError], [ValueError] and
    the [UnidentifiedImageError] of PIL. *)
Inductive exn : Type :=
  | Exception (msg : string)
  | OSError (msg : string)
  | InvalidArgumentError (msg : string)
  | IndexError (msg : string)
  | ValueError (msg : string)
  | UnidentifiedImageError.

Inductive result (A : Type) : Type :=
  | Ok (a : A)
  | Raise (e : exn).
Arguments Ok {A} a.
Arguments Raise {A} e.

Global Instance result_ret : MRet result := λ A a, Ok a.
Global Instance result_bind : MBind result := λ A B k m,
  match m with
  | Ok a => k a
  | Raise e => Raise e
  end.

Global Instance result_fmap : FMap result := λ A B f m,
  match m with
  | Ok a => Ok (f a)
  | Raise e => Raise e
  end.

Definition of_option {A} (o : option A) (e : exn) : result A :=
  match o with Some a => Ok a | None => Raise e end.

(** ** Model provisioning: [download_model_from_url] *)

Definition bytes := list Z.

(** The local file system: paths to file contents. *)
Abbreviation filesystem := (gmap string bytes).

(** What [requests.get(url, stream=True)] returns: the status code, the
    chunks [iter_content(chunk_size=8192)] yields, in order, and the
    exception with which the iteration ends after them when the connection
    breaks before the body is complete ([None] when the body arrives
    whole). *)
Record response := {
  status_code : Z;
  iter_content : list bytes;
  iter_error : option exn
}.

(** What the operating system decides when the script writes a file:
    - [open_error fs path]: the exception with which [open(path, 'wb')]
      is refused (the directory of the path is missing, the path is a
      directory, permission is denied), [None] when the file is opened,
      which creates it or empties the one that exists;
    - [write_error fs path chunks]: when writing these chunks to the
      open file or closing it fails (the disk is full), the bytes that
      reached the file and the exception, [None] when every chunk is
      written and the file is closed. *)
Class OperatingSystem := {
  open_error : filesystem → string → option exn;
  write_error : filesystem → string → list bytes → option (bytes * exn)
}.

(** [for chunk in response.iter_content(...): file.write(chunk)]: the
    chunks are appended to the empty file in order. *)
Definition write_chunks (chunks : list bytes) : bytes :=
  foldl (λ file chunk, file ++ chunk) [] chunks.

(** Lines 19 to 26.  On status 200 the file is opened before the first
    chunk is read: when [open] raises nothing is written; when a write
    fails, or the stream breaks after the chunks it delivered, the
    [with] block closes the file with what was written so far and the
    exception goes on to the caller. *)
Definition download_model_from_url `{OperatingSystem}
    (requests_get : string → response) (url output_path : string)
    (fs : filesystem) : filesystem * result unit :=
  let response := requests_get url in
  if decide (status_code response = 200) then
    match open_error fs output_path with
    | Some e => (fs, Raise e)
    | None =>
        let chunks := iter_content response in
        match write_error fs output_path chunks with
        | Some (written, e) => (<[output_path := written]> fs, Raise e)
        | None =>
            let fs := <[output_path := write_chunks chunks]> fs in
            match iter_error response with
            | Some e => (fs, Raise e)
            | None => (fs, Ok ())
            end
        end
    end
  else
    (fs, Raise (Exception
      ("Failed to download model. HTTP Status code: "
         +:+ pretty (status_code response)))).

(** The module-level provisioning step:
    [if not os.path.exists(MODEL_PATH): download_model_from_url(...)]. *)
Definition ensure_model `{OperatingSystem}
    (requests_get : string → response) (url model_path : string)
    (fs : filesystem) : filesystem * result unit :=
  match fs !! model_path with
  | Some _ => (fs, Ok ())
  | None => download_model_from_url requests_get url model_path fs
  end.

(** ** Tensors and NumPy arrays *)

(** Arrays of rank 1 to 4 are nested lists, outermost axis first.  The
    arrays the script is written for have no empty axis: the batch holds
    one image, images are 224 by 224 by 3 and the activation map of the
    network is neither empty nor a single row or column. *)
Abbreviation tensor1 := (list fl).
Abbreviation tensor2 := (list (list fl)).
Abbreviation tensor3 := (list (list (list fl))).
Abbreviation tensor4 := (list (list (list (list fl)))).

(** [x.shape[1]] and [x.shape[2]], read off the first row. *)
Definition dim1 {A} (x : list (list A)) : nat :=
  match x with r :: _ => length r | [] => 0%nat end.
Definition dim2 {A} (x : list (list (list A))) : nat :=
  match x with r :: _ => dim1 r | [] => 0%nat end.

(** [x] is a well-formed array of the given shape. *)
Definition has_shape2 {A} (x : list (list A)) (h w : nat) : Prop :=
  length x = h ∧ Forall (λ row, length row = w) x.
Definition has_shape3 {A} (x : list (list (list A))) (h w c : nat) : Prop :=
  length x = h ∧ Forall (λ row, has_shape2 row w c) x.
Definition has_shape4 {A} (x : list (list (list (list A))))
    (b h w c : nat) : Prop :=
  length x = b ∧ Forall (λ img, has_shape3 img h w c) x.

(** Element-wise maps. *)
Definition map2 {A B} (f : A → B) (x : list (list A)) : list (list B) :=
  (λ row : list A, f <$> row) <$> x.
Definition map3 {A B} (f : A → B) (x : list (list (list A)))
    : list (list (list B)) :=
  (λ m : list (list A), map2 f m) <$> x.

(** All entries of an array, in row-major order. *)
Definition flat2 {A} (x : list (list A)) : list A := concat x.
Definition flat3 {A} (x : list (list (list A))) : list A :=
  concat (concat x).

(** [tf.math.reduce_max]: the maximum of all entries ([-inf] when there is
    none). *)
Definition reduce_max (l : list fl) : fl := foldr fmax NInf l.

(** [np.min], [np.max]: they raise on an empty array. *)
Definition np_max (l : list fl) : result fl :=
  match l with
  | [] => Raise (ValueError "zero-size array to reduction operation maximum")
  | x :: l' => Ok (foldl fmax x l')
  end.
Definition np_min (l : list fl) : result fl :=
  match l with
  | [] => Raise (ValueError "zero-size array to reduction operation minimum")
  | x :: l' => Ok (foldl fmin x l')
  end.

(** [tf.argmax] and [np.argmax] of a vector without NaN: the first index
    that holds the maximum.  On a vector that holds a NaN the two
    libraries differ: [np_argmax] below is what NumPy returns then, and
    what the kernel of TensorFlow returns is left open, the properties of
    the explainer that depend on it being stated for probabilities
    without NaN.  ([tf.argmax] of an empty vector raises
    [InvalidArgumentError]; [argmax] is 0 there, and in the explainer the
    slicing that follows raises it.) *)
Fixpoint argmax_from (best_i : nat) (best : fl) (i : nat) (l : list fl)
    : nat :=
  match l with
  | [] => best_i
  | x :: l' =>
      if fltb best x then argmax_from i x (S i) l'
      else argmax_from best_i best (S i) l'
  end.
Definition argmax (l : list fl) : nat :=
  match l with
  | [] => 0%nat
  | x :: l' => argmax_from 0 x 1 l'
  end.

(** [np.argmax]: it raises on an empty array, and a NaN counts as the
    maximum: on an array that holds one, the index of the first NaN is
    returned. *)
Definition np_argmax (a : tensor1) : result nat :=
  match a with
  | [] => Raise (ValueError "attempt to get argmax of an empty sequence")
  | _ =>
      match list_find (λ x, is_nan x = true) a with
      | Some (i, _) => Ok i
      | None => Ok (argmax a)
      end
  end.

(** An integer index into an axis of [n] entries, as TensorFlow's
    [tensor[..., i]] resolves it: a negative index counts from the end,
    and an index outside [-n, n) raises [InvalidArgumentError].  The text
    of that error is composed by the runtime of TensorFlow, which names
    the operation and the device in it and reports the index as the
    kernel sees it; [error_text axis n i] stands for that text. *)
Definition slice_index (error_text : nat → nat → Z → string)
    (axis n : nat) (i : Z) : result nat :=
  if decide (0 ≤ i < Z.of_nat n) then Ok (Z.to_nat i)
  else if decide (- Z.of_nat n ≤ i < 0) then Ok (Z.to_nat (i + Z.of_nat n))
  else Raise (InvalidArgumentError (error_text axis n i)).

(** [t[i]] and [t[:, i]]. *)
Definition tf_getitem {A} `{Inhabited A}
    (error_text : nat → nat → Z → string) (t : list A) (i : Z) : result A :=
  k ← slice_index error_text 0 (length t) i; mret (t !!! k).
Definition tf_getitem_col (error_text : nat → nat → Z → string)
    (t : tensor2) (i : Z) : result (nat * tensor1) :=
  k ← slice_index error_text 1 (dim1 t) i;
  mret (k, (λ row : tensor1, row !!! k) <$> t).

Section Tensor_arithmetic.
Context `{Rounding}.

Definition reduce_sum (l : list fl) : fl := foldl fadd fzero l.

(** The mean of a list: its sum over its length ([0/0 = NaN] when it is
    empty).  As for the matrix product below, the order in which the
    kernel adds is not fixed by the script. *)
Definition reduce_mean (l : list fl) : fl :=
  fdiv (reduce_sum l) (fl_of_nat (length l)).

(** [tf.reduce_mean(g, axis=(0, 1, 2))] of a rank-4 tensor: for every
    index [c] of the last axis, the mean of the entries [g[b, i, j, c]]
    over all [b], [i] and [j]. *)
Definition reduce_mean_012 (g : tensor4) : tensor1 :=
  let positions : list tensor1 := concat (concat g) in
  let channels := match positions with p :: _ => length p | [] => 0%nat end in
  (λ c, reduce_mean ((λ p : tensor1, p !!! c) <$> positions))
    <$> seq 0 channels.

(** [v[..., tf.newaxis]]: a vector as a one-column matrix. *)
Definition newaxis (v : tensor1) : tensor2 := (λ x, [x]) <$> v.

(** The column [j] of a matrix. *)
Definition column (n : tensor2) (j : nat) : tensor1 :=
  (λ row : tensor1, row !!! j) <$> n.

(** The matrix product [m @ n]; on a rank-3 left operand the product is
    taken for every matrix of the leading axis.  The sum of a row is
    accumulated here from left to right and every product and partial
    sum is rounded; the kernels of TensorFlow may add in another order or
    fuse a product with a sum, so the last bits of a float sum are not
    fixed by the script.  The properties do not depend on them: they
    take the product as given, use sums of zeros, or are stated in
    arithmetic that rounds nothing ([exact_arithmetic]), where the order
    does not matter. *)
Definition matmul2 (m n : tensor2) : tensor2 :=
  (λ row : tensor1,
     (λ j, reduce_sum (zip_with fmul row (column n j))) <$> seq 0 (dim1 n))
    <$> m.
Definition matmul (a : tensor3) (n : tensor2) : tensor3 :=
  (λ m, matmul2 m n) <$> a.

(** [tf.squeeze] drops every axis of size one.  The product of line 70
    has shape (h, w, 1): over a grid with [h] and [w] at least 2 the last
    axis is the only one dropped and the result is the matrix below.
    Over a grid with a side of 1 TensorFlow returns a vector or a scalar,
    which [array_to_img] refuses later; such grids are outside this
    definition, and every property that depends on the rank of the
    heatmap is stated for grids with both sides at least 2. *)
Definition squeeze (a : tensor3) : tensor2 :=
  map2 (λ cell : tensor1, cell !!! 0%nat) a.
End Tensor_arithmetic.

(** ** The network behind [grad_model] *)

(** [grad_model] maps a batch to the input of the layer
    [global_average_pooling2d] (the last convolutional feature maps) and to
    the output of the network; the tape differentiates one class score
    with respect to the feature maps.  The trained network is a parameter:
    [gm_call x] is [grad_model(x)] and [gm_gradient x k] is
    [tape.gradient(preds[:, k], last_conv_layer_output)].  The tensors it
    returns live in the runtime of TensorFlow, and [gm_index_error axis n i]
    is the text with which that runtime reports the index [i] as out of the
    bounds of an axis of [n] entries. *)
Record grad_model_t := {
  gm_call : tensor4 → tensor4 * tensor2;
  gm_gradient : tensor4 → nat → tensor4;
  gm_index_error : nat → nat → Z → string
}.

(** ** Grad-CAM: [make_gradcam_heatmap] *)

Section Gradcam.
Context `{Rounding}.

(** [tf.maximum(heatmap, 0) / tf.math.reduce_max(heatmap)]: both
    occurrences of [heatmap] on the right are the map before clipping. *)
Definition normalize_heatmap (heatmap : tensor2) : tensor2 :=
  let m := reduce_max (flat2 heatmap) in
  map2 (λ x, fdiv (fmax x fzero) m) heatmap.

(** Lines 62 to 71: the forward pass, the choice of the class, the
    gradient, its pooling and the weighted sum over the channels. *)
Definition weighted_activation_map (grad_model : grad_model_t)
    (img_array : tensor4) (pred_index : option Z) : result tensor2 :=
  let '(last_conv_layer_output, preds) := gm_call grad_model img_array in
  let error_text := gm_index_error grad_model in
  pred_index ← match pred_index with
                | None =>
                    p ← tf_getitem error_text preds 0;
                    mret (Z.of_nat (argmax p))
                | Some i => mret i
                end;
  '(k, class_channel) ← tf_getitem_col error_text preds pred_index;
  let grads := gm_gradient grad_model img_array k in
  let pooled_grads := reduce_mean_012 grads in
  a ← tf_getitem error_text last_conv_layer_output 0;
  let heatmap := matmul a (newaxis pooled_grads) in
  let heatmap := squeeze heatmap in
  mret heatmap.

Definition make_gradcam_heatmap (grad_model : grad_model_t)
    (img_array : tensor4) (pred_index : option Z) : result tensor2 :=
  heatmap ← weighted_activation_map grad_model img_array pred_index;
  let heatmap := normalize_heatmap heatmap in
  mret heatmap.
End Gradcam.

(** ** PIL images *)

(** A pixel of an RGB image: three bytes. *)
Record rgb := RGB { red : Z; green : Z; blue : Z }.

(** A PIL image in mode RGB: its size and its pixels, [getpixel x y] for
    [x < width] and [y < height]. *)
Record pil_image := PIL {
  width : nat;
  height : nat;
  getpixel : nat → nat → rgb
}.

(** [img.size]: width first. *)
Definition pil_size (img : pil_image) : nat * nat := (width img, height img).

(** A resampling filter computes the pixel at [(x, y)] of the image
    resized to [size] from the source image. *)
Definition resample := pil_image → nat * nat → nat → nat → rgb.

(** [Image.NEAREST]: the source pixel under the centre of the target
    pixel.  Along an axis of [n_src] source pixels resized to [n_dst], the
    centre of the target pixel [i] has the source coordinate
    [(i + 1/2) * n_src / n_dst], and [nearest_source n_src n_dst i] is its
    integer part in exact arithmetic.  Pillow steps through these
    coordinates in double precision, starting from half the scale and
    adding the scale for every pixel, and takes the integer part of the
    sum.  On images of the sizes a decoder returns the two agree unless
    the exact coordinate of a target pixel is a whole number, where the
    sum of Pillow can fall just below it and the pixel before is read;
    for a target of 224 this concerns the sources whose side is a
    multiple of 64 and no multiple of 448.  The properties below that
    depend on the index read are stated for sides on which the two
    agree: whole multiples and whole divisors of 224. *)
Definition nearest_source (n_src n_dst i : nat) : nat :=
  (((2 * i + 1) * n_src) `div` (2 * n_dst))%nat.
Definition NEAREST : resample := λ img size x y,
  getpixel img
    (nearest_source (width img) size.1 x)
    (nearest_source (height img) size.2 y).

(** Bilinear interpolation, the filter the specification names: the value
    at the centre of the target pixel is interpolated linearly between the
    two source pixels around it, along each axis.  [bilinear_axis] gives
    the two source indices and the weight of the second as a fraction
    [t / d]. *)
Definition bilinear_axis (n_src n_dst i : nat) : nat * nat * Z * Z :=
  let d := 2 * Z.of_nat n_dst in
  let n := (2 * Z.of_nat i + 1) * Z.of_nat n_src - Z.of_nat n_dst in
  if decide (n ≤ 0) then (0%nat, 0%nat, 0, d)
  else
    let i0 := Z.to_nat (n `div` d) in
    if decide (n_src ≤ S i0)%nat then (pred n_src, pred n_src, 0, d)
    else (i0, S i0, n `mod` d, d).
Definition spec_bilinear : resample := λ img size x y,
  let '(x0, x1, tx, dx) := bilinear_axis (width img) size.1 x in
  let '(y0, y1, ty, dy) := bilinear_axis (height img) size.2 y in
  let mix (band : rgb → Z) :=
    ((dx - tx) * (dy - ty) * band (getpixel img x0 y0)
     + tx * (dy - ty) * band (getpixel img x1 y0)
     + (dx - tx) * ty * band (getpixel img x0 y1)
     + tx * ty * band (getpixel img x1 y1)
     + (dx * dy) `div` 2) `div` (dx * dy) in
  RGB (mix red) (mix green) (mix blue).

(** [img.resize(size, resample)]. *)
Definition resize (size : nat * nat) (filter : resample) (img : pil_image)
    : pil_image :=
  PIL size.1 size.2 (filter img size).

(** What the script takes from its libraries without fixing it:
    - [pil_open]: [PIL.Image.open] followed by [convert("RGB")], [None]
      when the bytes are not an image;
    - [pil_default_resample]: the filter of [Image.resize] when the caller
      names none;
    - [jet_colors]: [get_cmap("jet")(np.arange(256))[:, :3]], the colour
      table of matplotlib, one row of red, green and blue per index;
    - [cast_undefined]: the integer a C conversion from float produces
      for NaN and for the infinities, where C leaves it undefined. *)
Class Libraries := {
  pil_open : bytes → option pil_image;
  pil_default_resample : resample;
  jet_colors : list tensor1;
  cast_undefined : fl → Z
}.

(** The conversion of a float to [uint8], as [np.uint8(x)] and
    [x.astype("uint8")] perform it on x86-64: truncate toward zero to an
    integer, keep the low eight bits.  (A float beyond the range of the
    integer type is a multiple of 256, and the low eight bits the
    conversion then leaves are zero, as those of the number are.) *)
Definition c_int_of_float `{Libraries} (x : fl) : Z :=
  match x with
  | Fin q => Qc_trunc q
  | _ => cast_undefined x
  end.
Definition np_uint8 `{Libraries} (x : fl) : Z := c_int_of_float x `mod` 256.

(** [keras.preprocessing.image.img_to_array]: a fresh float array of shape
    (height, width, 3). *)
Definition img_to_array (img : pil_image) : tensor3 :=
  (λ y, (λ x, let p := getpixel img x y in
              [fl_of_Z (red p); fl_of_Z (green p); fl_of_Z (blue p)])
          <$> seq 0 (width img))
    <$> seq 0 (height img).

(** [PIL.Image.fromarray(x, "RGB")] of a byte array of shape (h, w, 3). *)
Definition fromarray (x : list (list (list Z))) : pil_image :=
  PIL (dim1 x) (length x)
    (λ i j, let p := (x !!! j) !!! i in
            RGB (p !!! 0%nat) (p !!! 1%nat) (p !!! 2%nat)).

(** [keras.preprocessing.image.load_img(path, target_size=...)]: the
    remaining arguments have their defaults, [color_mode="rgb"] and
    [interpolation="nearest"].  The image is resized only when its size is
    not already the target. *)
Definition load_img `{Libraries} (path : bytes)
    (target_size : option (nat * nat)) : result pil_image :=
  img ← of_option (pil_open path) UnidentifiedImageError;
  match target_size with
  | None => mret img
  | Some target_size =>
      let width_height_tuple := (target_size.2, target_size.1) in
      if decide (pil_size img = width_height_tuple) then mret img
      else mret (resize width_height_tuple NEAREST img)
  end.

Section Images.
Context `{Rounding, Libraries}.

(** [keras.preprocessing.image.array_to_img(x)] with its default
    [scale=True]: the array is shifted to minimum 0 and, unless it is
    constant, scaled to maximum 255 before the conversion to bytes.  An
    image here is in mode RGB, so only arrays of three channels, the
    only ones the script passes, are converted.  Keras raises for channel
    counts other than 1, 3 and 4 and builds an image in mode L or RGBA
    for 1 and 4 channels, which are outside this definition; the
    properties of [array_to_img] are stated for three channels. *)
Definition array_to_img (x : tensor3) : result pil_image :=
  x_min ← np_min (flat3 x);
  let x := map3 (λ v, fsub v x_min) x in
  x_max ← np_max (flat3 x);
  let x := if negb (feqb x_max fzero)
           then map3 (λ v, fdiv v x_max) x else x in
  let x := map3 (λ v, fmul v (fl_of_Z 255)) x in
  if decide (dim2 x = 3%nat) then mret (fromarray (map3 np_uint8 x))
  else Raise (ValueError "Unsupported channel number").

(** [a + b] on arrays of rank 3 whose first two axes agree: entry by
    entry when the last axes agree, with the single channel of [b]
    repeated when [b] has one channel, an error otherwise. *)
Definition np_add (a b : tensor3) : result tensor3 :=
  if decide (dim2 b = dim2 a) then
    mret (zip_with (zip_with (zip_with fadd)) a b)
  else if decide (dim2 b = 1%nat) then
    mret (zip_with (zip_with
            (λ pa pb : tensor1, (λ v, fadd v (pb !!! 0%nat)) <$> pa)) a b)
  else Raise (ValueError "operands could not be broadcast together").

(** [table[index]] for an array of bytes as indices: every index selects
    a row of the table; an index beyond the table raises. *)
Definition take_rows (table : list tensor1) (index : list (list Z))
    : result tensor3 :=
  mapM (mapM (λ i : Z,
    if decide (0 ≤ i) then
      of_option (table !! Z.to_nat i) (IndexError "index out of bounds")
    else Raise (IndexError "index out of bounds"))) index.

(** ** Overlay: [overlay_heatmap_on_image] *)

(** The default [alpha=0.4]. *)
Definition default_alpha : fl := rnd (Qc_of_Z 2 / Qc_of_Z 5)%Qc.

(** Lines 76 to 82: the heatmap as bytes, coloured through the table,
    turned into an image, resized to the size of [img] and turned back
    into an array. *)
Definition resized_jet_heatmap (img : tensor3) (heatmap : tensor2)
    : result tensor3 :=
  let heatmap := map2 (λ h, np_uint8 (fmul (fl_of_Z 255) h)) heatmap in
  jet_heatmap ← take_rows jet_colors heatmap;
  jet_heatmap ← array_to_img jet_heatmap;
  let jet_heatmap :=
    resize (dim1 img, length img) pil_default_resample jet_heatmap in
  let jet_heatmap := img_to_array jet_heatmap in
  mret jet_heatmap.

Definition overlay_heatmap_on_image (img : tensor3) (heatmap : tensor2)
    (alpha : fl) : result pil_image :=
  jet_heatmap ← resized_jet_heatmap img heatmap;
  superimposed_img ← np_add (map3 (λ v, fmul v alpha) jet_heatmap) img;
  array_to_img superimposed_img.
End Images.

(** ** The upload pipeline: the [if uploaded_file:] block *)

Definition target_size : nat * nat := (224%nat, 224%nat).

Definition class_names : list string :=
  ["KL-GRADE 0"; "KL-GRADE 1"; "KL-GRADE 2"; "KL-GRADE 3"; "KL-GRADE 4"].

(** [np.expand_dims(x, axis=0)]. *)
Definition expand_dims (x : tensor3) : tensor4 := [x].

(** [a[0]] on a NumPy array. *)
Definition np_first {A} (a : list A) : result A :=
  of_option (a !! 0%nat)
    (IndexError "index 0 is out of bounds for axis 0 with size 0").

(** [ax.barh(y, width)]: one bar per entry; a sequence of one entry is
    repeated to the length of the other, and two lengths that differ
    otherwise raise. *)
Definition plt_barh (y : list string) (width : tensor1)
    : result (list (string * fl)) :=
  if decide (length y = length width) then mret (zip y width)
  else if decide (length width = 1%nat)
  then mret ((λ name, (name, width !!! 0%nat)) <$> y)
  else if decide (length y = 1%nat)
  then mret ((λ w, (y !!! 0%nat, w)) <$> width)
  else Raise (ValueError
    "shape mismatch: objects cannot be broadcast to a single shape").

Section Pipeline.
Context `{Rounding, Libraries}.

(** [keras.applications.xception.preprocess_input]: [x / 127.5 - 1]. *)
Definition preprocess_value (v : fl) : fl :=
  fsub (fdiv v (Fin (Qc_of_Z 255 / Qc_of_Z 2)%Qc)) fone.
Definition preprocess_input (x : tensor4) : tensor4 :=
  (λ img : tensor3, map3 preprocess_value img) <$> x.

(** Lines 86 to 91: from the uploaded bytes to the network input. *)
Definition load_and_preprocess (uploaded_file : bytes)
    : result (pil_image * tensor4) :=
  img ← load_img uploaded_file (Some target_size);
  let img_array := img_to_array img in
  let img_array := expand_dims img_array in
  let img_array := preprocess_input img_array in
  mret (img, img_array).

(** Lines 95, 96 and 102: the predicted grade, the percentages and the
    confidence shown with the grade. *)
Definition predicted_class (predictions : tensor1) : result string :=
  k ← np_argmax predictions;
  of_option (class_names !! k) (IndexError "list index out of range").
Definition prediction_probabilities (predictions : tensor1) : tensor1 :=
  (λ p, fmul (fl_of_Z 100) p) <$> predictions.
Definition confidence (predictions : tensor1) : result fl :=
  np_max (prediction_probabilities predictions).

(** Line 122: one horizontal bar per class name, as long as its
    percentage. *)
Definition bars (predictions : tensor1) : result (list (string * fl)) :=
  plt_barh class_names (prediction_probabilities predictions).

(** What one upload puts on the page. *)
Record page := {
  page_predicted_class : string;
  page_confidence : fl;
  page_heatmap_overlay : pil_image;
  page_bars : list (string * fl)
}.

Definition pipeline (model_predict : tensor4 → tensor2)
    (grad_model : grad_model_t) (uploaded_file : bytes) : result page :=
  '(img, img_array) ← load_and_preprocess uploaded_file;
  predictions ← np_first (model_predict img_array);
  label ← predicted_class predictions;
  delta ← confidence predictions;
  heatmap ← make_gradcam_heatmap grad_model img_array None;
  heatmap_overlay ←
    overlay_heatmap_on_image (img_to_array img) heatmap default_alpha;
  bar_list ← bars predictions;
  mret {| page_predicted_class := label;
          page_confidence := delta;
          page_heatmap_overlay := heatmap_overlay;
          page_bars := bar_list |}.
End Pipeline.

(** ** The pipeline over a store of Python objects *)

(** The objects of one run: the uploaded file, PIL images and NumPy
    arrays.  A name refers to an object; two names may refer to the same
    array, and an update in place is seen through both. *)
Inductive object : Type :=
  | UploadedFile (content : bytes)
  | PilImage (img : pil_image)
  | NdArray (data : tensor3).

Abbreviation ref := positive.
Abbreviation store := (gmap positive object).

(** A computation reads and updates the store and returns or raises. *)
Definition py (A : Type) : Type := store → result A * store.

Global Instance py_ret : MRet py := λ A a σ, (Ok a, σ).
Global Instance py_bind : MBind py := λ A B k m σ,
  match m σ with
  | (Ok a, σ') => k a σ'
  | (Raise e, σ') => (Raise e, σ')
  end.

(** A computation that does not touch the store. *)
Definition lift {A} (r : result A) : py A := λ σ, (r, σ).

(** A new object gets a reference no object has. *)
Definition alloc (o : object) : py ref := λ σ,
  let r := fresh (dom σ) in (Ok r, <[r := o]> σ).

(** An update in place. *)
Definition update (r : ref) (o : object) : py unit := λ σ,
  (Ok (), <[r := o]> σ).

Definition type_error {A} : result A :=
  Raise (Exception "unexpected type of object").

Definition get_file (r : ref) : py bytes := λ σ,
  (match σ !! r with Some (UploadedFile b) => Ok b | _ => type_error end, σ).
Definition get_image (r : ref) : py pil_image := λ σ,
  (match σ !! r with Some (PilImage i) => Ok i | _ => type_error end, σ).
Definition get_array (r : ref) : py tensor3 := λ σ,
  (match σ !! r with Some (NdArray a) => Ok a | _ => type_error end, σ).

Section Store_pipeline.
Context `{Rounding, Libraries}.

(** [load_img] reads the file and returns a new image. *)
Definition load_img_py (path : ref) (target_size : option (nat * nat))
    : py ref :=
  content ← get_file path;
  img ← lift (load_img content target_size);
  alloc (PilImage img).

(** [img_to_array] returns a new array. *)
Definition img_to_array_py (img : ref) : py ref :=
  i ← get_image img;
  alloc (NdArray (img_to_array i)).

(** [np.expand_dims] returns a view: the batch of one shares the data of
    its argument. *)
Definition expand_dims_py (x : ref) : py ref := mret x.

(** [preprocess_input] on a float array works in place, [x /= 127.5]
    then [x -= 1.], and returns its argument. *)
Definition preprocess_input_py (x : ref) : py ref :=
  data ← get_array x;
  update x (NdArray (map3 preprocess_value data));;
  mret x.

(** The batch a view denotes. *)
Definition get_batch (x : ref) : py tensor4 :=
  data ← get_array x; mret (expand_dims data).

(** [array_to_img]: [np.asarray] gives the argument itself (or a copy, for
    an array of another float type) and nothing is written to it;
    [x - min] is a new array, and the scaling [x /= x_max], [x *= 255]
    updates that new array in place. *)
Definition array_to_img_py (x : ref) : py ref :=
  data ← get_array x;
  x_min ← lift (np_min (flat3 data));
  x ← alloc (NdArray (map3 (λ v, fsub v x_min) data));
  data ← get_array x;
  x_max ← lift (np_max (flat3 data));
  (if negb (feqb x_max fzero)
   then update x (NdArray (map3 (λ v, fdiv v x_max) data))
   else mret ());;
  data ← get_array x;
  update x (NdArray (map3 (λ v, fmul v (fl_of_Z 255)) data));;
  data ← get_array x;
  if decide (dim2 data = 3%nat)
  then alloc (PilImage (fromarray (map3 np_uint8 data)))
  else lift (Raise (ValueError "Unsupported channel number")).

Definition overlay_heatmap_on_image_py (img : ref) (heatmap : tensor2)
    (alpha : fl) : py ref :=
  let heatmap := map2 (λ h, np_uint8 (fmul (fl_of_Z 255) h)) heatmap in
  jet_heatmap ← lift (take_rows jet_colors heatmap);
  jet_heatmap ← alloc (NdArray jet_heatmap);
  jet_heatmap ← array_to_img_py jet_heatmap;
  jet_image ← get_image jet_heatmap;
  img_data ← get_array img;
  jet_heatmap ← alloc (PilImage
    (resize (dim1 img_data, length img_data) pil_default_resample
       jet_image));
  jet_heatmap ← img_to_array_py jet_heatmap;
  jet_data ← get_array jet_heatmap;
  superimposed ← lift (np_add (map3 (λ v, fmul v alpha) jet_data) img_data);
  superimposed_img ← alloc (NdArray superimposed);
  array_to_img_py superimposed_img.

(** What one upload puts on the page, the overlay by reference. *)
Record page_py := {
  py_predicted_class : string;
  py_confidence : fl;
  py_heatmap_overlay : ref;
  py_bars : list (string * fl)
}.

Definition run_pipeline (model_predict : tensor4 → tensor2)
    (grad_model : grad_model_t) (uploaded_file : ref) : py page_py :=
  img ← load_img_py uploaded_file (Some target_size);
  img_array ← img_to_array_py img;
  img_array ← expand_dims_py img_array;
  img_array ← preprocess_input_py img_array;
  batch ← get_batch img_array;
  predictions ← lift (np_first (model_predict batch));
  label ← lift (predicted_class predictions);
  delta ← lift (confidence predictions);
  heatmap ← lift (make_gradcam_heatmap grad_model batch None);
  original ← img_to_array_py img;
  heatmap_overlay ←
    overlay_heatmap_on_image_py original heatmap default_alpha;
  bar_list ← lift (bars predictions);
  mret {| py_predicted_class := label;
          py_confidence := delta;
          py_heatmap_overlay := heatmap_overlay;
          py_bars := bar_list |}.
End Store_pipeline.

(** ** The page of the script *)

(** Where an element is drawn: the main area, the sidebar, or one of the
    columns of [st.columns(2)]. *)
Inductive place : Type :=
  | Main
  | Sidebar
  | Column (i : nat).

(** The figure of lines 120 to 135: the bars of [barh] as pairs of a
    class name and a width, the limits of the x axis, the two captions,
    and the texts as triples of the x position, the index of the bar at
    whose centre the text stands, and the text.  Colours, sizes and
    alignments are left out. *)
Record figure := {
  fig_bars : list (string * fl);
  fig_xlim : Z * Z;
  fig_xlabel : string;
  fig_title : string;
  fig_texts : list (fl * nat * string)
}.

(** An element of the page, named after the call that draws it.
    [st_error body e] is [st.error(f"{body}{e}")]; [st_image_upload] is
    [st.image] of the uploaded file and [st_image], of a PIL image. *)
Inductive element : Type :=
  | st_info (body : string)
  | st_success (body : string)
  | st_warning (body : string)
  | st_error (body : string) (e : exn)
  | st_image_file (path caption : string) (width : Z)
  | st_file_uploader (label : string) (type : list string)
  | st_title (body : string)
  | st_subheader (body : string)
  | st_metric (label value delta : string)
  | st_image_upload (content : bytes) (caption : string)
  | st_image (image : pil_image) (caption : string)
  | st_pyplot (fig : figure).

(** A part of the script draws elements, in order, and returns or
    raises. *)
Definition streamlit (A : Type) : Type :=
  list (place * element) → result A * list (place * element).

Global Instance streamlit_ret : MRet streamlit := λ A a page, (Ok a, page).
Global Instance streamlit_bind : MBind streamlit := λ A B k m page,
  match m page with
  | (Ok a, page') => k a page'
  | (Raise e, page') => (Raise e, page')
  end.

Definition draw (p : place) (e : element) : streamlit unit := λ page,
  (Ok (), page ++ [(p, e)]).

(** A computation that draws nothing. *)
Definition quiet {A} (r : result A) : streamlit A := λ page, (r, page).

(** [try: body / except Exception as e: handler]: every exception of
    the script is an [Exception]; what the body drew before it raised
    stays on the page. *)
Definition try_except {A} (body : streamlit A) (handler : exn → streamlit A)
    : streamlit A := λ page,
  match body page with
  | (Ok a, page') => (Ok a, page')
  | (Raise e, page') => handler e page'
  end.

(** [f"{x:.2f}"] for a float: the decimal with two digits after the
    point that is nearest to the value, ties to the even one, with the
    sign of the value. *)
Definition hundredths (q : Qc) : Z :=
  round_half_even (Qabs q * inject_Z 100).
Definition two_digits (n : Z) : string :=
  if decide (n < 10) then "0" +:+ pretty n else pretty n.
Definition format_2f (x : fl) : string :=
  match x with
  | Fin q =>
      let n := hundredths q in
      (if decide (q < Qc_of_Z 0)%Qc then "-" else "")
        +:+ pretty (n `div` 100) +:+ "." +:+ two_digits (n `mod` 100)
  | PInf => "inf"
  | NInf => "-inf"
  | NaN => "nan"
  end.

Section Script.
Context `{Rounding, Libraries}.

(** Lines 120 to 135: the bar chart and the text beside every bar. *)
Definition confidence_chart (prediction_probabilities : tensor1)
    : result figure :=
  bar_list ← plt_barh class_names prediction_probabilities;
  let texts :=
    imap (λ i '(bar, prob),
            (fadd prob (fl_of_Z 2), i, format_2f prob +:+ "%"))
         (zip bar_list prediction_probabilities) in
  mret {| fig_bars := bar_list;
          fig_xlim := (0, 100);
          fig_xlabel := "Confidence (%)";
          fig_title := "Prediction Confidence Levels";
          fig_texts := texts |}.

(** Lines 88 to 137, the body of the [try].  The spinner of line 93 is
    on the page only while its block runs. *)
Definition analyse_upload (model_predict : tensor4 → tensor2)
    (grad_model : grad_model_t) (uploaded_file : bytes) : streamlit unit :=
  img ← quiet (load_img uploaded_file (Some target_size));
  let img_array := img_to_array img in
  let img_array := expand_dims img_array in
  let img_array := preprocess_input img_array in
  predictions ← quiet (np_first (model_predict img_array));
  k ← quiet (np_argmax predictions);
  predicted_class ← quiet (of_option (class_names !! k)
                             (IndexError "list index out of range"));
  let prediction_probabilities := prediction_probabilities predictions in
  draw Main (st_subheader "Prediction Result ✅");;
  top ← quiet (np_max prediction_probabilities);
  draw Main (st_metric "Predicted Severity Level" predicted_class
               ("Confidence: " +:+ format_2f top +:+ "%"));;
  heatmap ← quiet (make_gradcam_heatmap grad_model img_array None);
  heatmap_overlay ←
    quiet (overlay_heatmap_on_image (img_to_array img) heatmap
             default_alpha);
  draw (Column 0) (st_subheader "📸 Input Image");;
  draw (Column 0) (st_image_upload uploaded_file "Uploaded X-ray Image");;
  draw (Column 1) (st_subheader "📊 Explainability with Grad-CAM");;
  draw (Column 1) (st_image heatmap_overlay "Grad-CAM Heatmap");;
  draw Main (st_subheader "📈 Prediction Confidence Levels");;
  fig ← quiet (confidence_chart prediction_probabilities);
  draw Main (st_pyplot fig).

(** Lines 86 to 143: the upload, if there is one, is analysed and an
    exception is turned into an error on the page. *)
Definition upload_section (model_predict : tensor4 → tensor2)
    (grad_model : grad_model_t) (uploaded_file : option bytes)
    : streamlit unit :=
  match uploaded_file with
  | Some content =>
      try_except (analyse_upload model_predict grad_model content)
        (λ e, draw Main (st_error "Error processing the image: " e))
  | None =>
      draw Main (st_info "Please upload an X-ray image to begin analysis.")
  end.
End Script.

(** ** The script from top to bottom *)

Definition MODEL_URL : string :=
  "https://osteovision-models.s3.us-west-2.amazonaws.com/OSTEO_VISION_MODEL_6_+Knee+Osteoarthritis+Detection+with+Fine-Tuned+ResNet152V2+on+dataset+3+MODEL_6.h5".
Definition MODEL_PATH : string :=
  "src\models\OSTEO_VISION_MODEL_6_ Knee Osteoarthritis Detection with Fine-Tuned ResNet152V2 on dataset 3 MODEL_6.h5".

(** A loaded Keras model: [model.predict], and the construction of
    [grad_model] from it (it raises when the model has no layer
    [global_average_pooling2d]). *)
Record keras_model := {
  km_predict : tensor4 → tensor2;
  km_grad_model : result grad_model_t
}.

(** How a call of [st.sidebar.image] on a path ends: the image is drawn,
    [FileNotFoundError] is raised, or another exception is. *)
Inductive image_outcome : Type :=
  | Drawn
  | FileNotFound
  | Fails (e : exn).

(** What a run of the script meets: the server, the loader of Keras
    applied to the content of the model file ([None] when there is no
    file), the sidebar images, and what the uploader returns. *)
Record environment := {
  env_requests_get : string → response;
  env_load_model : option bytes → result keras_model;
  env_sidebar_image : string → image_outcome;
  env_uploaded_file : option bytes
}.

(** How a run ends: at the last line, at [st.stop()], or with an
    exception nothing catches. *)
Inductive outcome : Type :=
  | Completed
  | Stopped
  | Uncaught (e : exn).

(** Lines 48 to 52: the second image is tried only after the first is
    drawn; only [FileNotFoundError] is caught. *)
Definition sidebar_images (image : string → image_outcome)
    : list (place * element) * option exn :=
  let warning :=
    (Main, st_warning
             "Sidebar images not found. Ensure the paths are correct.") in
  match image "app/img/jssate .png" with
  | Drawn =>
      let first :=
        (Sidebar, st_image_file "app/img/jssate .png" "JSSATE-B" 220) in
      match image "app/img/jssaher.jpg" with
      | Drawn =>
          ([first;
            (Sidebar, st_image_file "app/img/jssaher.jpg" "JSSAHER" 220)],
           None)
      | FileNotFound => ([first; warning], None)
      | Fails e => ([first], Some e)
      end
  | FileNotFound => ([warning], None)
  | Fails e => ([], Some e)
  end.

Section Whole_script.
Context `{Rounding, Libraries, OperatingSystem}.

(** Lines 32 to 143, once the model file is provisioned: the model is
    loaded, the Grad-CAM model is built, the sidebar and the title are
    drawn and the upload is analysed.  [page] is what is on the page so
    far. *)
Definition script_with_model_file (env : environment) (fs : filesystem)
    (page : list (place * element))
    : filesystem * list (place * element) * outcome :=
  match env_load_model env (fs !! MODEL_PATH) with
  | Raise e =>
      (fs, page ++ [(Main, st_error "Failed to load the model: " e)],
       Stopped)
  | Ok model =>
      let page :=
        page ++ [(Main, st_success "Model loaded successfully!")] in
      match km_grad_model model with
      | Raise e =>
          (fs,
           page ++ [(Main, st_error "Failed to configure Grad-CAM: " e)],
           Stopped)
      | Ok grad_model =>
          let '(images, failure) :=
            sidebar_images (env_sidebar_image env) in
          match failure with
          | Some e => (fs, page ++ images, Uncaught e)
          | None =>
              let page :=
                page ++ images ++
                [(Sidebar, st_file_uploader "Upload an X-ray image"
                             ["png"; "jpg"; "jpeg"]);
                 (Main, st_title "OSTEO VISION")] in
              match upload_section (km_predict model) grad_model
                      (env_uploaded_file env) page with
              | (Ok _, page) => (fs, page, Completed)
              | (Raise e, page) => (fs, page, Uncaught e)
              end
          end
      end
  end.

(** One run of the script on a file system: the file system it leaves,
    the page and how the run ended.  Lines 28 to 30 provision the model
    file, and an exception of the download ends the run.
    [st.set_page_config] draws nothing. *)
Definition script (env : environment) (fs : filesystem)
    : filesystem * list (place * element) * outcome :=
  let downloading :=
    match fs !! MODEL_PATH with
    | None => [(Main, st_info "Downloading model. Please wait...")]
    | Some _ => []
    end in
  let '(fs, provisioned) :=
    ensure_model (env_requests_get env) MODEL_URL MODEL_PATH fs in
  match provisioned with
  | Raise e => (fs, downloading, Uncaught e)
  | Ok _ => script_with_model_file env fs downloading
  end.
End Whole_script.

(** ** Notions used by the properties *)

(** The two facts about rounding the properties rest on.  Both hold of
    IEEE round-to-nearest: rounding is monotone, and integers of at most
    24 bits are floats. *)
Definition rnd_monotone `{Rounding} : Prop :=
  ∀ a b : Qc, (a ≤ b)%Qc → fleb (rnd a) (rnd b) = true.
Definition rnd_exact_on_integers `{Rounding} : Prop :=
  ∀ z : Z, - 2 ^ 24 ≤ z ≤ 2 ^ 24 → rnd (Qc_of_Z z) = fl_of_Z z.

(** [x] is a value of the float format: rounding leaves it as it is. *)
Definition float_value `{Rounding} (x : fl) : Prop :=
  match x with Fin q => rnd q = Fin q | _ => True end.

(** [x] lies in [0, 1]. *)
Definition in_unit_interval (x : fl) : Prop :=
  fleb fzero x = true ∧ fleb x fone = true.

(** The colour table has 256 rows of three components. *)
Definition jet_table_ok `{Libraries} : Prop :=
  length jet_colors = 256%nat ∧
  Forall (λ c : tensor1, length c = 3%nat) jet_colors.

(** Arithmetic in which nothing is rounded: every exact result is a
    float.  In it a sum does not depend on the order of its terms, so
    what is proved in it holds whatever order the kernels of TensorFlow
    add in. *)
Definition exact_arithmetic `{Rounding} : Prop := ∀ q : Qc, rnd q = Fin q.

(** The steps of Grad-CAM in the words of the specification, as sums of
    exact numbers over the indices of a gradient and of an activation
    map of [h] by [w] positions and [c] channels: the importance weight
    of channel [k] is the average of the gradient over the two spatial
    axes, and the map is, at every position, the dot product over the
    channel axis of the activations with the weights. *)
Definition exact_sum (terms : list Qc) : Qc :=
  foldr Qcplus (Qc_of_Z 0) terms.
Definition entry (t : list (list (list Qc))) (i j k : nat) : Qc :=
  ((t !!! i) !!! j) !!! k.
Definition spec_pooled_gradient (gradient : list (list (list Qc)))
    (h w k : nat) : Qc :=
  (exact_sum
     ((λ i, exact_sum ((λ j, entry gradient i j k) <$> seq 0 w))
        <$> seq 0 h)
   / Qc_of_Z (Z.of_nat (h * w)))%Qc.
Definition spec_weighted_sum (activation_map : list (list (list Qc)))
    (weights : list Qc) (h w c : nat) : list (list Qc) :=
  (λ i,
     (λ j, exact_sum
             ((λ k, (entry activation_map i j k * weights !!! k)%Qc)
                <$> seq 0 c))
       <$> seq 0 w)
    <$> seq 0 h.

(** [keeps caller P m]: run from any store that extends [caller], the
    computation [m] ends in a store that still extends [caller], every
    object of [caller] as it was, and a returned value satisfies [P]. *)
Definition keeps {A} (caller : store) (P : A → Prop) (m : py A) : Prop :=
  ∀ σ, caller ⊆ σ → caller ⊆ (m σ).2 ∧ ∀ a, (m σ).1 = Ok a → P a.

(** The network as the script expects it.  It answers every batch with
    five probabilities, none of them NaN.  Its feature maps and the
    gradient of every class with respect to them have one shape, a grid
    of [h] by [w] positions with [c] channels, where [h] and [w] are at
    least 2, so that the last axis is the only axis [tf.squeeze] drops,
    and [c] is at least 1. *)
Definition network_ok (model_predict : tensor4 → tensor2)
    (grad_model : grad_model_t) : Prop :=
  ∀ x : tensor4,
    (∃ probabilities rest,
       model_predict x = probabilities :: rest ∧
       length probabilities = 5%nat ∧
       Forall (λ p, is_nan p = false) probabilities) ∧
    (∃ a p h w c,
       gm_call grad_model x = ([a], [p]) ∧ p ≠ [] ∧
       Forall (λ q, is_nan q = false) p ∧
       has_shape3 a h w c ∧
       (∀ k, ∃ g, gm_gradient grad_model x k = [g] ∧ has_shape3 g h w c) ∧
       (1 < h)%nat ∧ (1 < w)%nat ∧ (0 < c)%nat).

(** [v] lies in [-1, 1]. *)
Definition in_signed_unit_interval (v : fl) : Prop :=
  fleb (fl_of_Z (-1)) v = true ∧ fleb v fone = true.

(** The three channels of a pixel are bytes. *)
Definition byte_pixel (p : rgb) : Prop :=
  0 ≤ red p ≤ 255 ∧ 0 ≤ green p ≤ 255 ∧ 0 ≤ blue p ≤ 255.

(** A finite value within [-2^23, 2^23], as the bytes of an image and
    their blends with a colour are. *)
Definition bounded_value (v : fl) : Prop :=
  ∃ q, v = Fin q ∧ (Qc_of_Z (- 2 ^ 23) ≤ q)%Qc ∧ (q ≤ Qc_of_Z (2 ^ 23))%Qc.

(** ** A concrete setting *)

(** A decoder of a raw format: the width, the height, then one grey byte
    for every pixel, row by row. *)
Definition raw_grey_open (b : bytes) : option pil_image :=
  match b with
  | w :: h :: pixels =>
      if decide (0 < w ∧ 0 < h ∧ Z.of_nat (length pixels) = w * h) then
        Some (PIL (Z.to_nat w) (Z.to_nat h)
                (λ x y, let v := pixels !!! (y * Z.to_nat w + x)%nat in
                        RGB v v v))
      else None
  | _ => None
  end.

(** A colour table of 256 rows, a ramp from blue to red. *)
Definition ramp_colors : list tensor1 :=
  (λ i : nat,
     [binary32 (Qc_of_Z (Z.of_nat i) / Qc_of_Z 255)%Qc; fzero;
      binary32 (Qc_of_Z (255 - Z.of_nat i) / Qc_of_Z 255)%Qc])
    <$> seq 0 256.

Definition example_libraries : Libraries := {|
  pil_open := raw_grey_open;
  pil_default_resample := NEAREST;
  jet_colors := ramp_colors;
  cast_undefined := λ _, 0
|}.

(** An upload of two pixels, black and white, and the image it decodes
    to. *)
Definition example_upload : bytes := [2; 1; 0; 255].
Definition example_source : pil_image :=
  PIL 2 1 (λ x y, let v := [0; 255] !!! (y * 2 + x)%nat in RGB v v v).

(** A network with feature maps of 2 by 2 positions and two channels.  It
    answers every batch alike; the gradient of class [k] grows with [k]. *)
Definition example_features : tensor3 :=
  [[[fl_of_Z 1; fl_of_Z 0]; [fl_of_Z 0; fl_of_Z 2]];
   [[fl_of_Z (-1); fl_of_Z 0]; [fl_of_Z 3; fl_of_Z 1]]].
Definition example_probabilities : tensor1 :=
  [Fin (Qc_of_Z 1 / Qc_of_Z 8)%Qc; Fin (Qc_of_Z 1 / Qc_of_Z 4)%Qc;
   Fin (Qc_of_Z 3 / Qc_of_Z 8)%Qc; Fin (Qc_of_Z 1 / Qc_of_Z 8)%Qc;
   Fin (Qc_of_Z 1 / Qc_of_Z 8)%Qc].
Definition example_gradient (k : nat) : tensor3 :=
  [[[fl_of_Z 1; fl_of_Z (Z.of_nat k)]; [fl_of_Z 3; fl_of_Z 0]];
   [[fl_of_Z 0; fl_of_Z 1]; [fl_of_Z 0; fl_of_Z 0]]].
(** A text for the index errors of the example networks. *)
Definition example_index_error (axis n : nat) (i : Z) : string :=
  "index " +:+ pretty i +:+ " is out of the bounds of axis "
    +:+ pretty axis +:+ " with " +:+ pretty n +:+ " entries".
Definition example_grad_model : grad_model_t := {|
  gm_call := λ _, ([example_features], [example_probabilities]);
  gm_gradient := λ _ k, [example_gradient k];
  gm_index_error := example_index_error
|}.
Definition example_predict : tensor4 → tensor2 :=
  λ _, [example_probabilities].

(** The feature maps and the gradients of the example network as exact
    numbers, and the arithmetic that rounds nothing. *)
Definition example_activations : list (list (list Qc)) :=
  [[[Qc_of_Z 1; Qc_of_Z 0]; [Qc_of_Z 0; Qc_of_Z 2]];
   [[Qc_of_Z (-1); Qc_of_Z 0]; [Qc_of_Z 3; Qc_of_Z 1]]].
Definition example_exact_gradient (k : nat) : list (list (list Qc)) :=
  [[[Qc_of_Z 1; Qc_of_Z (Z.of_nat k)]; [Qc_of_Z 3; Qc_of_Z 0]];
   [[Qc_of_Z 0; Qc_of_Z 1]; [Qc_of_Z 0; Qc_of_Z 0]]].
Definition no_rounding : Rounding := λ q, Fin q.

(** The same network with feature maps that are zero everywhere. *)
Definition zero_grad_model : grad_model_t := {|
  gm_call := λ _, ([map3 (λ _, fzero) example_features],
                   [example_probabilities]);
  gm_gradient := λ _ k, [example_gradient k];
  gm_index_error := example_index_error
|}.

(** A batch of one image of one pixel. *)
Definition example_batch : tensor4 :=
  [[[[fl_of_Z 0; fl_of_Z 0; fl_of_Z 0]]]].

(** A grey image of 2 by 2 pixels, every channel 100, and a heatmap. *)
Definition grey_image : tensor3 :=
  [[[fl_of_Z 100; fl_of_Z 100; fl_of_Z 100];
    [fl_of_Z 100; fl_of_Z 100; fl_of_Z 100]];
   [[fl_of_Z 100; fl_of_Z 100; fl_of_Z 100];
    [fl_of_Z 100; fl_of_Z 100; fl_of_Z 100]]].
Definition example_heatmap : tensor2 :=
  [[fl_of_Z 0; Fin (Qc_of_Z 1 / Qc_of_Z 2)%Qc]; [fl_of_Z 1; fl_of_Z 2]].

(** The weighted activation map of the example network for the class it
    predicts, and its heatmap for the last class. *)
Definition example_weighted_map : tensor2 :=
  Eval vm_compute in
    match weighted_activation_map (H := binary32)
            example_grad_model example_batch None with
    | Ok raw => raw
    | Raise _ => []
    end.
Definition example_last_class_heatmap : tensor2 :=
  Eval vm_compute in
    match make_gradcam_heatmap (H := binary32)
            example_grad_model example_batch (Some 4) with
    | Ok heatmap => heatmap
    | Raise _ => []
    end.

(** A server that answers with the body in two chunks, one whose
    connection breaks after the first chunk, and an operating system that
    opens every path but the empty one. *)
Definition example_server : string → response :=
  λ _, {| status_code := 200; iter_content := [[77; 90]; [144]];
          iter_error := None |}.
Definition breaking_server : string → response :=
  λ _, {| status_code := 200; iter_content := [[77; 90]];
          iter_error := Some (OSError "Connection broken") |}.
Definition example_os : OperatingSystem := {|
  open_error := λ _ path,
    if decide (path = "") then Some (OSError "No such file or directory")
    else None;
  write_error := λ _ _ _, None
|}.

(** The example network with a gradient that vanishes. *)
Definition saturated_grad_model : grad_model_t := {|
  gm_call := λ _, ([example_features], [example_probabilities]);
  gm_gradient := λ _ _, [map3 (λ _, fzero) (example_gradient 0)];
  gm_index_error := example_index_error
|}.

(** An image of 448 by 224 pixels whose columns alternate between black
    and white, and libraries whose decoder returns it. *)
Definition striped_source : pil_image :=
  PIL 448 224 (λ x y, let v := 255 * Z.of_nat (x `mod` 2) in RGB v v v).
Definition striped_libraries : Libraries := {|
  pil_open := λ _, Some striped_source;
  pil_default_resample := NEAREST;
  jet_colors := ramp_colors;
  cast_undefined := λ _, 0
|}.

(** [yields out r]: the outcome [out] of a computation raises as [r]
    does, or returns a reference at which its store holds the object [r]
    returns. *)
Definition yields (out : result ref * store) (r : result object) : Prop :=
  match r with
  | Ok o => ∃ l, out.1 = Ok l ∧ out.2 !! l = Some o
  | Raise e => out.1 = Raise e
  end.

(** * Properties *)

(** ** Order on floats *)

Lemma fleb_refl x : is_nan x = false → fleb x x = true.
Proof. destruct x; simpl; try done. intros _. by apply bool_decide_eq_true. Qed.

Lemma fleb_trans x y z : fleb x y = true → fleb y z = true → fleb x z = true.
Proof.
  destruct x, y, z; simpl; try done.
  rewrite !bool_decide_eq_true. apply Qcle_trans.
Qed.

Lemma fleb_antisym x y : fleb x y = true → fleb y x = true → x = y.
Proof.
  destruct x, y; simpl; try done.
  rewrite !bool_decide_eq_true. intros. f_equal. by apply Qcle_antisym.
Qed.

Lemma fleb_total x y :
  is_nan x = false → is_nan y = false → fleb x y = true ∨ fleb y x = true.
Proof.
  destruct x as [a| | |], y as [b| | |]; simpl; try done; auto.
  intros _ _. rewrite !bool_decide_eq_true.
  destruct (Qclt_le_dec a b); auto using Qclt_le_weak.
Qed.

Lemma fltb_fleb x y : fltb x y = true → fleb x y = true.
Proof.
  destruct x, y; simpl; try done.
  rewrite !bool_decide_eq_true. apply Qclt_le_weak.
Qed.

Lemma fltb_not_fleb x y : fltb x y = true → fleb y x = false.
Proof.
  destruct x, y; simpl; try done.
  rewrite bool_decide_eq_true, bool_decide_eq_false. apply Qclt_not_le.
Qed.

Lemma not_fltb_fleb x y :
  is_nan x = false → is_nan y = false → fltb x y = false → fleb y x = true.
Proof.
  destruct x, y; simpl; try done.
  rewrite bool_decide_eq_true, bool_decide_eq_false. intros _ _.
  apply Qcnot_lt_le.
Qed.

Lemma fmax_nan x y :
  is_nan x = false → is_nan y = false → is_nan (fmax x y) = false.
Proof. destruct x, y; simpl; try done; by case_match. Qed.

Lemma fmax_cases x y :
  is_nan x = false → is_nan y = false →
  (fmax x y = y ∧ fleb x y = true) ∨ (fmax x y = x ∧ fleb y x = true).
Proof.
  intros Hx Hy. destruct (fleb x y) eqn:Hle.
  - left. by destruct x, y; simpl in *; rewrite ?Hle.
  - right. split; [by destruct x, y; simpl in *; rewrite ?Hle|].
    destruct (fleb_total x y) as [?|?]; congruence.
Qed.
Lemma Qc_sign_0 : Qc_sign (Qc_of_Z 0) = Eq.
Proof. by apply Qceq_alt. Qed.
Lemma Qc_sign_pos q : (Qc_of_Z 0 < q)%Qc → Qc_sign q = Gt.
Proof. intros. by apply Qcgt_alt. Qed.
Lemma Qc_sign_neg q : (q < Qc_of_Z 0)%Qc → Qc_sign q = Lt.
Proof. intros. by apply Qclt_alt. Qed.

Lemma reduce_max_upper (l : list fl) x :
  Forall (λ y, is_nan y = false) l → x ∈ l → fleb x (reduce_max l) = true.
Proof.
  induction 1 as [|y l Hy Hl IH]; [by intros ?%elem_of_nil|].
  assert (is_nan (reduce_max l) = false) as Hm.
  { clear IH. induction Hl; simpl; [done|]. by apply fmax_nan. }
  intros [->|Hx]%elem_of_cons; simpl.
  - destruct (fmax_cases y (reduce_max l)) as [[-> ?]|[-> ?]]; try done.
    by apply fleb_refl.
  - destruct (fmax_cases y (reduce_max l)) as [[-> ?]|[-> ?]]; try done; auto.
    eapply fleb_trans; eauto.
Qed.

Lemma reduce_max_elem (l : list fl) :
  Forall (λ y, is_finite y = true) l → l ≠ [] → reduce_max l ∈ l.
Proof.
  induction 1 as [|y l Hy Hl IH]; [done|]. intros _. simpl.
  destruct l as [|z l].
  - simpl. destruct y; try done. simpl. left.
  - destruct (fmax_cases y (reduce_max (z :: l))) as [[-> ?]|[-> ?]].
    + by destruct y.
    + assert (reduce_max (z :: l) ∈ z :: l) as Hin by (by apply IH).
      rewrite Forall_forall in Hl. apply Hl in Hin. by destruct (reduce_max _).
    + right. by apply IH.
    + left.
Qed.

(** ** The range of the Grad-CAM heatmap *)

Section Heatmap_range.
Context `{Rounding}.
Hypothesis rnd_mono : rnd_monotone.
Hypothesis rnd_int : rnd_exact_on_integers.

Lemma rnd_0 : rnd (Qc_of_Z 0) = fzero.
Proof. by apply rnd_int. Qed.
Lemma rnd_1 : rnd (Qc_of_Z 1) = fone.
Proof. by apply rnd_int. Qed.

Lemma rnd_unit_interval (q : Qc) :
  (Qc_of_Z 0 ≤ q)%Qc → (q ≤ Qc_of_Z 1)%Qc → in_unit_interval (rnd q).
Proof.
  intros H0 H1. split.
  - rewrite <-rnd_0. by apply rnd_mono.
  - rewrite <-rnd_1. by apply rnd_mono.
Qed.

Lemma fdiv_unit_interval (a m : Qc) :
  (Qc_of_Z 0 ≤ a)%Qc → (a ≤ m)%Qc → (Qc_of_Z 0 < m)%Qc →
  in_unit_interval (fdiv (Fin a) (Fin m)).
Proof.
  intros Ha Ham Hm. simpl. rewrite (Qc_sign_pos m Hm).
  assert (Qc_of_Z 0 < / m)%Qc as Hinv.
  { rewrite Z2Qc_inj_0 in *. by apply Qcinv_pos. }
  assert (m ≠ Qc_of_Z 0) as Hne.
  { intros ->. by apply Qclt_not_eq in Hm. }
  apply rnd_unit_interval; unfold Qcdiv.
  - rewrite Z2Qc_inj_0 in *. apply Qcmult_nonneg_nonneg; [done|].
    by apply Qclt_le_weak.
  - rewrite Z2Qc_inj_1. rewrite Z2Qc_inj_0 in Hne.
    rewrite <-(Qcmult_inv_r m Hne).
    apply Qcmult_le_compat_r; [done|]. rewrite Z2Qc_inj_0 in Hinv.
    by apply Qclt_le_weak.
Qed.

(** One entry of the normalised map, by the sign of the maximum. *)
Lemma normalize_entry_positive (x m : fl) :
  is_finite x = true → is_finite m = true →
  fleb x m = true → fltb fzero m = true →
  in_unit_interval (fdiv (fmax x fzero) m).
Proof.
  destruct x as [a| | |], m as [b| | |]; try done. intros _ _ Hle Hpos.
  simpl in Hle, Hpos. apply bool_decide_eq_true in Hle, Hpos.
  unfold fmax, fzero. simpl. case_bool_decide as Ha.
  - apply fdiv_unit_interval; [done| |done]. by apply Qclt_le_weak.
  - apply fdiv_unit_interval; [|done..].
    apply Qcnot_le_lt in Ha. by apply Qclt_le_weak.
Qed.

Lemma normalize_entry_zero (x : fl) :
  is_finite x = true → fleb x fzero = true →
  fdiv (fmax x fzero) fzero = NaN.
Proof.
  destruct x as [a| | |]; try done. intros _ Hle.
  unfold fmax. rewrite Hle. unfold fzero, fdiv. by rewrite Qc_sign_0.
Qed.

Lemma normalize_entry_negative (x m : fl) :
  is_finite x = true → fleb x m = true → fltb m fzero = true →
  fdiv (fmax x fzero) m = fzero.
Proof.
  destruct x as [a| | |]; try done. intros _ Hle Hneg.
  assert (fleb (Fin a) fzero = true) as Ha.
  { eapply fleb_trans; [done|]. by apply fltb_fleb. }
  unfold fmax. rewrite Ha. destruct m as [b| | |]; try done.
  simpl in Hneg. apply bool_decide_eq_true in Hneg.
  unfold fzero at 1. simpl. rewrite (Qc_sign_neg b Hneg).
  unfold Qcdiv. rewrite Z2Qc_inj_0, Qcmult_0_l, <-Z2Qc_inj_0. apply rnd_0.
Qed.

Lemma elem_of_flat2 {A} (x : A) (row : list A) (t : list (list A)) :
  x ∈ row → row ∈ t → x ∈ flat2 t.
Proof.
  intros. apply list_elem_of_In, in_concat. exists row.
  by rewrite <-!list_elem_of_In.
Qed.

(** C1, as the code has it: the explainer divides the clipped map by the
    maximum of the map before clipping and has no guard.  For a
    weighted map of finite entries, a positive maximum gives a heatmap
    with every value in [0, 1], a negative maximum gives the zero
    heatmap, and a maximum of zero gives [0/0], NaN, at every
    position. *)
Theorem heatmap_range_by_maximum (grad_model : grad_model_t)
    (img_array : tensor4) (pred_index : option Z) (raw : tensor2) :
  weighted_activation_map grad_model img_array pred_index = Ok raw →
  Forall (Forall (λ x, is_finite x = true)) raw →
  ∃ heatmap,
    make_gradcam_heatmap grad_model img_array pred_index = Ok heatmap ∧
    (fltb fzero (reduce_max (flat2 raw)) = true →
       Forall (Forall in_unit_interval) heatmap) ∧
    (fltb (reduce_max (flat2 raw)) fzero = true →
       Forall (Forall (λ x, x = fzero)) heatmap) ∧
    (reduce_max (flat2 raw) = fzero →
       Forall (Forall (λ x, x = NaN)) heatmap).
Proof.
  intros Hraw Hfin. exists (normalize_heatmap raw). split.
  { unfold make_gradcam_heatmap. by rewrite Hraw. }
  assert (Forall (λ y, is_nan y = false) (flat2 raw)) as Hnan.
  { apply Forall_concat. eapply Forall_impl; [done|]. intros row Hrow.
    eapply Forall_impl; [done|]. by intros []. }
  assert (∀ row x, row ∈ raw → x ∈ row →
    is_finite x = true ∧ fleb x (reduce_max (flat2 raw)) = true) as Hx.
  { intros row x Hrow Hin. split.
    - rewrite Forall_forall in Hfin. specialize (Hfin row Hrow).
      rewrite Forall_forall in Hfin. by apply Hfin.
    - apply reduce_max_upper; [done|]. by eapply elem_of_flat2. }
  unfold normalize_heatmap, map2.
  repeat split; intros Hm; apply Forall_fmap, Forall_forall;
    intros row Hrow; apply Forall_fmap, Forall_forall; intros x Hin;
    destruct (Hx row x Hrow Hin) as [Hxfin Hxle]; simpl.
  - apply normalize_entry_positive; try done.
    assert (flat2 raw ≠ []) as Hne.
    { intros Heq. rewrite Heq in Hm. done. }
    assert (reduce_max (flat2 raw) ∈ flat2 raw) as Hmem.
    { apply reduce_max_elem; [|done]. by apply Forall_concat. }
    apply Forall_concat in Hfin. rewrite Forall_forall in Hfin.
    by apply Hfin.
  - by apply normalize_entry_negative.
  - rewrite Hm in *. by apply normalize_entry_zero.
Qed.
End Heatmap_range.

(** ** The steps of Grad-CAM *)

Lemma argmax_from_spec (l : list fl) : ∀ (pre : list fl) (bi : nat) (b : fl),
  Forall (λ y, is_nan y = false) (pre ++ l) →
  pre !! bi = Some b →
  (∀ x, x ∈ pre → fleb x b = true) →
  ∃ v, (pre ++ l) !! argmax_from bi b (length pre) l = Some v ∧
       ∀ x, x ∈ pre ++ l → fleb x v = true.
Proof.
  induction l as [|x l IH]; intros pre bi b Hnan Hbi Hub; simpl.
  - exists b. rewrite app_nil_r. done.
  - assert (is_nan x = false ∧ is_nan b = false) as [Hx Hb].
    { rewrite Forall_forall in Hnan. split; apply Hnan.
      - apply elem_of_app. right. left.
      - apply elem_of_app. left. by eapply list_elem_of_lookup_2. }
    assert (pre ++ x :: l = (pre ++ [x]) ++ l) as Happ
      by (by rewrite <-app_assoc).
    rewrite Happ in *.
    assert (S (length pre) = length (pre ++ [x])) as ->.
    { rewrite length_app. simpl. lia. }
    destruct (fltb b x) eqn:Hlt.
    + apply IH; [done| |].
      * rewrite lookup_app_r by lia. by rewrite Nat.sub_diag.
      * intros y [Hy| ->%list_elem_of_singleton]%elem_of_app.
        -- eapply fleb_trans; [by apply Hub|]. by apply fltb_fleb.
        -- by apply fleb_refl.
    + apply IH; [done| |].
      * by apply lookup_app_l_Some.
      * intros y [Hy| ->%list_elem_of_singleton]%elem_of_app; [by apply Hub|].
        by apply not_fltb_fleb.
Qed.

(** On a vector without NaN, [argmax] is an index of the vector and no
    entry exceeds the entry it names. *)
Lemma argmax_spec (l : list fl) :
  l ≠ [] → Forall (λ y, is_nan y = false) l →
  ∃ v, l !! argmax l = Some v ∧ ∀ x, x ∈ l → fleb x v = true.
Proof.
  destruct l as [|x l]; [done|]. intros _ Hnan.
  apply (argmax_from_spec l [x] 0%nat x); [done..|].
  intros y ->%list_elem_of_singleton. apply fleb_refl.
  by inversion Hnan.
Qed.

Lemma argmax_lt_length (l : list fl) : l ≠ [] → (argmax l < length l)%nat.
Proof.
  destruct l as [|x l]; [done|]. intros _. simpl.
  cut (∀ bi b i, (bi < i)%nat → (argmax_from bi b i l < i + length l)%nat).
  { intros Hcut. apply (Hcut 0 x 1)%nat. lia. }
  induction l as [|y l IH]; intros bi b i Hbi; simpl; [lia|].
  destruct (fltb b y).
  - specialize (IH i y (S i)). lia.
  - specialize (IH bi b (S i)). lia.
Qed.

(** Without NaN, [np.argmax] is [argmax]. *)
Lemma np_argmax_no_nan (l : list fl) :
  l ≠ [] → Forall (λ y, is_nan y = false) l → np_argmax l = Ok (argmax l).
Proof.
  intros Hne Hnan. unfold np_argmax. destruct l as [|x l]; [done|].
  destruct (list_find _ (x :: l)) as [[i y]|] eqn:Hfind; [|done].
  apply list_find_Some in Hfind as (Hi & Hy & _).
  rewrite Forall_forall in Hnan.
  apply list_elem_of_lookup_2, Hnan in Hi. congruence.
Qed.

Section Gradcam_steps.
Context `{Rounding}.

Lemma tf_getitem_singleton {A} `{Inhabited A} text (x : A) :
  tf_getitem text [x] 0 = Ok x.
Proof. done. Qed.

Lemma slice_index_in_range text (axis n k : nat) :
  (k < n)%nat → slice_index text axis n (Z.of_nat k) = Ok k.
Proof.
  intros. unfold slice_index. rewrite decide_True by lia.
  by rewrite Nat2Z.id.
Qed.

Lemma reduce_mean_012_batch_of_one (g : tensor3) (h w c : nat) :
  has_shape3 g h w c → (0 < h)%nat → (0 < w)%nat →
  reduce_mean_012 [g]
  = (λ k, reduce_mean ((λ position : tensor1, position !!! k) <$> flat2 g))
      <$> seq 0 c.
Proof.
  intros [Hh Hrows] ? ?. unfold reduce_mean_012, flat2.
  simpl. rewrite app_nil_r.
  destruct g as [|row g]; [simpl in *; lia|].
  apply Forall_cons in Hrows as [[Hw Hrow] _].
  destruct row as [|p row]; [simpl in *; lia|].
  apply Forall_cons in Hrow as [Hp _]. simpl. by rewrite Hp.
Qed.

Lemma squeeze_matmul_newaxis (a : tensor3) (weights : tensor1) :
  weights ≠ [] →
  squeeze (matmul a (newaxis weights))
  = map2 (λ cell : tensor1, reduce_sum (zip_with fmul cell weights)) a.
Proof.
  intros Hw. unfold squeeze, matmul, map2.
  rewrite <-list_fmap_compose. apply list_fmap_ext. intros _ m _. simpl.
  unfold matmul2. rewrite <-list_fmap_compose. apply list_fmap_ext.
  intros _ cell _. simpl.
  assert (dim1 (newaxis weights) = 1%nat) as ->.
  { destruct weights; [done|]. done. }
  simpl. f_equal. f_equal. unfold column, newaxis.
  rewrite <-list_fmap_compose. simpl. apply list_fmap_id.
Qed.

End Gradcam_steps.

(** ** The target class index *)

Section Target_index.
Context `{Rounding}.

Lemma slice_index_negative text (axis n : nat) (i : Z) :
  - Z.of_nat n ≤ i < 0 →
  slice_index text axis n i = slice_index text axis n (i + Z.of_nat n).
Proof.
  intros. unfold slice_index.
  rewrite decide_False, decide_True by lia.
  rewrite (decide_True (P := 0 ≤ i + _ < _)) by lia. done.
Qed.

Lemma slice_index_out_of_range text (axis n : nat) (i : Z) :
  i < - Z.of_nat n ∨ Z.of_nat n ≤ i →
  slice_index text axis n i = Raise (InvalidArgumentError (text axis n i)).
Proof. intros. unfold slice_index. by rewrite !decide_False by lia. Qed.

(** C3, as the code has it: the explainer does not check the target
    index; the slicing [preds[:, index]] on line 66 does.  With five
    classes the indices out of range are those below -5 and above 4: for
    them the slicing raises the [InvalidArgumentError] of TensorFlow, and
    the call, run where the pipeline runs it, leaves every object of the
    store and the page as they were.  An index from -5 to -1 is in range:
    it counts from the end and gives the heatmap of the class
    [index + 5]. *)
Theorem target_index_is_resolved_by_slicing (grad_model : grad_model_t)
    (img_array : tensor4) (target_class_index : Z) :
  dim1 (gm_call grad_model img_array).2 = 5%nat →
  (target_class_index < -5 ∨ 4 < target_class_index →
     let error :=
       InvalidArgumentError
         (gm_index_error grad_model 1 5 target_class_index) in
     make_gradcam_heatmap grad_model img_array (Some target_class_index)
       = Raise error ∧
     (∀ σ : store,
        lift (make_gradcam_heatmap grad_model img_array
                (Some target_class_index)) σ
        = (Raise error, σ)) ∧
     (∀ page : list (place * element),
        quiet (make_gradcam_heatmap grad_model img_array
                 (Some target_class_index)) page
        = (Raise error, page))) ∧
  (-5 ≤ target_class_index < 0 →
     make_gradcam_heatmap grad_model img_array (Some target_class_index)
     = make_gradcam_heatmap grad_model img_array
         (Some (target_class_index + 5))).
Proof.
  intros Hclasses.
  unfold lift, quiet, make_gradcam_heatmap, weighted_activation_map.
  destruct (gm_call grad_model img_array) as [a preds]. simpl in *.
  unfold tf_getitem_col. rewrite Hclasses. split; intros Hi.
  - by rewrite slice_index_out_of_range by (simpl; lia).
  - by rewrite slice_index_negative by (simpl; lia).
Qed.
End Target_index.

(** ** The confidence report *)

Section Confidence.
Context `{Rounding}.
Hypothesis rnd_mono : rnd_monotone.

Lemma rnd_not_nan (q : Qc) : is_nan (rnd q) = false.
Proof.
  pose proof (rnd_mono q q (Qcle_refl q)) as Hq. by destruct (rnd q).
Qed.

Lemma fmul_positive_not_nan (c : Qc) (x : fl) :
  (Qc_of_Z 0 < c)%Qc → is_nan x = false → is_nan (fmul (Fin c) x) = false.
Proof.
  intros Hc Hx. destruct x; try done; simpl.
  - apply rnd_not_nan.
  - by rewrite (Qc_sign_pos c Hc).
  - by rewrite (Qc_sign_pos c Hc).
Qed.

Lemma fmul_positive_mono (c : Qc) (x y : fl) :
  (Qc_of_Z 0 < c)%Qc → fleb x y = true →
  fleb (fmul (Fin c) x) (fmul (Fin c) y) = true.
Proof.
  intros Hc Hxy.
  destruct x as [a| | |], y as [b| | |]; try done; simpl;
    rewrite ?(Qc_sign_pos c Hc); simpl; try done.
  - apply rnd_mono. apply bool_decide_eq_true in Hxy.
    rewrite !(Qcmult_comm c). apply Qcmult_le_compat_r; [done|].
    rewrite Z2Qc_inj_0 in Hc. by apply Qclt_le_weak.
  - pose proof (rnd_not_nan (c * a)%Qc). by destruct (rnd _).
  - pose proof (rnd_not_nan (c * b)%Qc). by destruct (rnd _).
Qed.

Lemma foldl_fmax_spec (l : list fl) : ∀ x : fl,
  Forall (λ y, is_nan y = false) (x :: l) →
  foldl fmax x l ∈ x :: l ∧
  ∀ y, y ∈ x :: l → fleb y (foldl fmax x l) = true.
Proof.
  induction l as [|z l IH]; intros x Hnan; simpl.
  - split; [left|]. intros y ->%list_elem_of_singleton.
    apply fleb_refl. by inversion Hnan.
  - inversion Hnan as [|?? Hx Hnan']; subst.
    inversion Hnan' as [|?? Hz Hl]; subst.
    destruct (IH (fmax x z)) as [Hin Hub].
    { constructor; [by apply fmax_nan|done]. }
    destruct (fmax_cases x z Hx Hz) as [[Heq Hle]|[Heq Hle]];
      rewrite Heq in *.
    + split; [by right|].
      intros y [->|Hy]%elem_of_cons; [|by apply Hub].
      eapply fleb_trans; [done|]. apply Hub. left.
    + split.
      * apply elem_of_cons in Hin as [->|Hin]; [left|by do 2 right].
      * intros y [->|[->|Hy]%elem_of_cons]%elem_of_cons.
        -- apply Hub. left.
        -- eapply fleb_trans; [done|]. apply Hub. left.
        -- apply Hub. by right.
Qed.

(** The maximum of a vector without NaN is its greatest entry. *)
Lemma np_max_greatest (l : list fl) (v : fl) :
  Forall (λ y, is_nan y = false) l →
  v ∈ l → (∀ y, y ∈ l → fleb y v = true) → np_max l = Ok v.
Proof.
  intros Hnan Hin Hub. destruct l as [|x l]; [by apply elem_of_nil in Hin|].
  simpl. f_equal. destruct (foldl_fmax_spec l x Hnan) as [Hmem Hmax].
  apply fleb_antisym; auto.
Qed.

(** C8: for five probabilities (none of them NaN) the page shows the
    class name at the index of the maximum probability, that
    probability times 100 as the confidence, and one bar per class,
    labelled [KL-GRADE 0] to [KL-GRADE 4] in the order of the class
    indices, each as long as its probability times 100. *)
Theorem confidence_report_keeps_class_order (p0 p1 p2 p3 p4 : fl) :
  let predictions := [p0; p1; p2; p3; p4] in
  Forall (λ p, is_nan p = false) predictions →
  ∃ (name : string) (p : fl),
    class_names !! argmax predictions = Some name ∧
    predictions !! argmax predictions = Some p ∧
    (∀ q, q ∈ predictions → fleb q p = true) ∧
    predicted_class predictions = Ok name ∧
    confidence predictions = Ok (fmul (fl_of_Z 100) p) ∧
    bars predictions =
      Ok [("KL-GRADE 0", fmul (fl_of_Z 100) p0);
          ("KL-GRADE 1", fmul (fl_of_Z 100) p1);
          ("KL-GRADE 2", fmul (fl_of_Z 100) p2);
          ("KL-GRADE 3", fmul (fl_of_Z 100) p3);
          ("KL-GRADE 4", fmul (fl_of_Z 100) p4)].
Proof.
  intros predictions Hnan.
  destruct (argmax_spec predictions) as (p & Hp & Hmax); [done..|].
  assert (argmax predictions < 5)%nat as Hlt
    by (by apply (argmax_lt_length predictions)).
  destruct (class_names !! argmax predictions) as [name|] eqn:Hname.
  2: { apply lookup_ge_None in Hname.
       change (length class_names) with 5%nat in Hname. lia. }
  exists name, p. repeat split; try done.
  - unfold predicted_class. rewrite np_argmax_no_nan by done.
    cbn [mbind result_bind]. by rewrite Hname.
  - unfold confidence, prediction_probabilities.
    assert (Qc_of_Z 0 < Qc_of_Z 100)%Qc as H100 by (by apply Z2Qc_inj_lt).
    apply np_max_greatest.
    + apply Forall_fmap. eapply Forall_impl; [done|]. intros q Hq.
      by apply fmul_positive_not_nan.
    + apply list_elem_of_fmap. exists p. split; [done|].
      by eapply list_elem_of_lookup_2.
    + intros y (q & -> & Hq)%list_elem_of_fmap.
      apply fmul_positive_mono; auto.
Qed.
End Confidence.

(** ** The colour index of the overlay *)

Lemma mapM_result_ok {A B} (f : A → result B) (g : A → B) (l : list A) :
  Forall (λ x, f x = Ok (g x)) l → mapM f l = Ok (g <$> l).
Proof.
  induction 1 as [|x l Hx _ IH]; [done|].
  change (mapM f (x :: l)) with (y ← f x; k ← mapM f l; mret (y :: k)).
  by rewrite Hx, IH.
Qed.

Lemma Qc_trunc_nonneg_bounds (q : Qc) (hi : Z) :
  (Qc_of_Z 0 ≤ q)%Qc → (q ≤ Qc_of_Z hi)%Qc → 0 ≤ Qc_trunc q ≤ hi.
Proof.
  unfold Qcle, Qle, Qc_trunc. simpl. intros Hlo Hhi.
  assert (0 ≤ Qnum q) as Hnum by lia.
  rewrite Z.quot_div_nonneg by lia. split.
  - apply Z.div_pos; lia.
  - apply Z.div_le_upper_bound; lia.
Qed.

Section Colour_index.
Context `{Rounding, Libraries}.

Lemma np_uint8_range (x : fl) : 0 ≤ np_uint8 x ≤ 255.
Proof.
  unfold np_uint8.
  pose proof (Z.mod_pos_bound (c_int_of_float x) 256). lia.
Qed.

Lemma take_rows_total (table : list tensor1) (index : list (list Z)) :
  length table = 256%nat →
  Forall (Forall (λ i, 0 ≤ i ≤ 255)) index →
  take_rows table index
    = Ok (map2 (λ i, table !!! Z.to_nat i) index).
Proof.
  intros Hlen Hidx. unfold take_rows, map2.
  apply mapM_result_ok. eapply Forall_impl; [done|]. intros row Hrow.
  apply mapM_result_ok. eapply Forall_impl; [done|]. intros i Hi.
  simpl in Hi. rewrite decide_True by lia.
  destruct (table !! Z.to_nat i) as [c|] eqn:Hc.
  - simpl. f_equal. symmetry. by apply list_lookup_total_correct.
  - apply lookup_ge_None in Hc. lia.
Qed.

Lemma scaled_unit_interval (rnd_mono : rnd_monotone)
    (rnd_int : rnd_exact_on_integers) (h : fl) :
  in_unit_interval h →
  ∃ q, fmul (fl_of_Z 255) h = Fin q ∧
       (Qc_of_Z 0 ≤ q)%Qc ∧ (q ≤ Qc_of_Z 255)%Qc.
Proof.
  intros [Hge Hle]. destruct h as [a| | |]; try done.
  simpl in Hge, Hle. apply bool_decide_eq_true in Hge, Hle. simpl.
  assert (fleb (rnd (Qc_of_Z 0)) (rnd (Qc_of_Z 255 * a)%Qc) = true) as Hlo.
  { apply rnd_mono. rewrite Z2Qc_inj_0 in *.
    apply Qcmult_nonneg_nonneg; [|done]. rewrite <-Z2Qc_inj_0.
    by apply Z2Qc_inj_le. }
  assert (fleb (rnd (Qc_of_Z 255 * a)%Qc) (rnd (Qc_of_Z 255)) = true)
    as Hhi.
  { apply rnd_mono. rewrite <-(Qcmult_1_r (Qc_of_Z 255)) at 2.
    rewrite !(Qcmult_comm (Qc_of_Z 255)).
    apply Qcmult_le_compat_r; [by rewrite <-Z2Qc_inj_1|].
    rewrite <-Z2Qc_inj_0. by apply Z2Qc_inj_le. }
  rewrite rnd_int in Hlo, Hhi by done.
  destruct (rnd (Qc_of_Z 255 * a)%Qc) as [q| | |]; try done.
  exists q. simpl in Hlo, Hhi. apply bool_decide_eq_true in Hlo, Hhi.
  done.
Qed.

(** C10: the overlay turns a heatmap value [h] into the byte
    [uint8(255 * h)] without checking [h].  The byte lies in 0..255
    for every [h], so the lookup in the 256 rows of the colour table
    never fails; for [h] in [0, 1] the byte is [255 * h] truncated, and
    for any [h] whose product fits an [int] it is that truncation
    modulo 256. *)
Theorem heatmap_colour_index_is_total (heatmap : tensor2) :
  length jet_colors = 256%nat →
  rnd_monotone → rnd_exact_on_integers →
  let intensity := λ h, np_uint8 (fmul (fl_of_Z 255) h) in
  take_rows jet_colors (map2 intensity heatmap)
    = Ok (map2 (λ h, jet_colors !!! Z.to_nat (intensity h)) heatmap) ∧
  (∀ h, 0 ≤ intensity h ≤ 255) ∧
  (∀ h, in_unit_interval h →
     ∃ q, fmul (fl_of_Z 255) h = Fin q ∧ intensity h = Qc_trunc q) ∧
  (∀ h q, fmul (fl_of_Z 255) h = Fin q →
     intensity h = Qc_trunc q `mod` 256).
Proof.
  intros Hjet rnd_mono rnd_int intensity. repeat split.
  - rewrite take_rows_total; [|done|].
    + f_equal. unfold map2. rewrite <-list_fmap_compose.
      apply list_fmap_ext. intros _ row _. simpl.
      by rewrite <-list_fmap_compose.
    + unfold map2. apply Forall_fmap, Forall_forall. intros row _.
      apply Forall_fmap, Forall_forall. intros h _. apply np_uint8_range.
  - apply np_uint8_range.
  - apply np_uint8_range.
  - intros h Hh.
    destruct (scaled_unit_interval rnd_mono rnd_int h Hh)
      as (q & Hq & Hlo & Hhi).
    exists q. split; [done|]. unfold intensity, np_uint8. rewrite Hq.
    pose proof (Qc_trunc_nonneg_bounds q 255 Hlo Hhi) as Hq'. simpl.
    apply Z.mod_small. lia.
  - intros h q Hq. unfold intensity, np_uint8. by rewrite Hq.
Qed.
End Colour_index.

(** ** Shapes *)

Lemma has_shape2_fmap {A B} (f : A → B) (x : list (list A)) (h w : nat) :
  has_shape2 x h w → has_shape2 (map2 f x) h w.
Proof.
  intros [Hh Hrows]. split; unfold map2.
  - by rewrite length_fmap.
  - apply Forall_fmap. eapply Forall_impl; [done|]. intros row Hrow.
    simpl. by rewrite length_fmap.
Qed.

Lemma has_shape3_fmap {A B} (f : A → B) (x : list (list (list A)))
    (h w c : nat) :
  has_shape3 x h w c → has_shape3 (map3 f x) h w c.
Proof.
  intros [Hh Hrows]. split; unfold map3.
  - by rewrite length_fmap.
  - apply Forall_fmap. eapply Forall_impl; [done|]. intros row Hrow.
    by apply has_shape2_fmap.
Qed.

Lemma has_shape2_dim1 {A} (x : list (list A)) (h w : nat) :
  has_shape2 x h w → (0 < h)%nat → dim1 x = w.
Proof.
  intros [Hh Hrows] ?. destruct x as [|row x]; [simpl in *; lia|].
  by apply Forall_cons in Hrows as [? _].
Qed.

Lemma has_shape3_dims {A} (x : list (list (list A))) (h w c : nat) :
  has_shape3 x h w c → (0 < h)%nat → (0 < w)%nat →
  length x = h ∧ dim1 x = w ∧ dim2 x = c.
Proof.
  intros [Hh Hrows] ? ?. destruct x as [|row x]; [simpl in *; lia|].
  apply Forall_cons in Hrows as [Hrow _]. repeat split; [done|apply Hrow|].
  simpl. by eapply has_shape2_dim1.
Qed.

Lemma has_shape3_flat_nonempty {A} (x : list (list (list A))) (h w c : nat) :
  has_shape3 x h w c → (0 < h)%nat → (0 < w)%nat → (0 < c)%nat →
  flat3 x ≠ [].
Proof.
  intros [Hh Hrows] ? ? ?. destruct x as [|row x]; [simpl in *; lia|].
  apply Forall_cons in Hrows as [[Hw Hrow] _].
  destruct row as [|p row]; [simpl in *; lia|].
  apply Forall_cons in Hrow as [Hp _].
  destruct p as [|v p]; [simpl in *; lia|]. done.
Qed.

(** ** The steps of Grad-CAM, in exact arithmetic *)

Lemma fmap_seq_lookup_total {A B} `{Inhabited A} (f : A → B) (l : list A)
    (n : nat) :
  length l = n → (λ i, f (l !!! i)) <$> seq 0 n = f <$> l.
Proof.
  intros <-. apply list_eq. intros i. rewrite !list_lookup_fmap.
  destruct (l !! i) as [x|] eqn:Hi.
  - rewrite lookup_seq_lt by (by eapply lookup_lt_Some). simpl.
    by rewrite (list_lookup_total_correct _ _ _ Hi).
  - by rewrite lookup_seq_ge by (by apply lookup_ge_None).
Qed.

Lemma flat2_map3 {A B} (f : A → B) (x : list (list (list A))) :
  flat2 (map3 f x) = (λ p : list A, f <$> p) <$> flat2 x.
Proof.
  unfold flat2, map3. induction x as [|m x IH]; [done|].
  rewrite fmap_cons. cbn [concat]. rewrite fmap_app. by f_equal.
Qed.

Lemma fmap_flat2 {A B} (f : A → B) (x : list (list A)) :
  f <$> flat2 x = flat2 ((λ row : list A, f <$> row) <$> x).
Proof.
  unfold flat2. induction x as [|row x IH]; [done|].
  rewrite fmap_cons. cbn [concat]. rewrite fmap_app. by f_equal.
Qed.

Lemma length_flat2 {A} (x : list (list A)) (h w : nat) :
  has_shape2 x h w → length (flat2 x) = (h * w)%nat.
Proof.
  intros [<- Hrows]. unfold flat2.
  induction Hrows as [|row x Hrow _ IH]; [done|].
  simpl. rewrite length_app. lia.
Qed.

Lemma exact_sum_app (l k : list Qc) :
  exact_sum (l ++ k) = (exact_sum l + exact_sum k)%Qc.
Proof.
  unfold exact_sum. induction l as [|x l IH]; simpl.
  - rewrite Z2Qc_inj_0. ring.
  - rewrite IH. ring.
Qed.

Lemma exact_sum_flat2 (x : list (list Qc)) :
  exact_sum (flat2 x) = exact_sum (exact_sum <$> x).
Proof.
  unfold flat2. induction x as [|row x IH]; [done|].
  simpl. rewrite exact_sum_app, IH. done.
Qed.

Lemma zip_with_lookup_total (cell weights : list Qc) (c : nat) :
  length cell = c → length weights = c →
  zip_with Qcmult cell weights
  = (λ k, (cell !!! k * weights !!! k)%Qc) <$> seq 0 c.
Proof.
  intros Hcell Hweights. apply list_eq. intros i.
  rewrite lookup_zip_with, list_lookup_fmap.
  destruct (cell !! i) as [a|] eqn:Ha.
  - assert (i < c)%nat as Hi by (rewrite <-Hcell; by eapply lookup_lt_Some).
    destruct (lookup_lt_is_Some_2 weights i) as [b Hb]; [lia|].
    rewrite Hb, lookup_seq_lt by done. simpl.
    by rewrite (list_lookup_total_correct _ _ _ Ha),
      (list_lookup_total_correct _ _ _ Hb).
  - apply lookup_ge_None in Ha. by rewrite lookup_seq_ge by lia.
Qed.

Section Exact_steps.
Context `{Rounding}.
Hypothesis rnd_exact : exact_arithmetic.

Lemma fadd_exact (a b : Qc) : fadd (Fin a) (Fin b) = Fin (a + b)%Qc.
Proof. apply rnd_exact. Qed.
Lemma fmul_exact (a b : Qc) : fmul (Fin a) (Fin b) = Fin (a * b)%Qc.
Proof. apply rnd_exact. Qed.

Lemma reduce_sum_exact (terms : list Qc) :
  reduce_sum (Fin <$> terms) = Fin (exact_sum terms).
Proof.
  unfold reduce_sum, fzero.
  cut (∀ acc, foldl fadd (Fin acc) (Fin <$> terms)
              = Fin (acc + exact_sum terms)%Qc).
  { intros Hcut. rewrite Hcut. f_equal. rewrite Z2Qc_inj_0. ring. }
  unfold exact_sum. induction terms as [|x terms IH]; intros acc.
  - simpl. f_equal. rewrite Z2Qc_inj_0. ring.
  - cbn [fmap list_fmap foldl foldr]. rewrite fadd_exact, IH.
    f_equal. ring.
Qed.

Lemma reduce_mean_exact (terms : list Qc) :
  terms ≠ [] →
  reduce_mean (Fin <$> terms)
  = Fin (exact_sum terms / Qc_of_Z (Z.of_nat (length terms)))%Qc.
Proof.
  intros Hne. unfold reduce_mean.
  rewrite reduce_sum_exact, length_fmap. unfold fl_of_nat, fl_of_Z, fdiv.
  rewrite Qc_sign_pos; [apply rnd_exact|].
  apply (Z2Qc_inj_lt 0 (Z.of_nat (length terms))).
  destruct terms; [done|]. simpl. lia.
Qed.

(** The pooling of line 69 is the average over the two spatial axes. *)
Lemma pooled_gradient_exact (gradient : list (list (list Qc)))
    (h w c : nat) :
  has_shape3 gradient h w c → (0 < h)%nat → (0 < w)%nat →
  reduce_mean_012 [map3 Fin gradient]
  = Fin <$> ((λ k, spec_pooled_gradient gradient h w k) <$> seq 0 c).
Proof.
  intros Hshape Hh Hw.
  rewrite (reduce_mean_012_batch_of_one _ h w c);
    [|by apply has_shape3_fmap|done..].
  rewrite <-list_fmap_compose. apply list_fmap_ext.
  intros i k [-> Hk]%lookup_seq. simpl.
  destruct Hshape as [Hlen Hrows].
  assert (Forall (λ position : list Qc, length position = c)
            (flat2 gradient)) as Hpositions.
  { apply Forall_concat. eapply Forall_impl; [exact Hrows|].
    by intros row [_ ?]. }
  assert (length (flat2 gradient) = (h * w)%nat) as Hcount.
  { apply length_flat2. split; [done|].
    eapply Forall_impl; [exact Hrows|]. by intros row [? _]. }
  rewrite flat2_map3, <-list_fmap_compose.
  rewrite (Forall_fmap_ext_1 _
    (Fin ∘ (λ position : list Qc, position !!! i)) (flat2 gradient)).
  2: { eapply Forall_impl; [exact Hpositions|]. intros position Hp. simpl.
       apply list_lookup_total_fmap. simpl in Hp. lia. }
  rewrite list_fmap_compose, reduce_mean_exact.
  2: { intros Hnil. apply (f_equal length) in Hnil.
       rewrite length_fmap, Hcount in Hnil. simpl in Hnil. nia. }
  rewrite length_fmap, Hcount. f_equal. unfold spec_pooled_gradient.
  f_equal. rewrite fmap_flat2, exact_sum_flat2, <-list_fmap_compose.
  unfold entry.
  rewrite (fmap_seq_lookup_total
    (λ row : list (list Qc),
       exact_sum ((λ j, (row !!! j) !!! i) <$> seq 0 w)) gradient h Hlen).
  f_equal. apply Forall_fmap_ext_1.
  eapply Forall_impl; [exact Hrows|]. intros row [Hrow _]. simpl.
  f_equal. symmetry.
  apply (fmap_seq_lookup_total (λ position : list Qc, position !!! i)).
  done.
Qed.

(** The product of line 70, squeezed, is the dot product over the
    channel axis at every position. *)
Lemma weighted_sum_exact (activation_map : list (list (list Qc)))
    (weights : list Qc) (h w c : nat) :
  has_shape3 activation_map h w c → length weights = c → (0 < c)%nat →
  squeeze (matmul (map3 Fin activation_map) (newaxis (Fin <$> weights)))
  = map2 Fin (spec_weighted_sum activation_map weights h w c).
Proof.
  intros [Hlen Hrows] Hweights Hc.
  rewrite squeeze_matmul_newaxis.
  2: { destruct weights; [simpl in *; lia|done]. }
  unfold spec_weighted_sum, entry, map2, map3.
  rewrite (fmap_seq_lookup_total
    (λ row : list (list Qc),
       (λ j, exact_sum ((λ k, ((row !!! j) !!! k * weights !!! k)%Qc)
                          <$> seq 0 c)) <$> seq 0 w)
    activation_map h Hlen).
  rewrite <-!list_fmap_compose. apply Forall_fmap_ext_1.
  eapply Forall_impl; [exact Hrows|]. intros row [Hrow Hcells]. simpl.
  rewrite (fmap_seq_lookup_total
    (λ cell : list Qc,
       exact_sum ((λ k, (cell !!! k * weights !!! k)%Qc) <$> seq 0 c))
    row w Hrow).
  unfold map2. rewrite <-!list_fmap_compose. apply Forall_fmap_ext_1.
  eapply Forall_impl; [exact Hcells|]. intros cell Hcell. simpl.
  rewrite <-(zip_with_lookup_total cell weights c) by done.
  rewrite <-reduce_sum_exact. f_equal.
  rewrite zip_with_fmap_l, zip_with_fmap_r.
  clear Hcell Hweights. revert weights.
  induction cell as [|a cell IH]; intros [|b weights]; try done.
  cbn [zip_with]. rewrite fmap_cons. by rewrite fmul_exact, IH.
Qed.

(** C6: for a batch of one image and no target class, the explainer
    takes the index of the maximum entry of the probability vector and,
    up to the rounding of the floating-point operations, computes from
    the gradient of that class and the activation map the two formulas
    of Grad-CAM: one weight per channel, the average of the gradient
    over the two spatial axes, and at every position the dot product
    over the channel axis of the activations with the weights.  In
    arithmetic that rounds nothing the map before normalisation is
    exactly those sums, and the heatmap is that map normalised. *)
Theorem gradcam_follows_the_stated_steps (grad_model : grad_model_t)
    (img_array : tensor4) (activation_map gradient : list (list (list Qc)))
    (probability_vector : tensor1) (h w c : nat) :
  gm_call grad_model img_array
    = ([map3 Fin activation_map], [probability_vector]) →
  probability_vector ≠ [] →
  Forall (λ p, is_nan p = false) probability_vector →
  gm_gradient grad_model img_array (argmax probability_vector)
    = [map3 Fin gradient] →
  has_shape3 activation_map h w c → has_shape3 gradient h w c →
  (1 < h)%nat → (1 < w)%nat → (0 < c)%nat →
  let target := argmax probability_vector in
  let weights := (λ k, spec_pooled_gradient gradient h w k) <$> seq 0 c in
  (∃ p, probability_vector !! target = Some p ∧
        ∀ q, q ∈ probability_vector → fleb q p = true) ∧
  weighted_activation_map grad_model img_array None
    = Ok (map2 Fin (spec_weighted_sum activation_map weights h w c)) ∧
  make_gradcam_heatmap grad_model img_array None
    = Ok (normalize_heatmap
            (map2 Fin (spec_weighted_sum activation_map weights h w c))).
Proof.
  intros Hcall Hne Hnan Hgrad Hmap Hshape Hh Hw Hc target weights.
  split; [by apply argmax_spec|].
  assert (weighted_activation_map grad_model img_array None
    = Ok (map2 Fin (spec_weighted_sum activation_map weights h w c)))
    as Hraw.
  { unfold weighted_activation_map. rewrite Hcall. cbv zeta.
    rewrite tf_getitem_singleton. simpl.
    unfold tf_getitem_col. simpl.
    rewrite slice_index_in_range by (by apply argmax_lt_length). simpl.
    rewrite Hgrad. rewrite (pooled_gradient_exact _ h w c) by (done || lia).
    rewrite (weighted_sum_exact _ _ h w c); [done|done| |done].
    unfold weights. by rewrite length_fmap, length_seq. }
  split; [done|]. unfold make_gradcam_heatmap. by rewrite Hraw.
Qed.
End Exact_steps.

Lemma img_to_array_shape (img : pil_image) :
  has_shape3 (img_to_array img) (height img) (width img) 3.
Proof.
  unfold img_to_array. split; [by rewrite length_fmap, length_seq|].
  apply Forall_fmap, Forall_forall. intros y _. simpl.
  split; [by rewrite length_fmap, length_seq|].
  apply Forall_fmap, Forall_forall. by intros x _.
Qed.

Lemma img_to_array_finite (img : pil_image) :
  Forall (Forall (Forall (λ v, ∃ z, v = fl_of_Z z))) (img_to_array img).
Proof.
  unfold img_to_array. apply Forall_fmap, Forall_forall. intros y _.
  apply Forall_fmap, Forall_forall. intros x _. simpl.
  repeat constructor; eauto.
Qed.

Lemma fromarray_size (x : list (list (list Z))) (h w c : nat) :
  has_shape3 x h w c → (0 < h)%nat → pil_size (fromarray x) = (w, h).
Proof.
  intros [Hh Hrows] ?. unfold pil_size, fromarray. simpl. f_equal; [|done].
  destruct x as [|row x]; [simpl in *; lia|].
  apply Forall_cons in Hrows as [Hrow _]. apply Hrow.
Qed.

Section Image_conversion.
Context `{Rounding, Libraries}.

(** On a non-empty array of three channels [array_to_img] returns an
    image of the size of the array. *)
Lemma array_to_img_ok (x : tensor3) (h w : nat) :
  has_shape3 x h w 3 → (0 < h)%nat → (0 < w)%nat →
  ∃ img, array_to_img x = Ok img ∧ pil_size img = (w, h).
Proof.
  intros Hshape Hh Hw. unfold array_to_img.
  assert (flat3 x ≠ []) as Hne
    by (eapply has_shape3_flat_nonempty; eauto; lia).
  destruct (flat3 x) as [|v vs] eqn:Hflat; [done|].
  simpl. set (x1 := map3 _ x).
  assert (has_shape3 x1 h w 3) as Hshape1 by (by apply has_shape3_fmap).
  assert (flat3 x1 ≠ []) as Hne1
    by (eapply has_shape3_flat_nonempty; eauto; lia).
  destruct (flat3 x1) as [|v1 vs1] eqn:Hflat1; [done|].
  simpl. set (x2 := if negb _ then _ else _).
  assert (has_shape3 x2 h w 3) as Hshape2.
  { unfold x2. case_match; [by apply has_shape3_fmap|done]. }
  set (x3 := map3 _ x2).
  assert (has_shape3 x3 h w 3) as Hshape3 by (by apply has_shape3_fmap).
  destruct (has_shape3_dims x3 h w 3) as (_ & _ & Hc); [done..|].
  rewrite decide_True by done. eexists. split; [done|].
  eapply fromarray_size; [|done]. by apply has_shape3_fmap.
Qed.
End Image_conversion.

Lemma bind_Ok_inv {A B} (m : result A) (k : A → result B) (b : B) :
  (m ≫= k) = Ok b → ∃ a, m = Ok a ∧ k a = Ok b.
Proof. destruct m as [a|e]; [by exists a|done]. Qed.

(** ** The overlay *)

Section Overlay.
Context `{Rounding, Libraries}.

Lemma np_add_same_shape (a b : tensor3) (h w c : nat) :
  has_shape3 a h w c → has_shape3 b h w c → (0 < h)%nat → (0 < w)%nat →
  np_add a b = Ok (zip_with (zip_with (zip_with fadd)) a b).
Proof.
  intros Ha Hb ? ?. unfold np_add.
  destruct (has_shape3_dims a h w c) as (_ & _ & ->); [done..|].
  destruct (has_shape3_dims b h w c) as (_ & _ & ->); [done..|].
  by rewrite decide_True.
Qed.

Lemma zip_with_shape1 {A B C} (f : A → B → C) (a : list A) (b : list B)
    (n : nat) :
  length a = n → length b = n → length (zip_with f a b) = n.
Proof. intros. rewrite length_zip_with. lia. Qed.

Lemma Forall_zip_with {A B C} (f : A → B → C) (P : A → Prop)
    (Q : B → Prop) (R : C → Prop) (a : list A) (b : list B) :
  (∀ x y, P x → Q y → R (f x y)) →
  Forall P a → Forall Q b → Forall R (zip_with f a b).
Proof.
  intros Hf Ha. revert b. induction Ha as [|x a Hx Ha IH];
    intros [|y b] Hb; simpl; try constructor.
  - apply Hf; [done|]. by inversion Hb.
  - apply IH. by inversion Hb.
Qed.

Lemma zip_with_shape3 {A B C} (f : A → B → C)
    (a : list (list (list A))) (b : list (list (list B))) (h w c : nat) :
  has_shape3 a h w c → has_shape3 b h w c →
  has_shape3 (zip_with (zip_with (zip_with f)) a b) h w c.
Proof.
  intros [Hah Ha] [Hbh Hb]. split; [by apply zip_with_shape1|].
  eapply Forall_zip_with; [|done..].
  intros ra rb [Hraw Hra] [Hrbw Hrb]. split; [by apply zip_with_shape1|].
  eapply Forall_zip_with; [|done..].
  intros pa pb Hpa Hpb. simpl in *. by apply zip_with_shape1.
Qed.

Lemma take_rows_shape (table : list tensor1) (index : list (list Z))
    (h w : nat) :
  length table = 256%nat → Forall (λ c : tensor1, length c = 3%nat) table →
  Forall (Forall (λ i, 0 ≤ i ≤ 255)) index →
  has_shape2 index h w →
  has_shape3 (map2 (λ i, table !!! Z.to_nat i) index) h w 3.
Proof.
  intros Hlen Hrows Hidx [Hh Hw]. unfold map2.
  split; [by rewrite length_fmap|].
  apply Forall_fmap. rewrite Forall_forall in Hidx, Hw.
  apply Forall_forall. intros row Hrow. simpl.
  split; [rewrite length_fmap; by apply Hw|].
  apply Forall_fmap. specialize (Hidx row Hrow).
  eapply Forall_impl; [done|]. intros i Hi. simpl in *.
  rewrite Forall_forall in Hrows. apply Hrows.
  apply list_elem_of_lookup_total_2. lia.
Qed.

(** The coloured heatmap is produced for every non-empty heatmap and has
    the height and width of [img]. *)
Lemma resized_jet_heatmap_ok (img : tensor3) (heatmap : tensor2)
    (h' w' : nat) :
  jet_table_ok →
  has_shape2 heatmap h' w' → (0 < h')%nat → (0 < w')%nat →
  ∃ jet_heatmap,
    resized_jet_heatmap img heatmap = Ok jet_heatmap ∧
    has_shape3 jet_heatmap (length img) (dim1 img) 3 ∧
    Forall (Forall (Forall (λ v, ∃ z, v = fl_of_Z z))) jet_heatmap.
Proof.
  intros [Hlen Hrows] Hshape Hh Hw. unfold resized_jet_heatmap.
  set (index := map2 _ heatmap).
  assert (Forall (Forall (λ i, 0 ≤ i ≤ 255)) index) as Hidx.
  { unfold index, map2. apply Forall_fmap, Forall_forall. intros row _.
    apply Forall_fmap, Forall_forall. intros v _. apply np_uint8_range. }
  rewrite take_rows_total by done. simpl.
  destruct (array_to_img_ok (map2 (λ i, jet_colors !!! Z.to_nat i) index)
    h' w') as (jet_img & -> & Hsize); [|done..|].
  { apply take_rows_shape; try done. by apply has_shape2_fmap. }
  simpl. eexists. split; [done|]. split.
  - apply img_to_array_shape.
  - apply img_to_array_finite.
Qed.
End Overlay.

Lemma zip_with_right_id {A B} (f : A → B → B) (P : A → Prop) (Q : B → Prop)
    (a : list A) (b : list B) :
  (∀ x y, P x → Q y → f x y = y) →
  length a = length b → Forall P a → Forall Q b → zip_with f a b = b.
Proof.
  intros Hf Hlen Ha. revert b Hlen.
  induction Ha as [|x a Hx Ha IH]; intros [|y b] Hlen Hb; try done.
  simpl in *. inversion Hb; subst. f_equal; [by apply Hf|].
  apply IH; [lia|done].
Qed.

Lemma shape_and_entries {A} (P : A → Prop) (x : list (list (list A)))
    (h w c : nat) :
  has_shape3 x h w c → Forall (Forall (Forall P)) x →
  Forall (λ row, length row = w ∧
            Forall (λ p, length p = c ∧ Forall P p) row) x.
Proof.
  intros [_ Hshape] Hx. rewrite Forall_forall in *. intros row Hrow.
  destruct (Hshape row Hrow) as [Hw Hc]. split; [done|].
  specialize (Hx row Hrow). rewrite Forall_forall in *. intros p Hp.
  split; [by apply Hc|by apply Hx].
Qed.

Lemma zip_with3_fmap_l {A A' B C} (g : A → A') (f : A' → B → C)
    (a : list (list (list A))) (b : list (list (list B))) :
  zip_with (zip_with (zip_with f)) (map3 g a) b
  = zip_with (zip_with (zip_with (λ x y, f (g x) y))) a b.
Proof.
  unfold map3, map2. rewrite zip_with_fmap_l.
  apply zip_with_ext; [|done..]. intros ra rb.
  rewrite zip_with_fmap_l. apply zip_with_ext; [|done..]. intros pa pb.
  by rewrite zip_with_fmap_l.
Qed.

Section Overlay_blend.
Context `{Rounding, Libraries}.

Lemma blend_alpha_zero (rnd_int : rnd_exact_on_integers) (j x : fl) :
  (∃ z, j = fl_of_Z z) → float_value x → fadd (fmul j fzero) x = x.
Proof.
  intros [z ->] Hx. unfold fl_of_Z, fzero. simpl.
  rewrite Z2Qc_inj_0, Qcmult_0_r, <-Z2Qc_inj_0.
  rewrite (rnd_int 0) by done. unfold fl_of_Z. simpl.
  destruct x as [q| | |]; try done. simpl in Hx.
  by rewrite Z2Qc_inj_0, Qcplus_0_l.
Qed.

Lemma overlay_size (img : tensor3) (heatmap : tensor2) (alpha : fl)
    (out : pil_image) (h w : nat) :
  has_shape3 img h w 3 → (0 < h)%nat → (0 < w)%nat →
  overlay_heatmap_on_image img heatmap alpha = Ok out →
  pil_size out = (w, h).
Proof.
  intros Hshape Hh Hw Hout. unfold overlay_heatmap_on_image in Hout.
  destruct (has_shape3_dims img h w 3) as (Hlen & Hdim1 & _); [done..|].
  apply bind_Ok_inv in Hout as (jet & Hjet & Hout).
  unfold resized_jet_heatmap in Hjet.
  apply bind_Ok_inv in Hjet as (rows & _ & Hjet).
  apply bind_Ok_inv in Hjet as (jet_img & _ & Hjet).
  injection Hjet as <-. rewrite Hlen, Hdim1 in Hout.
  apply bind_Ok_inv in Hout as (sup & Hsup & Hout).
  set (jet := map3 _ _) in Hsup.
  assert (has_shape3 jet h w 3) as Hjet.
  { apply has_shape3_fmap. apply (img_to_array_shape (resize (w, h) _ _)). }
  rewrite (np_add_same_shape jet img h w 3) in Hsup by done.
  injection Hsup as <-.
  destruct (array_to_img_ok
    (zip_with (zip_with (zip_with fadd)) jet img) h w)
    as (out' & Hout' & Hsize); [by apply zip_with_shape3|done..|].
  congruence.
Qed.

(** C7, as the code has it: the blend is the coloured heatmap times
    [alpha] plus the image, entry by entry, and the result of the
    overlay is [array_to_img] of the blend.  With [alpha = 0] the blend
    is the image itself, so the overlay is [array_to_img] of the image:
    the image with its values shifted and scaled to the range 0..255,
    not a copy of it. *)
Theorem overlay_blends_then_rescales (img : tensor3) (heatmap : tensor2)
    (h w h' w' : nat) :
  rnd_exact_on_integers → jet_table_ok →
  has_shape3 img h w 3 → (0 < h)%nat → (0 < w)%nat →
  Forall (Forall (Forall float_value)) img →
  has_shape2 heatmap h' w' → (0 < h')%nat → (0 < w')%nat →
  ∃ jet_heatmap,
    resized_jet_heatmap img heatmap = Ok jet_heatmap ∧
    has_shape3 jet_heatmap h w 3 ∧
    (∀ alpha,
       overlay_heatmap_on_image img heatmap alpha
       = array_to_img
           (zip_with (zip_with (zip_with
              (λ colour pixel, fadd (fmul colour alpha) pixel)))
              jet_heatmap img)) ∧
    overlay_heatmap_on_image img heatmap fzero = array_to_img img.
Proof.
  intros rnd_int Hjet Himg Hh Hw Hvalues Hheat Hh' Hw'.
  destruct (has_shape3_dims img h w 3) as (Hlen & Hdim1 & _); [done..|].
  destruct (resized_jet_heatmap_ok img heatmap h' w')
    as (jet & Hjet_ok & Hshape & Hfin); [done..|].
  rewrite Hlen, Hdim1 in Hshape.
  assert (∀ alpha,
    overlay_heatmap_on_image img heatmap alpha
    = array_to_img
        (zip_with (zip_with (zip_with
           (λ colour pixel, fadd (fmul colour alpha) pixel))) jet img))
    as Hblend.
  { intros alpha. unfold overlay_heatmap_on_image. rewrite Hjet_ok. simpl.
    rewrite (np_add_same_shape _ img h w 3);
      [|by apply has_shape3_fmap|done..].
    simpl. by rewrite zip_with3_fmap_l. }
  exists jet. repeat split; try done; try apply Hshape.
  rewrite Hblend. f_equal.
  pose proof (shape_and_entries _ jet h w 3 Hshape Hfin) as Hj.
  pose proof (shape_and_entries _ img h w 3 Himg Hvalues) as Hi.
  destruct Hshape as [Hjh _]. destruct Himg as [Hih _].
  eapply zip_with_right_id; [|congruence|exact Hj|exact Hi].
  intros rj ri [Hrj Hrj'] [Hri Hri']. simpl in *.
  eapply zip_with_right_id; [|congruence|exact Hrj'|exact Hri'].
  intros pj pi [Hpj Hpj'] [Hpi Hpi']. simpl in *.
  eapply zip_with_right_id; [|congruence|exact Hpj'|exact Hpi'].
  intros colour pixel Hc Hp. by apply blend_alpha_zero.
Qed.
End Overlay_blend.

(** ** Preprocessing *)

Lemma nearest_source_lt (n_src n_dst i : nat) :
  (i < n_dst)%nat → (0 < n_src)%nat →
  (nearest_source n_src n_dst i < n_src)%nat.
Proof.
  intros Hi Hn. unfold nearest_source.
  apply Nat.Div0.div_lt_upper_bound. nia.
Qed.

Section Preprocessing.
Context `{Rounding, Libraries}.

Lemma network_input_shape (img : pil_image) :
  pil_size img = (224%nat, 224%nat) →
  has_shape4 (preprocess_input (expand_dims (img_to_array img)))
    1 224 224 3.
Proof.
  intros Hsize. injection Hsize as Hw Hh.
  split; [done|]. apply Forall_cons. split; [|by apply Forall_nil].
  apply has_shape3_fmap.
  pose proof (img_to_array_shape img) as Hs. by rewrite Hw, Hh in Hs.
Qed.

Lemma load_and_preprocess_ok (uploaded_file : bytes) (src : pil_image) :
  pil_open uploaded_file = Some src →
  ∃ img,
    load_and_preprocess uploaded_file
    = Ok (img, preprocess_input (expand_dims (img_to_array img))) ∧
    pil_size img = (224%nat, 224%nat).
Proof.
  intros Hopen. unfold load_and_preprocess, load_img. rewrite Hopen.
  cbn [of_option mbind mret result_bind result_ret].
  case_decide as Hsize; cbn [mbind mret result_bind result_ret];
    eexists; (split; [reflexivity|done]).
Qed.

Lemma pipeline_overlay_size
    (model_predict : tensor4 → tensor2) (grad_model : grad_model_t)
    (uploaded_file : bytes) (page : page) :
  pipeline model_predict grad_model uploaded_file = Ok page →
  pil_size (page_heatmap_overlay page) = (224%nat, 224%nat).
Proof.
  unfold pipeline. intros Hpage.
  apply bind_Ok_inv in Hpage as ([img img_array] & Hload & Hpage).
  apply bind_Ok_inv in Hpage as (predictions & _ & Hpage).
  apply bind_Ok_inv in Hpage as (label & _ & Hpage).
  apply bind_Ok_inv in Hpage as (delta & _ & Hpage).
  apply bind_Ok_inv in Hpage as (heatmap & _ & Hpage).
  apply bind_Ok_inv in Hpage as (overlay & Hoverlay & Hpage).
  apply bind_Ok_inv in Hpage as (bar_list & _ & Hpage).
  injection Hpage as <-. simpl.
  unfold load_and_preprocess in Hload.
  apply bind_Ok_inv in Hload as (img' & Himg & Hload).
  injection Hload as -> _.
  assert (pil_size img = (224%nat, 224%nat)) as Hsize.
  { unfold load_img in Himg.
    apply bind_Ok_inv in Himg as (src & _ & Himg). simpl in Himg.
    case_decide; by injection Himg as <-. }
  injection Hsize as Hw Hh.
  eapply overlay_size; [| | |done]; try lia.
  pose proof (img_to_array_shape img) as Hs. by rewrite Hw, Hh in Hs.
Qed.
End Preprocessing.

(** ** The caller's objects are not modified *)

Section Frame.
Context `{Rounding, Libraries}.
Implicit Types caller : store.

Lemma keeps_ret {A} caller (P : A → Prop) (a : A) : P a → keeps caller P (mret a).
Proof. intros Ha σ Hσ. split; [done|]. by intros ? [= <-]. Qed.

Lemma keeps_bind {A B} caller (Q : A → Prop) (P : B → Prop)
    (m : py A) (k : A → py B) :
  keeps caller Q m → (∀ a, Q a → keeps caller P (k a)) → keeps caller P (m ≫= k).
Proof.
  intros Hm Hk σ Hσ. destruct (Hm σ Hσ) as [Hσ' HQ].
  unfold mbind, py_bind. destruct (m σ) as [[a|e] σ']; simpl in *.
  - by apply (Hk a (HQ a eq_refl)).
  - done.
Qed.

Lemma keeps_weaken {A} caller (P Q : A → Prop) (m : py A) :
  keeps caller P m → (∀ a, P a → Q a) → keeps caller Q m.
Proof. intros Hm HPQ σ Hσ. destruct (Hm σ Hσ). naive_solver. Qed.

Lemma keeps_lift {A} caller (r : result A) : keeps caller (λ _, True) (lift r).
Proof. by intros σ Hσ. Qed.

Lemma keeps_raise {A} caller (P : A → Prop) (e : exn) :
  keeps caller P (lift (Raise e)).
Proof. by intros σ Hσ. Qed.

Lemma keeps_get_file caller r : keeps caller (λ _, True) (get_file r).
Proof. by intros σ Hσ. Qed.
Lemma keeps_get_image caller r : keeps caller (λ _, True) (get_image r).
Proof. by intros σ Hσ. Qed.
Lemma keeps_get_array caller r : keeps caller (λ _, True) (get_array r).
Proof. by intros σ Hσ. Qed.

(** A new object is none of the caller's. *)
Lemma keeps_alloc caller (o : object) :
  keeps caller (λ r, caller !! r = None) (alloc o).
Proof.
  intros σ Hσ. unfold alloc. simpl.
  assert (σ !! fresh (dom σ) = None) as Hfresh.
  { apply not_elem_of_dom, is_fresh. }
  assert (caller !! fresh (dom σ) = None) as Hfresh0.
  { destruct (caller !! fresh (dom σ)) as [o'|] eqn:Ho; [|done].
    eapply lookup_weaken in Ho; [|done]. congruence. }
  split; [|by intros ? [= <-]].
  etrans; [done|]. by apply insert_subseteq.
Qed.

(** An update in place of an object that is not the caller's. *)
Lemma keeps_update caller (r : ref) (o : object) :
  caller !! r = None → keeps caller (λ _, True) (update r o).
Proof.
  intros Hr σ Hσ. unfold update. simpl. split; [|done].
  by apply insert_subseteq_r.
Qed.
End Frame.

Ltac keeps_rule :=
  first
    [ apply keeps_alloc
    | apply keeps_get_file
    | apply keeps_get_image
    | apply keeps_get_array
    | apply keeps_lift
    | apply keeps_update; assumption
    | apply keeps_ret; first [assumption | exact I] ].

Ltac keeps_steps :=
  repeat first
    [ keeps_rule
    | lazymatch goal with
      | |- keeps _ _ (_ ≫= _) =>
          eapply keeps_bind; [solve [keeps_rule]|intros ? ?]
      end ].

Section Frame_pipeline.
Context `{Rounding, Libraries}.
Implicit Types caller : store.

Lemma keeps_load_img caller path target_size :
  keeps caller (λ r, caller !! r = None) (load_img_py path target_size).
Proof. unfold load_img_py. keeps_steps. Qed.

Lemma keeps_img_to_array caller img :
  keeps caller (λ r, caller !! r = None) (img_to_array_py img).
Proof. unfold img_to_array_py. keeps_steps. Qed.

(** The update in place is harmless because the updated array is not
    the caller's. *)
Lemma keeps_preprocess_input caller x :
  caller !! x = None →
  keeps caller (λ r, caller !! r = None) (preprocess_input_py x).
Proof. intros Hx. unfold preprocess_input_py. keeps_steps. Qed.

Lemma keeps_get_batch caller x : keeps caller (λ _, True) (get_batch x).
Proof. unfold get_batch. keeps_steps. Qed.

(** [array_to_img] updates only the array it has made itself. *)
Lemma keeps_array_to_img caller x :
  keeps caller (λ r, caller !! r = None) (array_to_img_py x).
Proof.
  unfold array_to_img_py. keeps_steps.
  eapply keeps_bind.
  { case_match; [keeps_rule|by apply keeps_ret]. }
  intros _ _. keeps_steps. case_decide; [keeps_rule|apply keeps_raise].
Qed.

Lemma keeps_overlay caller img heatmap alpha :
  keeps caller (λ r, caller !! r = None)
    (overlay_heatmap_on_image_py img heatmap alpha).
Proof.
  unfold overlay_heatmap_on_image_py. keeps_steps.
  eapply keeps_bind; [apply keeps_array_to_img|intros ? ?]. keeps_steps.
  eapply keeps_bind; [apply keeps_img_to_array|intros ? ?]. keeps_steps.
  apply keeps_array_to_img.
Qed.

Lemma keeps_run_pipeline caller model_predict grad_model uploaded_file :
  keeps caller (λ _, True)
    (run_pipeline model_predict grad_model uploaded_file).
Proof.
  unfold run_pipeline, expand_dims_py.
  eapply keeps_bind; [apply keeps_load_img|intros img Himg].
  eapply keeps_bind; [apply keeps_img_to_array|intros a Ha].
  eapply keeps_bind; [by apply keeps_ret|intros a' Ha'].
  eapply keeps_bind; [by apply keeps_preprocess_input|intros x Hx].
  eapply keeps_bind; [apply keeps_get_batch|intros batch _].
  keeps_steps.
  eapply keeps_bind; [apply keeps_img_to_array|intros original _].
  eapply keeps_bind; [apply keeps_overlay|intros overlay _].
  keeps_steps.
Qed.

(** C9: every object the caller holds before a run of the pipeline, the
    uploaded image among them, is in the store unchanged after the
    run, whether the run returns or raises: the pipeline updates in
    place only arrays it has created itself. *)
Theorem pipeline_keeps_the_callers_objects
    (model_predict : tensor4 → tensor2) (grad_model : grad_model_t)
    (uploaded_file : ref) (σ : store) (r : ref) (o : object) :
  σ !! r = Some o →
  (run_pipeline model_predict grad_model uploaded_file σ).2 !! r = Some o.
Proof.
  intros Hr.
  destruct (keeps_run_pipeline σ model_predict grad_model uploaded_file σ)
    as [Hkeep _]; [done|].
  by eapply lookup_weaken.
Qed.

(** The update in place is real: after [preprocess_input] the array its
    argument names holds the scaled values. *)
Lemma preprocess_input_updates_its_argument (σ : store) (x : ref)
    (data : tensor3) :
  σ !! x = Some (NdArray data) →
  preprocess_input_py x σ
  = (Ok x, <[x := NdArray (map3 preprocess_value data)]> σ).
Proof.
  intros Hx. unfold preprocess_input_py, mbind, py_bind, get_array.
  by rewrite Hx.
Qed.
End Frame_pipeline.

(** ** The pipeline over the store computes what the pipeline of values
    computes *)

Lemma py_bind_ret {A B} (a : A) (k : A → py B) (σ : store) :
  (mret a ≫= k) σ = k a σ.
Proof. done. Qed.
Lemma py_bind_lift_ok {A B} (a : A) (k : A → py B) (σ : store) :
  (lift (Ok a) ≫= k) σ = k a σ.
Proof. done. Qed.
Lemma py_bind_lift_raise {A B} (e : exn) (k : A → py B) (σ : store) :
  (lift (Raise e) ≫= k) σ = (Raise e, σ).
Proof. done. Qed.
Lemma py_bind_alloc {B} (o : object) (k : ref → py B) (σ : store) :
  (alloc o ≫= k) σ = k (fresh (dom σ)) (<[fresh (dom σ) := o]> σ).
Proof. done. Qed.
Lemma py_bind_update {B} (l : ref) (o : object) (k : unit → py B)
    (σ : store) :
  (update l o ≫= k) σ = k () (<[l := o]> σ).
Proof. done. Qed.
Lemma py_bind_get_file {B} (l : ref) (b : bytes) (k : bytes → py B)
    (σ : store) :
  σ !! l = Some (UploadedFile b) → (get_file l ≫= k) σ = k b σ.
Proof. intros Hl. unfold mbind, py_bind, get_file. by rewrite Hl. Qed.
Lemma py_bind_get_image {B} (l : ref) (i : pil_image)
    (k : pil_image → py B) (σ : store) :
  σ !! l = Some (PilImage i) → (get_image l ≫= k) σ = k i σ.
Proof. intros Hl. unfold mbind, py_bind, get_image. by rewrite Hl. Qed.
Lemma py_bind_get_array {B} (l : ref) (d : tensor3) (k : tensor3 → py B)
    (σ : store) :
  σ !! l = Some (NdArray d) → (get_array l ≫= k) σ = k d σ.
Proof. intros Hl. unfold mbind, py_bind, get_array. by rewrite Hl. Qed.
Lemma py_bind_run {A B} (m : py A) (k : A → py B) (σ : store) :
  (m ≫= k) σ = match m σ with
               | (Ok a, σ') => k a σ'
               | (Raise e, σ') => (Raise e, σ')
               end.
Proof. done. Qed.

Section Store_refinement.
Context `{Rounding, Libraries}.

Lemma extends_run {A} (P : A → Prop) (m : py A) (σ : store) :
  keeps σ P m → σ ⊆ (m σ).2.
Proof. intros Hm. by destruct (Hm σ). Qed.

Lemma img_to_array_py_yields (σ : store) (img : ref) (i : pil_image) :
  σ !! img = Some (PilImage i) →
  yields (img_to_array_py img σ) (Ok (NdArray (img_to_array i))).
Proof.
  intros Himg. unfold yields, img_to_array_py.
  rewrite (py_bind_get_image img i) by done. unfold alloc. simpl.
  eexists. split; [done|]. apply lookup_insert_eq.
Qed.

Lemma array_to_img_py_yields (σ : store) (x : ref) (data : tensor3) :
  σ !! x = Some (NdArray data) →
  yields (array_to_img_py x σ) (PilImage <$> array_to_img data).
Proof.
  intros Hx. unfold yields, array_to_img_py, array_to_img.
  rewrite (py_bind_get_array x data) by done.
  destruct (np_min (flat3 data)) as [x_min|e];
    [rewrite py_bind_lift_ok|by rewrite py_bind_lift_raise].
  cbn [mbind result_bind]. rewrite py_bind_alloc.
  set (l := fresh (dom σ)). set (x1 := map3 (λ v, fsub v x_min) data).
  rewrite (py_bind_get_array l x1) by apply lookup_insert_eq.
  destruct (np_max (flat3 x1)) as [x_max|e];
    [rewrite py_bind_lift_ok|by rewrite py_bind_lift_raise].
  cbn [mbind result_bind].
  set (x2 := if negb (feqb x_max fzero)
             then map3 (λ v, fdiv v x_max) x1 else x1).
  rewrite py_bind_run.
  assert (∃ σ2, (if negb (feqb x_max fzero)
                 then update l (NdArray (map3 (λ v, fdiv v x_max) x1))
                 else mret ()) (<[l := NdArray x1]> σ) = (Ok (), σ2) ∧
                σ2 !! l = Some (NdArray x2)) as (σ2 & -> & Hσ2).
  { unfold x2. destruct (negb (feqb x_max fzero)).
    - eexists. split; [done|]. apply lookup_insert_eq.
    - eexists. split; [done|]. apply lookup_insert_eq. }
  rewrite (py_bind_get_array l x2) by done. rewrite py_bind_update.
  rewrite (py_bind_get_array l (map3 (λ v, fmul v (fl_of_Z 255)) x2))
    by apply lookup_insert_eq.
  case_decide; cbn [fmap result_fmap lift fst snd]; [|done].
  unfold alloc. simpl. eexists. split; [done|]. apply lookup_insert_eq.
Qed.

Lemma py_bind_yields_ok (m : py ref) (σ : store) (o : object) :
  yields (m σ) (Ok o) →
  ∃ l, (m σ).2 !! l = Some o ∧
       ∀ B (k : ref → py B), (m ≫= k) σ = k l (m σ).2.
Proof.
  intros (l & Hl & Ho). exists l. split; [done|]. intros B k.
  rewrite py_bind_run. destruct (m σ) as [[l'|e] σ']; simpl in *; [|done].
  by injection Hl as ->.
Qed.

Lemma py_bind_yields_raise (m : py ref) (σ : store) (e : exn) :
  yields (m σ) (Raise e) →
  ∀ B (k : ref → py B), ((m ≫= k) σ).1 = Raise e.
Proof.
  intros He B k. rewrite py_bind_run. simpl in He.
  destruct (m σ) as [[l'|e'] σ']; simpl in *; congruence.
Qed.

Lemma overlay_heatmap_on_image_py_yields (σ : store) (img : ref)
    (data : tensor3) (heatmap : tensor2) (alpha : fl) :
  σ !! img = Some (NdArray data) →
  yields (overlay_heatmap_on_image_py img heatmap alpha σ)
    (PilImage <$> overlay_heatmap_on_image data heatmap alpha).
Proof.
  intros Himg.
  unfold overlay_heatmap_on_image_py, overlay_heatmap_on_image,
    resized_jet_heatmap.
  destruct (take_rows jet_colors _) as [rows|e];
    [rewrite py_bind_lift_ok|by rewrite py_bind_lift_raise].
  cbn [mbind result_bind]. rewrite py_bind_alloc.
  set (j := fresh (dom σ)). set (σ1 := <[j := NdArray rows]> σ).
  assert (σ ⊆ σ1) as Hσ1.
  { apply insert_subseteq, not_elem_of_dom, is_fresh. }
  pose proof (array_to_img_py_yields σ1 j rows (lookup_insert_eq _ _ _))
    as Hjet.
  pose proof (extends_run _ _ σ1 (keeps_array_to_img σ1 j)) as Hσ2.
  destruct (array_to_img rows) as [jet_image|e];
    cbn [fmap result_fmap mbind result_bind] in *.
  2: { by apply py_bind_yields_raise. }
  apply py_bind_yields_ok in Hjet as (l & Hl & ->).
  set (σ2 := (array_to_img_py j σ1).2) in *.
  rewrite (py_bind_get_image l jet_image) by done.
  rewrite (py_bind_get_array img data)
    by (eapply lookup_weaken; [|exact Hσ2]; by eapply lookup_weaken).
  rewrite py_bind_alloc.
  set (r := fresh (dom σ2)).
  set (resized := resize _ _ jet_image).
  set (σ3 := <[r := PilImage resized]> σ2).
  pose proof (img_to_array_py_yields σ3 r resized (lookup_insert_eq _ _ _))
    as Harr.
  apply py_bind_yields_ok in Harr as (l' & Hl' & ->).
  rewrite (py_bind_get_array l' (img_to_array resized)) by done.
  cbn [mbind mret result_bind result_ret].
  destruct (np_add _ data) as [superimposed|e];
    [rewrite py_bind_lift_ok|rewrite py_bind_lift_raise; by unfold yields].
  cbn [mbind result_bind].
  rewrite py_bind_alloc. apply array_to_img_py_yields.
  apply lookup_insert_eq.
Qed.

Lemma load_img_py_run (σ : store) (path : ref) (content : bytes)
    (target_size : option (nat * nat)) :
  σ !! path = Some (UploadedFile content) →
  load_img_py path target_size σ
  = match load_img content target_size with
    | Ok img => (Ok (fresh (dom σ)), <[fresh (dom σ) := PilImage img]> σ)
    | Raise e => (Raise e, σ)
    end.
Proof.
  intros Hpath. unfold load_img_py.
  rewrite (py_bind_get_file path content) by done.
  by destruct (load_img content target_size).
Qed.

(** X13: sharing and updates in place do not change what is shown.
    The pipeline over the store, in which [expand_dims] returns a view
    and [preprocess_input] overwrites the array it is given, ends as
    the pipeline of values does on the content of the uploaded file: it
    raises the same exception, or returns the same grade, confidence
    and bars with the same overlay held at the returned reference.  The
    overlay is drawn over the pixels of the image, not over the scaled
    array, because line 107 converts the image anew. *)
Theorem run_pipeline_agrees_with_pipeline
    (model_predict : tensor4 → tensor2) (grad_model : grad_model_t)
    (uploaded_file : ref) (content : bytes) (σ : store) :
  σ !! uploaded_file = Some (UploadedFile content) →
  match run_pipeline model_predict grad_model uploaded_file σ with
  | (Ok p, σ') =>
      ∃ overlay,
        σ' !! py_heatmap_overlay p = Some (PilImage overlay) ∧
        pipeline model_predict grad_model content
        = Ok {| page_predicted_class := py_predicted_class p;
                page_confidence := py_confidence p;
                page_heatmap_overlay := overlay;
                page_bars := py_bars p |}
  | (Raise e, _) => pipeline model_predict grad_model content = Raise e
  end.
Proof.
  intros Hfile. unfold run_pipeline, pipeline, load_and_preprocess.
  rewrite py_bind_run, (load_img_py_run σ uploaded_file content) by done.
  destruct (load_img content (Some target_size)) as [img|e];
    cbn [mbind mret result_bind result_ret]; [|done].
  set (i := fresh (dom σ)). set (σ1 := <[i := PilImage img]> σ).
  pose proof (img_to_array_py_yields σ1 i img (lookup_insert_eq _ _ _))
    as Harr.
  pose proof (extends_run _ _ σ1 (keeps_img_to_array σ1 i)) as Hσ2.
  apply py_bind_yields_ok in Harr as (a & Ha & ->).
  set (σ2 := (img_to_array_py i σ1).2) in *.
  assert (σ2 !! i = Some (PilImage img)) as Hi2.
  { eapply lookup_weaken; [|exact Hσ2]. apply lookup_insert_eq. }
  assert (a ≠ i) as Hai by (intros ->; congruence).
  unfold expand_dims_py. rewrite py_bind_ret, py_bind_run.
  rewrite (preprocess_input_updates_its_argument σ2 a (img_to_array img))
    by done.
  set (σ3 := <[a := _]> σ2).
  unfold get_batch. rewrite py_bind_run.
  rewrite (py_bind_get_array a (map3 preprocess_value (img_to_array img)))
    by apply lookup_insert_eq.
  unfold mret at 1. unfold py_ret at 1.
  change (preprocess_input (expand_dims (img_to_array img)))
    with (expand_dims (map3 preprocess_value (img_to_array img))).
  set (batch := expand_dims _).
  destruct (np_first (model_predict batch)) as [predictions|e];
    [rewrite py_bind_lift_ok|by rewrite py_bind_lift_raise].
  cbn [mbind result_bind].
  destruct (predicted_class predictions) as [label|e];
    [rewrite py_bind_lift_ok|by rewrite py_bind_lift_raise].
  cbn [mbind result_bind].
  destruct (confidence predictions) as [delta|e];
    [rewrite py_bind_lift_ok|by rewrite py_bind_lift_raise].
  cbn [mbind result_bind].
  destruct (make_gradcam_heatmap grad_model batch None) as [heatmap|e];
    [rewrite py_bind_lift_ok|by rewrite py_bind_lift_raise].
  cbn [mbind result_bind].
  assert (σ3 !! i = Some (PilImage img)) as Hi3.
  { unfold σ3. by rewrite lookup_insert_ne. }
  pose proof (img_to_array_py_yields σ3 i img Hi3) as Horig.
  apply py_bind_yields_ok in Horig as (o & Ho & ->).
  set (σ4 := (img_to_array_py i σ3).2) in *.
  pose proof (overlay_heatmap_on_image_py_yields σ4 o (img_to_array img)
    heatmap default_alpha Ho) as Hover.
  destruct (overlay_heatmap_on_image (img_to_array img) heatmap
    default_alpha) as [overlay|e];
    cbn [fmap result_fmap mbind result_bind] in *.
  2: { pose proof (py_bind_yields_raise _ _ _ Hover _
         (λ heatmap_overlay,
            bar_list ← lift (bars predictions);
            mret {| py_predicted_class := label;
                    py_confidence := delta;
                    py_heatmap_overlay := heatmap_overlay;
                    py_bars := bar_list |})) as Hraise.
       match type of Hraise with
       | (?out).1 = _ => destruct out as [[?|?] ?]
       end; simpl in *; congruence. }
  apply py_bind_yields_ok in Hover as (l & Hl & ->).
  destruct (bars predictions) as [bar_list|e];
    [rewrite py_bind_lift_ok|by rewrite py_bind_lift_raise].
  simpl. by exists overlay.
Qed.
End Store_refinement.

(** ** The pipeline completes *)

Section Completion.
Context `{Rounding, Libraries}.

Lemma weighted_activation_map_ok (grad_model : grad_model_t)
    (x : tensor4) (a : tensor3) (p : tensor1) (h w : nat) :
  gm_call grad_model x = ([a], [p]) → p ≠ [] →
  length a = h → Forall (λ row : tensor2, length row = w) a →
  ∃ raw, weighted_activation_map grad_model x None = Ok raw ∧
         has_shape2 raw h w.
Proof.
  intros Hcall Hp Hh Hw. unfold weighted_activation_map. rewrite Hcall.
  rewrite tf_getitem_singleton. simpl. unfold tf_getitem_col. simpl.
  rewrite slice_index_in_range by (by apply argmax_lt_length). simpl.
  eexists. split; [done|].
  unfold squeeze, matmul, map2. split.
  - by rewrite !length_fmap.
  - rewrite <-list_fmap_compose. apply Forall_fmap.
    eapply Forall_impl; [done|]. intros row Hrow. simpl.
    unfold matmul2. by rewrite !length_fmap.
Qed.

Lemma make_gradcam_heatmap_ok (grad_model : grad_model_t)
    (x : tensor4) (a : tensor3) (p : tensor1) (h w : nat) :
  gm_call grad_model x = ([a], [p]) → p ≠ [] →
  length a = h → Forall (λ row : tensor2, length row = w) a →
  ∃ heatmap, make_gradcam_heatmap grad_model x None = Ok heatmap ∧
             has_shape2 heatmap h w.
Proof.
  intros Hcall Hp Hh Hw.
  destruct (weighted_activation_map_ok grad_model x a p h w)
    as (raw & Hraw & Hshape); [done..|].
  unfold make_gradcam_heatmap. rewrite Hraw. eexists. split; [done|].
  by apply has_shape2_fmap.
Qed.

Lemma overlay_ok (img : tensor3) (heatmap : tensor2) (alpha : fl)
    (h w h' w' : nat) :
  jet_table_ok →
  has_shape3 img h w 3 → (0 < h)%nat → (0 < w)%nat →
  has_shape2 heatmap h' w' → (0 < h')%nat → (0 < w')%nat →
  ∃ out, overlay_heatmap_on_image img heatmap alpha = Ok out ∧
         pil_size out = (w, h).
Proof.
  intros Hjet Himg Hh Hw Hheat Hh' Hw'.
  destruct (has_shape3_dims img h w 3) as (Hlen & Hdim1 & _); [done..|].
  destruct (resized_jet_heatmap_ok img heatmap h' w')
    as (jet & Hjet_ok & Hshape & _); [done..|].
  rewrite Hlen, Hdim1 in Hshape.
  unfold overlay_heatmap_on_image. rewrite Hjet_ok.
  cbn [mbind mret result_bind result_ret].
  rewrite (np_add_same_shape _ img h w 3);
    [|by apply has_shape3_fmap|done..].
  cbn [mbind mret result_bind result_ret].
  apply array_to_img_ok; [|done..].
  apply zip_with_shape3; [by apply has_shape3_fmap|done].
Qed.

Theorem pipeline_ok (model_predict : tensor4 → tensor2)
    (grad_model : grad_model_t) (uploaded_file : bytes) (src : pil_image) :
  jet_table_ok → network_ok model_predict grad_model →
  pil_open uploaded_file = Some src →
  ∃ page, pipeline model_predict grad_model uploaded_file = Ok page.
Proof.
  intros Hjet Hnet Hopen.
  destruct (load_and_preprocess_ok uploaded_file src Hopen)
    as (img & Hload & Hsize).
  set (img_array := preprocess_input _) in Hload.
  unfold pipeline. rewrite Hload.
  cbn [mbind mret result_bind result_ret].
  destruct (Hnet img_array)
    as [(probs & rest & Hpredict & Hprobs & Hnan)
        (a & p & h' & w' & c & Hcall & Hp & _ & [Hh' Ha] & _ & ? & ? & _)].
  assert (Forall (λ row : tensor2, length row = w') a) as Hw'.
  { eapply Forall_impl; [exact Ha|]. by intros row [? _]. }
  rewrite Hpredict. cbn [np_first lookup list_lookup of_option].
  cbn [mbind mret result_bind result_ret].
  assert (probs ≠ []) as Hne by (by destruct probs).
  pose proof (argmax_lt_length probs Hne) as Hlt. rewrite Hprobs in Hlt.
  unfold predicted_class. rewrite np_argmax_no_nan by done.
  cbn [mbind result_bind].
  destruct (class_names !! argmax probs) as [name|] eqn:Hname.
  2: { apply lookup_ge_None in Hname.
       change (length class_names) with 5%nat in Hname. lia. }
  cbn [of_option mbind mret result_bind result_ret].
  unfold confidence, prediction_probabilities.
  destruct probs as [|p0 probs]; [done|].
  cbn [fmap list_fmap np_max mbind mret result_bind result_ret].
  destruct (make_gradcam_heatmap_ok grad_model img_array a p h' w')
    as (heatmap & -> & Hheat); [done..|].
  cbn [mbind mret result_bind result_ret].
  injection Hsize as Hwidth Hheight.
  destruct (overlay_ok (img_to_array img) heatmap default_alpha
    224 224 h' w') as (out & -> & _); try done; try lia.
  { pose proof (img_to_array_shape img) as Hs.
    by rewrite Hwidth, Hheight in Hs. }
  cbn [mbind mret result_bind result_ret].
  unfold bars, plt_barh, prediction_probabilities.
  rewrite decide_True; [by eexists|].
  rewrite length_fmap. by rewrite Hprobs.
Qed.
End Completion.

(** ** The claims about preprocessing, the overlay and the download *)

Section Pipeline_claims.
Context `{Rounding, Libraries}.

(** C4, as the code has it: every upload that decodes is brought to 224
    by 224 whatever its aspect ratio, by the default filter of
    [load_img], nearest neighbour, which interpolates nothing: every
    pixel of the result is a pixel of the upload (and an upload that
    already has the size is taken as it is).  The batch handed to the
    network has shape (1, 224, 224, 3). *)
Theorem preprocess_resizes_by_nearest_neighbour (uploaded_file : bytes)
    (src : pil_image) :
  pil_open uploaded_file = Some src →
  ∃ img img_array,
    load_and_preprocess uploaded_file = Ok (img, img_array) ∧
    has_shape4 img_array 1 224 224 3 ∧
    pil_size img = (224%nat, 224%nat) ∧
    (pil_size src = (224%nat, 224%nat) → img = src) ∧
    ((0 < width src)%nat → (0 < height src)%nat →
     ∀ x y, (x < 224)%nat → (y < 224)%nat →
       ∃ x' y', (x' < width src)%nat ∧ (y' < height src)%nat ∧
                getpixel img x y = getpixel src x' y').
Proof.
  intros Hopen. unfold load_and_preprocess, load_img. rewrite Hopen.
  cbn [of_option mbind mret result_bind result_ret].
  case_decide as Hsize; cbn [mbind mret result_bind result_ret].
  - exists src. eexists. split; [done|].
    split; [by apply network_input_shape|].
    repeat split; try done. intros Hw Hh x y Hx Hy.
    injection Hsize as Hwidth Hheight.
    exists x, y. split; [lia|]. split; [lia|done].
  - eexists. eexists. split; [done|].
    split; [by apply network_input_shape|].
    repeat split; try done. intros Hw Hh x y Hx Hy.
    exists (nearest_source (width src) 224 x),
      (nearest_source (height src) 224 y).
    split; [by apply nearest_source_lt|].
    split; [by apply nearest_source_lt|done].
Qed.

(** C2, as the code has it: the overlay renderer gives its result the
    height and width of the image array it is called with; the pipeline
    calls it with the image already resized for the network, so, with a
    colour table of 256 colours and a network as the script expects it
    (five probabilities without NaN, feature maps over a grid of at
    least two rows and two columns), the overlay on the page is 224 by
    224 whatever the resolution of the upload. *)
Theorem overlay_has_the_resolution_of_the_network_input
    (model_predict : tensor4 → tensor2) (grad_model : grad_model_t)
    (uploaded_file : bytes) (src : pil_image) :
  jet_table_ok → network_ok model_predict grad_model →
  pil_open uploaded_file = Some src →
  (∀ img heatmap alpha out h w,
     has_shape3 img h w 3 → (0 < h)%nat → (0 < w)%nat →
     overlay_heatmap_on_image img heatmap alpha = Ok out →
     pil_size out = (w, h)) ∧
  ∃ page,
    pipeline model_predict grad_model uploaded_file = Ok page ∧
    pil_size (page_heatmap_overlay page) = (224%nat, 224%nat).
Proof.
  intros Hjet Hnet Hopen. split.
  - intros img heatmap alpha out h w. apply overlay_size.
  - destruct (pipeline_ok model_predict grad_model uploaded_file src)
      as [page Hpage]; [done..|].
    exists page. split; [done|]. by eapply pipeline_overlay_size.
Qed.
End Pipeline_claims.

Section Download.
Context `{OperatingSystem}.

(** C5: when the remote answers with a status other than 200, the
    download raises the exception that carries the status code and the
    file system, [output_path] included, is left as it was: no file is
    created or written. *)
Theorem download_failure_leaves_filesystem
    (requests_get : string → response) (url output_path : string)
    (fs : filesystem) :
  status_code (requests_get url) ≠ 200 →
  download_model_from_url requests_get url output_path fs =
    (fs, Raise (Exception
      ("Failed to download model. HTTP Status code: "
         +:+ pretty (status_code (requests_get url))))).
Proof.
  intros Hstatus. unfold download_model_from_url.
  destruct (decide _) as [Heq|_]; [by destruct Hstatus|done].
Qed.
End Download.

(** * Further properties of the code *)

(** ** Provisioning *)

Section Provisioning.
Context `{OperatingSystem}.

Lemma write_chunks_concat (chunks : list bytes) :
  write_chunks chunks = concat chunks.
Proof.
  unfold write_chunks.
  cut (∀ file, foldl (λ file chunk : bytes, file ++ chunk) file chunks
               = file ++ concat chunks).
  { intros Hcut. apply (Hcut []). }
  induction chunks as [|chunk chunks IH]; intros file; simpl.
  - by rewrite app_nil_r.
  - by rewrite IH, app_assoc.
Qed.

(** X1: the download when the server answers with status 200.  When
    [open] raises, that exception reaches the caller and the file system
    is as it was.  When the file opens and a write fails, the exception
    of the write reaches the caller and the file holds what was written
    until then.  When the file opens and every write succeeds, the file
    at [output_path] holds the chunks the stream delivered, one after
    the other in the order they arrived, whatever the path held before;
    the download returns normally when the stream ended with the body
    complete and raises the exception of the stream when the connection
    broke, the chunks received until then in the file.  In every case
    the other files are as they were. *)
Theorem download_writes_the_body_in_order
    (requests_get : string → response) (url output_path : string)
    (fs : filesystem) :
  status_code (requests_get url) = 200 →
  let chunks := iter_content (requests_get url) in
  let out := download_model_from_url requests_get url output_path fs in
  (∀ path, path ≠ output_path → out.1 !! path = fs !! path) ∧
  (∀ e, open_error fs output_path = Some e → out = (fs, Raise e)) ∧
  (open_error fs output_path = None →
     (∀ written e, write_error fs output_path chunks = Some (written, e) →
        out.1 !! output_path = Some written ∧ out.2 = Raise e) ∧
     (write_error fs output_path chunks = None →
        out.1 !! output_path = Some (concat chunks) ∧
        (iter_error (requests_get url) = None → out.2 = Ok ()) ∧
        (∀ e, iter_error (requests_get url) = Some e → out.2 = Raise e))).
Proof.
  intros Hstatus chunks. unfold download_model_from_url.
  rewrite decide_True by done. cbv zeta. fold chunks.
  destruct (open_error fs output_path) as [e|].
  { split; [done|]. split; [by intros ? [= ->]|done]. }
  destruct (write_error fs output_path chunks) as [[written e]|].
  { cbn [fst snd]. split; [|split; [done|intros _; split; [|done]]].
    - intros path Hpath. by rewrite lookup_insert_ne.
    - intros ? ? [= -> ->]. by rewrite lookup_insert_eq. }
  assert (∀ r : result unit,
    (<[output_path := write_chunks chunks]> fs, r).1 !! output_path
    = Some (concat chunks)) as Hfile.
  { intros r. cbn [fst]. by rewrite lookup_insert_eq, write_chunks_concat. }
  assert (∀ (r : result unit) path, path ≠ output_path →
    (<[output_path := write_chunks chunks]> fs, r).1 !! path = fs !! path)
    as Hother.
  { intros r path Hpath. cbn [fst]. by rewrite lookup_insert_ne. }
  destruct (iter_error (requests_get url)) as [e|].
  - split; [apply Hother|]. split; [done|]. intros _. split; [done|].
    intros _. split; [apply Hfile|]. split; [done|]. by intros ? [= ->].
  - split; [apply Hother|]. split; [done|]. intros _. split; [done|].
    intros _. split; [apply Hfile|]. split; [done|]. done.
Qed.

(** X2: a download that breaks is never repaired.  When there is no
    model file, the server answers with status 200, the file opens and
    is written, and the connection breaks while the body is streamed,
    provisioning raises the exception of the stream and leaves a model
    file that holds only the chunks received until then, every other
    file as it was.  From then on the file exists: every later run of
    the provisioning step makes no request and returns normally,
    whatever the server would answer, with the incomplete file in
    place. *)
Theorem broken_download_is_never_repaired
    (requests_get later_get : string → response) (url model_path : string)
    (fs : filesystem) (e : exn) :
  fs !! model_path = None →
  status_code (requests_get url) = 200 →
  open_error fs model_path = None →
  write_error fs model_path (iter_content (requests_get url)) = None →
  iter_error (requests_get url) = Some e →
  let out := ensure_model requests_get url model_path fs in
  out.2 = Raise e ∧
  out.1 !! model_path = Some (concat (iter_content (requests_get url))) ∧
  (∀ path, path ≠ model_path → out.1 !! path = fs !! path) ∧
  ensure_model later_get url model_path out.1 = (out.1, Ok ()).
Proof.
  intros Hfile Hstatus Hopen Hwrite Hbroken.
  assert (ensure_model requests_get url model_path fs
    = (<[model_path := concat (iter_content (requests_get url))]> fs,
       Raise e)) as ->.
  { unfold ensure_model. rewrite Hfile. unfold download_model_from_url.
    rewrite decide_True, Hopen by done. cbv zeta.
    by rewrite Hwrite, Hbroken, write_chunks_concat. }
  cbv zeta. cbn [fst snd]. rewrite lookup_insert_eq. repeat split.
  - intros path Hpath. by rewrite lookup_insert_ne.
  - unfold ensure_model. by rewrite lookup_insert_eq.
Qed.

(** X3: the model is downloaded at most once.  After a run of the
    provisioning step that returned normally, a further run makes no
    request: whatever the server would answer, it returns normally and
    leaves the file system, the model file included, as it is.  The file
    is neither checked nor refreshed. *)
Theorem ensure_model_downloads_at_most_once
    (requests_get later_get : string → response) (url model_path : string)
    (fs : filesystem) :
  let out := ensure_model requests_get url model_path fs in
  out.2 = Ok () →
  ensure_model later_get url model_path out.1 = (out.1, Ok ()).
Proof.
  unfold ensure_model at 1 2.
  destruct (fs !! model_path) as [content|] eqn:Hfile; simpl.
  - intros _. unfold ensure_model. by rewrite Hfile.
  - unfold download_model_from_url. case_decide as Hstatus; simpl; [|done].
    destruct (open_error fs model_path); [done|].
    destruct (write_error _ _ _) as [[? ?]|]; [done|].
    destruct (iter_error _); [done|]. simpl.
    intros _. unfold ensure_model. by rewrite lookup_insert_eq.
Qed.
End Provisioning.

(** ** Ties between classes *)

Lemma fleb_fltb_trans x y z :
  fleb x y = true → fltb y z = true → fltb x z = true.
Proof.
  destruct x as [a| | |], y as [b| | |], z as [c| | |]; try done; simpl.
  intros Hab%bool_decide_eq_true Hbc%bool_decide_eq_true.
  apply bool_decide_eq_true. by eapply Qcle_lt_trans.
Qed.

Lemma argmax_from_first (l : list fl) : ∀ (pre : list fl) (bi : nat) (b : fl),
  pre !! bi = Some b →
  (∀ x, x ∈ pre → fleb x b = true) →
  (∀ j q, (j < bi)%nat → pre !! j = Some q → fltb q b = true) →
  Forall (λ y, is_nan y = false) (pre ++ l) →
  ∃ v, (pre ++ l) !! argmax_from bi b (length pre) l = Some v ∧
       ∀ j q, (j < argmax_from bi b (length pre) l)%nat →
              (pre ++ l) !! j = Some q → fltb q v = true.
Proof.
  induction l as [|x l IH]; intros pre bi b Hbi Hub Hfirst Hnan; simpl.
  - exists b. rewrite app_nil_r. done.
  - assert (is_nan x = false ∧ is_nan b = false) as [Hx Hb].
    { rewrite Forall_forall in Hnan. split; apply Hnan.
      - apply elem_of_app. right. left.
      - apply elem_of_app. left. by eapply list_elem_of_lookup_2. }
    assert (pre ++ x :: l = (pre ++ [x]) ++ l) as Happ
      by (by rewrite <-app_assoc).
    rewrite Happ in *.
    assert (S (length pre) = length (pre ++ [x])) as ->.
    { rewrite length_app. simpl. lia. }
    destruct (fltb b x) eqn:Hlt.
    + apply IH; [| | |done].
      * rewrite lookup_app_r by lia. by rewrite Nat.sub_diag.
      * intros y [Hy| ->%list_elem_of_singleton]%elem_of_app.
        -- eapply fleb_trans; [by apply Hub|]. by apply fltb_fleb.
        -- by apply fleb_refl.
      * intros j q Hj Hq. rewrite lookup_app_l in Hq by done.
        eapply fleb_fltb_trans; [|done]. apply Hub.
        by eapply list_elem_of_lookup_2.
    + apply IH; [| | |done].
      * by apply lookup_app_l_Some.
      * intros y [Hy| ->%list_elem_of_singleton]%elem_of_app; [by apply Hub|].
        by apply not_fltb_fleb.
      * intros j q Hj Hq. apply (Hfirst j q Hj).
        apply lookup_lt_Some in Hbi.
        rewrite lookup_app_l in Hq by lia. done.
Qed.

(** X4: among equal probabilities the lowest grade wins.  On a vector of
    probabilities without NaN, the index [np.argmax] and [tf.argmax]
    return holds a maximum, and every entry before it is strictly smaller:
    the predicted grade, and the class the explainer takes by default, is
    the first of the classes that share the highest probability. *)
Theorem ties_go_to_the_lowest_grade (predictions : tensor1) :
  predictions ≠ [] →
  Forall (λ p, is_nan p = false) predictions →
  ∃ p, predictions !! argmax predictions = Some p ∧
       (∀ q, q ∈ predictions → fleb q p = true) ∧
       (∀ j q, (j < argmax predictions)%nat →
               predictions !! j = Some q → fltb q p = true) ∧
       ((length predictions ≤ 5)%nat →
          ∃ name, predicted_class predictions = Ok name ∧
                  class_names !! argmax predictions = Some name).
Proof.
  intros Hne Hnan.
  destruct (argmax_spec predictions Hne Hnan) as (p & Hp & Hmax).
  exists p. split; [done|]. split; [done|]. split.
  - destruct predictions as [|x l]; [done|].
    destruct (argmax_from_first l [x] 0%nat x) as (v & Hv & Hfirst);
      try done.
    + intros y ->%list_elem_of_singleton. apply fleb_refl.
      by inversion Hnan.
    + intros j q Hj. lia.
    + simpl in Hv, Hfirst, Hp. unfold argmax in Hp.
      assert (v = p) as -> by congruence. done.
  - intros Hlen. pose proof (argmax_lt_length predictions Hne) as Hlt.
    unfold predicted_class. rewrite np_argmax_no_nan by done.
    cbn [mbind result_bind].
    destruct (class_names !! argmax predictions) as [name|] eqn:Hname.
    + by exists name.
    + apply lookup_ge_None in Hname.
      change (length class_names) with 5%nat in Hname. lia.
Qed.

(** ** More on the normalised heatmap *)

Lemma reduce_max_eq (l : list fl) (v : fl) :
  Forall (λ y, is_finite y = true) l → v ∈ l →
  (∀ y, y ∈ l → fleb y v = true) → reduce_max l = v.
Proof.
  intros Hfin Hin Hub.
  assert (l ≠ []) as Hne by (intros ->; by inversion Hin).
  apply fleb_antisym.
  - apply Hub. by apply reduce_max_elem.
  - apply reduce_max_upper; [|done].
    eapply Forall_impl; [done|]. by intros [].
Qed.

Lemma unit_interval_finite (x : fl) : in_unit_interval x → is_finite x = true.
Proof. intros [Hlo Hhi]. by destruct x. Qed.

Section Heatmap_more.
Context `{Rounding, Libraries}.
Hypothesis rnd_mono : rnd_monotone.
Hypothesis rnd_int : rnd_exact_on_integers.

Lemma fdiv_self (m : Qc) : (Qc_of_Z 0 < m)%Qc → fdiv (Fin m) (Fin m) = fone.
Proof.
  intros Hm. simpl. rewrite (Qc_sign_pos m Hm).
  assert (m ≠ Qc_of_Z 0) as Hne.
  { intros ->. by apply Qclt_not_eq in Hm. }
  rewrite Z2Qc_inj_0 in Hne.
  unfold Qcdiv. rewrite Qcmult_inv_r, <-Z2Qc_inj_1 by done. by apply rnd_int.
Qed.

Lemma fmax_zero_finite (a : Qc) :
  fmax (Fin a) fzero = Fin (if bool_decide (a ≤ Qc_of_Z 0)%Qc
                            then Qc_of_Z 0 else a).
Proof. unfold fmax, fzero. simpl. by case_bool_decide. Qed.

Lemma normalize_entry_mono (a b m : Qc) :
  (Qc_of_Z 0 < m)%Qc → (a ≤ b)%Qc →
  fleb (fdiv (fmax (Fin a) fzero) (Fin m))
       (fdiv (fmax (Fin b) fzero) (Fin m)) = true.
Proof.
  intros Hm Hab. rewrite !fmax_zero_finite. simpl.
  rewrite (Qc_sign_pos m Hm). apply rnd_mono. unfold Qcdiv.
  apply Qcmult_le_compat_r.
  - case_bool_decide as Ha; case_bool_decide as Hb; try done.
    + apply Qclt_le_weak. by apply Qcnot_le_lt.
    + exfalso. apply Ha. by eapply Qcle_trans.
  - apply Qclt_le_weak. rewrite Z2Qc_inj_0 in *. by apply Qcinv_pos.
Qed.

Lemma normalize_entry_clipped (a m : Qc) :
  (Qc_of_Z 0 < m)%Qc → (a ≤ Qc_of_Z 0)%Qc →
  fdiv (fmax (Fin a) fzero) (Fin m) = fzero.
Proof.
  intros Hm Ha. rewrite fmax_zero_finite, bool_decide_eq_true_2 by done.
  simpl. rewrite (Qc_sign_pos m Hm). unfold Qcdiv.
  rewrite Z2Qc_inj_0, Qcmult_0_l, <-Z2Qc_inj_0. by apply rnd_int.
Qed.

Lemma colour_index_of_one : np_uint8 (fmul (fl_of_Z 255) fone) = 255.
Proof.
  unfold fone, fl_of_Z, np_uint8. simpl.
  rewrite Z2Qc_inj_1, Qcmult_1_r. rewrite (rnd_int 255) by done. done.
Qed.

Lemma colour_index_of_zero : np_uint8 (fmul (fl_of_Z 255) fzero) = 0.
Proof.
  unfold fzero, fl_of_Z, np_uint8. simpl.
  rewrite (Z2Qc_inj_0), Qcmult_0_r, <-Z2Qc_inj_0.
  rewrite (rnd_int 0) by done. done.
Qed.

(** The maximum of a map with finite entries and a positive maximum. *)
Lemma positive_maximum (raw : tensor2) :
  Forall (Forall (λ x, is_finite x = true)) raw →
  fltb fzero (reduce_max (flat2 raw)) = true →
  ∃ m, reduce_max (flat2 raw) = Fin m ∧ (Qc_of_Z 0 < m)%Qc ∧
       Fin m ∈ flat2 raw ∧
       ∀ row x, row ∈ raw → x ∈ row →
         ∃ a, x = Fin a ∧ (a ≤ m)%Qc.
Proof.
  intros Hfin Hpos.
  assert (Forall (λ x, is_finite x = true) (flat2 raw)) as Hfin'
    by (by apply Forall_concat).
  assert (Forall (λ y, is_nan y = false) (flat2 raw)) as Hnan.
  { eapply Forall_impl; [done|]. by intros []. }
  assert (flat2 raw ≠ []) as Hne.
  { intros Heq. by rewrite Heq in Hpos. }
  pose proof (reduce_max_elem (flat2 raw) Hfin' Hne) as Hmem.
  rewrite Forall_forall in Hfin'.
  pose proof (Hfin' _ Hmem) as Hm.
  destruct (reduce_max (flat2 raw)) as [m| | |] eqn:Hmax; try done.
  exists m. split; [done|]. split.
  { simpl in Hpos. by apply bool_decide_eq_true in Hpos. }
  split; [done|]. intros row x Hrow Hx.
  assert (x ∈ flat2 raw) as Hx' by (by eapply elem_of_flat2).
  pose proof (Hfin' _ Hx') as Hxfin.
  pose proof (reduce_max_upper (flat2 raw) x Hnan Hx') as Hle.
  rewrite Hmax in Hle. destruct x as [a| | |]; try done.
  exists a. split; [done|]. simpl in Hle.
  by apply bool_decide_eq_true in Hle.
Qed.

(** X5: when the weighted activation map has finite entries and a
    positive maximum, the heatmap reaches exactly 1: every cell that
    holds the maximum of the map gets the value 1, the maximum of the
    heatmap is 1, and the overlay colours such a cell with the last row,
    255, of the colour table. *)
Theorem hottest_cell_is_exactly_one (grad_model : grad_model_t)
    (img_array : tensor4) (pred_index : option Z) (raw : tensor2) :
  weighted_activation_map grad_model img_array pred_index = Ok raw →
  Forall (Forall (λ x, is_finite x = true)) raw →
  fltb fzero (reduce_max (flat2 raw)) = true →
  ∃ heatmap,
    make_gradcam_heatmap grad_model img_array pred_index = Ok heatmap ∧
    (∀ i j row x, raw !! i = Some row → row !! j = Some x →
       x = reduce_max (flat2 raw) →
       ∃ hrow, heatmap !! i = Some hrow ∧ hrow !! j = Some fone) ∧
    reduce_max (flat2 heatmap) = fone ∧
    np_uint8 (fmul (fl_of_Z 255) (reduce_max (flat2 heatmap))) = 255.
Proof.
  intros Hraw Hfin Hpos.
  destruct (positive_maximum raw Hfin Hpos) as (m & Hmax & Hm & Hmem & Hle).
  exists (normalize_heatmap raw). split.
  { unfold make_gradcam_heatmap. by rewrite Hraw. }
  assert (∀ i j row x, raw !! i = Some row → row !! j = Some x →
    x = reduce_max (flat2 raw) →
    ∃ hrow, normalize_heatmap raw !! i = Some hrow ∧ hrow !! j = Some fone)
    as Hone.
  { intros i j row x Hi Hj ->. unfold normalize_heatmap, map2.
    rewrite list_lookup_fmap, Hi. simpl. eexists. split; [done|].
    rewrite list_lookup_fmap, Hj. simpl. f_equal. rewrite Hmax.
    rewrite fmax_zero_finite, bool_decide_eq_false_2.
    - by apply fdiv_self.
    - by apply Qclt_not_le. }
  split; [done|].
  assert (reduce_max (flat2 (normalize_heatmap raw)) = fone) as Hhot.
  { apply reduce_max_eq.
    - apply Forall_concat. unfold normalize_heatmap, map2.
      apply Forall_fmap, Forall_forall. intros row Hrow.
      apply Forall_fmap, Forall_forall. intros x Hx. simpl.
      destruct (Hle row x Hrow Hx) as (a & -> & Ha). rewrite Hmax.
      apply unit_interval_finite.
      apply (normalize_entry_positive rnd_mono rnd_int); try done.
      + simpl. by apply bool_decide_eq_true.
      + simpl. by apply bool_decide_eq_true.
    - apply list_elem_of_In, in_concat in Hmem as (row & Hrow & Hx).
      apply list_elem_of_In, list_elem_of_lookup in Hrow as [i Hi].
      apply list_elem_of_In, list_elem_of_lookup in Hx as [j Hj].
      destruct (Hone i j row (Fin m) Hi Hj) as (hrow & Hhrow & Hcell);
        [done|].
      eapply elem_of_flat2; by eapply list_elem_of_lookup_2.
    - intros y Hy. apply list_elem_of_In, in_concat in Hy as (hrow & Hhrow & Hy).
      apply list_elem_of_In in Hhrow, Hy. unfold normalize_heatmap, map2 in Hhrow.
      apply list_elem_of_fmap in Hhrow as (row & -> & Hrow).
      apply list_elem_of_fmap in Hy as (x & -> & Hx).
      destruct (Hle row x Hrow Hx) as (a & -> & Ha). rewrite Hmax.
      rewrite <-(fdiv_self m Hm).
      pose proof (normalize_entry_mono a m m Hm Ha) as Hbound.
      rewrite (fmax_zero_finite m), bool_decide_eq_false_2 in Hbound;
        [done|by apply Qclt_not_le]. }
  split; [done|]. rewrite Hhot. apply colour_index_of_one.
Qed.

(** X6: the normalisation keeps the order of the cells and clips.  For
    a weighted map with finite entries and a positive maximum, the
    heatmap is the map under one function of the cell value; that
    function is monotone, so a cell with more evidence is never shown
    colder, and it sends every value at or below zero to exactly 0, the
    first row of the colour table. *)
Theorem normalisation_keeps_order_and_clips (grad_model : grad_model_t)
    (img_array : tensor4) (pred_index : option Z) (raw : tensor2) :
  weighted_activation_map grad_model img_array pred_index = Ok raw →
  Forall (Forall (λ x, is_finite x = true)) raw →
  fltb fzero (reduce_max (flat2 raw)) = true →
  ∃ norm : fl → fl,
    make_gradcam_heatmap grad_model img_array pred_index
      = Ok (map2 norm raw) ∧
    (∀ a b : Qc, (a ≤ b)%Qc → fleb (norm (Fin a)) (norm (Fin b)) = true) ∧
    (∀ a : Qc, (a ≤ Qc_of_Z 0)%Qc →
       norm (Fin a) = fzero ∧
       np_uint8 (fmul (fl_of_Z 255) (norm (Fin a))) = 0).
Proof.
  intros Hraw Hfin Hpos.
  destruct (positive_maximum raw Hfin Hpos) as (m & Hmax & Hm & _ & _).
  exists (λ x, fdiv (fmax x fzero) (reduce_max (flat2 raw))). split.
  { unfold make_gradcam_heatmap. by rewrite Hraw. }
  rewrite Hmax. split.
  - intros a b Hab. by apply normalize_entry_mono.
  - intros a Ha. rewrite normalize_entry_clipped by done.
    split; [done|]. apply colour_index_of_zero.
Qed.
End Heatmap_more.

(** ** A vanishing gradient *)

Section Vanishing_gradient.
Context `{Rounding}.
Hypothesis rnd_int : rnd_exact_on_integers.

Lemma fadd_zero_zero : fadd fzero fzero = fzero.
Proof.
  unfold fzero. simpl. rewrite Z2Qc_inj_0, Qcplus_0_l, <-Z2Qc_inj_0.
  by apply rnd_int.
Qed.

Lemma reduce_sum_zeros (l : list fl) :
  Forall (λ v, v = fzero) l → reduce_sum l = fzero.
Proof.
  unfold reduce_sum. induction 1 as [|v l -> _ IH]; [done|].
  cbn [foldl]. by rewrite fadd_zero_zero.
Qed.

Lemma reduce_mean_zeros (l : list fl) :
  l ≠ [] → Forall (λ v, v = fzero) l → reduce_mean l = fzero.
Proof.
  intros Hne Hl. unfold reduce_mean. rewrite reduce_sum_zeros by done.
  unfold fzero, fl_of_nat, fl_of_Z. simpl.
  rewrite Qc_sign_pos.
  - unfold Qcdiv. rewrite Z2Qc_inj_0, Qcmult_0_l, <-Z2Qc_inj_0.
    by apply rnd_int.
  - apply (Z2Qc_inj_lt 0 (Z.of_nat (length l))).
    destruct l; [done|]. simpl. lia.
Qed.

Lemma fmul_finite_zero (v : fl) :
  is_finite v = true → fmul v fzero = fzero.
Proof.
  destruct v as [a| | |]; try done. intros _. unfold fzero. simpl.
  rewrite Z2Qc_inj_0, Qcmult_0_r, <-Z2Qc_inj_0. by apply rnd_int.
Qed.

Lemma weighted_sum_zero_weights (cell weights : tensor1) :
  Forall (λ v, is_finite v = true) cell →
  Forall (λ v, v = fzero) weights →
  reduce_sum (zip_with fmul cell weights) = fzero.
Proof.
  intros Hcell Hw. apply reduce_sum_zeros.
  eapply Forall_zip_with; [|done..]. intros v w Hv ->. simpl.
  by apply fmul_finite_zero.
Qed.

Lemma reduce_max_zeros (l : list fl) :
  l ≠ [] → Forall (λ v, v = fzero) l → reduce_max l = fzero.
Proof.
  intros Hne Hl. induction Hl as [|v l -> Hl IH]; [done|]. simpl.
  destruct l as [|w l]; [done|]. by rewrite IH.
Qed.

Lemma pooled_zero_gradient (g : tensor3) (h w c : nat) :
  has_shape3 g h w c → (0 < h)%nat → (0 < w)%nat →
  Forall (Forall (Forall (λ v, v = fzero))) g →
  Forall (λ v, v = fzero) (reduce_mean_012 [g]) ∧
  length (reduce_mean_012 [g]) = c.
Proof.
  intros Hshape Hh Hw Hzero.
  rewrite (reduce_mean_012_batch_of_one g h w c) by done.
  split; [|by rewrite length_fmap, length_seq].
  apply Forall_fmap, Forall_forall. intros k Hk%elem_of_seq. simpl.
  apply reduce_mean_zeros.
  - destruct Hshape as [Hlen Hrows].
    destruct g as [|row g]; [simpl in *; lia|].
    apply Forall_cons in Hrows as [[Hrow _] _].
    destruct row; [simpl in *; lia|]. done.
  - apply Forall_fmap. unfold flat2. apply Forall_concat.
    destruct Hshape as [_ Hrows]. rewrite Forall_forall in Hrows, Hzero.
    apply Forall_forall. intros row Hrow.
    destruct (Hrows row Hrow) as [_ Hcells].
    specialize (Hzero row Hrow). rewrite Forall_forall in Hcells, Hzero.
    apply Forall_forall. intros cell Hcell. simpl.
    specialize (Hcells cell Hcell). specialize (Hzero cell Hcell).
    rewrite Forall_forall in Hzero. apply Hzero.
    apply list_elem_of_lookup_total_2. lia.
Qed.

(** X7: a vanishing gradient gives a heatmap of NaN.  Take a network
    whose probabilities hold no NaN and whose feature maps, finite, lie
    over a grid of at least two rows and two columns.  When the gradient
    of the predicted class with respect to the feature maps is zero at
    every position and channel (a saturated prediction), every pooled
    weight is zero, the weighted map is zero everywhere and the
    explainer divides zero by zero: it returns normally, with NaN in
    every cell of the grid. *)
Theorem vanishing_gradient_gives_nan (grad_model : grad_model_t)
    (img_array : tensor4) (activation_map gradient : tensor3)
    (probability_vector : tensor1) (h w c : nat) :
  gm_call grad_model img_array = ([activation_map], [probability_vector]) →
  probability_vector ≠ [] →
  Forall (λ p, is_nan p = false) probability_vector →
  gm_gradient grad_model img_array (argmax probability_vector)
    = [gradient] →
  has_shape3 activation_map h w c → has_shape3 gradient h w c →
  (1 < h)%nat → (1 < w)%nat → (0 < c)%nat →
  Forall (Forall (Forall (λ v, v = fzero))) gradient →
  Forall (Forall (Forall (λ v, is_finite v = true))) activation_map →
  weighted_activation_map grad_model img_array None
    = Ok (map2 (λ _, fzero) activation_map) ∧
  make_gradcam_heatmap grad_model img_array None
    = Ok (map2 (λ _, NaN) activation_map).
Proof.
  intros Hcall Hne _ Hgrad _ Hshape Hh Hw Hc Hzero Hfin.
  destruct (pooled_zero_gradient gradient h w c) as [Hweights Hlen];
    [done || lia..|].
  assert (weighted_activation_map grad_model img_array None
    = Ok (map2 (λ _, fzero) activation_map)) as Hmap.
  { unfold weighted_activation_map. rewrite Hcall.
    rewrite tf_getitem_singleton. simpl. unfold tf_getitem_col. simpl.
    rewrite slice_index_in_range by (by apply argmax_lt_length). simpl.
    rewrite Hgrad. rewrite squeeze_matmul_newaxis.
    2: { intros Heq. rewrite Heq in Hlen. simpl in Hlen. lia. }
    f_equal. unfold map2.
    apply Forall_fmap_ext_1. eapply Forall_impl; [exact Hfin|].
    intros row Hrow. simpl. apply Forall_fmap_ext_1.
    eapply Forall_impl; [exact Hrow|]. intros cell Hcell. simpl.
    by apply weighted_sum_zero_weights. }
  split; [done|]. unfold make_gradcam_heatmap. rewrite Hmap. simpl.
  f_equal. unfold normalize_heatmap, map2.
  rewrite <-list_fmap_compose. apply Forall_fmap_ext_1.
  apply Forall_forall. intros row Hrow. simpl.
  rewrite <-list_fmap_compose. apply Forall_fmap_ext_1.
  apply Forall_forall. intros cell Hcell. simpl.
  rewrite reduce_max_zeros.
  - unfold fzero. by rewrite Qc_sign_0.
  - apply list_elem_of_split in Hrow as (r1 & r2 & ->).
    apply list_elem_of_split in Hcell as (c1 & c2 & ->).
    unfold flat2. rewrite !fmap_app, concat_app. simpl.
    rewrite fmap_app. simpl. intros Heq.
    apply app_eq_nil in Heq as [_ Heq]. apply app_eq_nil in Heq as [Heq _].
    by apply app_eq_nil in Heq as [_ Heq].
  - unfold flat2. apply Forall_concat, Forall_fmap, Forall_forall.
    intros r _. by apply Forall_fmap, Forall_forall.
Qed.
End Vanishing_gradient.

(** ** The rescaling of [array_to_img] *)

Lemma fmin_nan x y :
  is_nan x = false → is_nan y = false → is_nan (fmin x y) = false.
Proof. destruct x, y; simpl; try done; by case_match. Qed.

Lemma fmin_cases x y :
  is_nan x = false → is_nan y = false →
  (fmin x y = x ∧ fleb x y = true) ∨ (fmin x y = y ∧ fleb y x = true).
Proof.
  intros Hx Hy. destruct (fleb x y) eqn:Hle.
  - left. by destruct x, y; simpl in *; rewrite ?Hle.
  - right. split; [by destruct x, y; simpl in *; rewrite ?Hle|].
    destruct (fleb_total x y) as [?|?]; congruence.
Qed.

Lemma foldl_fmin_spec (l : list fl) : ∀ x : fl,
  Forall (λ y, is_nan y = false) (x :: l) →
  foldl fmin x l ∈ x :: l ∧
  ∀ y, y ∈ x :: l → fleb (foldl fmin x l) y = true.
Proof.
  induction l as [|z l IH]; intros x Hnan; simpl.
  - split; [left|]. intros y ->%list_elem_of_singleton.
    apply fleb_refl. by inversion Hnan.
  - inversion Hnan as [|?? Hx Hnan']; subst.
    inversion Hnan' as [|?? Hz Hl]; subst.
    destruct (IH (fmin x z)) as [Hin Hlb].
    { constructor; [by apply fmin_nan|done]. }
    destruct (fmin_cases x z Hx Hz) as [[Heq Hle]|[Heq Hle]];
      rewrite Heq in *.
    + split.
      * apply elem_of_cons in Hin as [->|Hin]; [left|by do 2 right].
      * intros y [->|[->|Hy]%elem_of_cons]%elem_of_cons.
        -- apply Hlb. left.
        -- eapply fleb_trans; [|done]. apply Hlb. left.
        -- apply Hlb. by right.
    + split; [by right|].
      intros y [->|Hy]%elem_of_cons; [|by apply Hlb].
      eapply fleb_trans; [|done]. apply Hlb. left.
Qed.

(** The minimum and the maximum of a non-empty array without NaN are
    entries of the array that bound every entry. *)
Lemma np_min_max_spec (l : list fl) :
  l ≠ [] → Forall (λ y, is_nan y = false) l →
  ∃ lo hi, np_min l = Ok lo ∧ np_max l = Ok hi ∧ lo ∈ l ∧ hi ∈ l ∧
           ∀ y, y ∈ l → fleb lo y = true ∧ fleb y hi = true.
Proof.
  intros Hne Hnan. destruct l as [|x l]; [done|].
  destruct (foldl_fmin_spec l x Hnan) as [Hlo Hlb].
  destruct (foldl_fmax_spec l x Hnan) as [Hhi Hub].
  exists (foldl fmin x l), (foldl fmax x l). repeat split; auto.
Qed.

Lemma concat_fmap_fmap {A B} (f : A → B) (l : list (list A)) :
  concat ((λ row : list A, f <$> row) <$> l) = f <$> concat l.
Proof.
  induction l as [|row l IH]; [done|]. csimpl. by rewrite fmap_app, IH.
Qed.

Lemma flat3_map3 {A B} (f : A → B) (x : list (list (list A))) :
  flat3 (map3 f x) = f <$> flat3 x.
Proof.
  unfold flat3, map3, map2.
  rewrite (concat_fmap_fmap (λ row : list A, f <$> row)).
  apply (concat_fmap_fmap f).
Qed.

(** An entry of an array and its position. *)
Lemma elem_of_flat3 {A} (x : list (list (list A))) (v : A) (h w c : nat) :
  has_shape3 x h w c → v ∈ flat3 x →
  ∃ j i k row p,
    x !! j = Some row ∧ row !! i = Some p ∧ p !! k = Some v ∧
    (j < h)%nat ∧ (i < w)%nat ∧ (k < c)%nat.
Proof.
  intros [Hh Hrows] Hv. unfold flat3 in Hv.
  apply list_elem_of_In, in_concat in Hv as (p & Hp & Hv).
  apply in_concat in Hp as (row & Hrow & Hp).
  apply list_elem_of_In, list_elem_of_lookup in Hrow as [j Hj].
  apply list_elem_of_In, list_elem_of_lookup in Hp as [i Hi].
  apply list_elem_of_In, list_elem_of_lookup in Hv as [k Hk].
  rewrite Forall_forall in Hrows.
  destruct (Hrows row) as [Hw Hcells]; [by eapply list_elem_of_lookup_2|].
  rewrite Forall_forall in Hcells.
  pose proof (Hcells p (list_elem_of_lookup_2 _ _ _ Hi)) as Hc.
  simpl in Hc. exists j, i, k, row, p. repeat split; try done.
  - rewrite <-Hh. by eapply lookup_lt_Some.
  - rewrite <-Hw. by eapply lookup_lt_Some.
  - rewrite <-Hc. by eapply lookup_lt_Some.
Qed.

(** The pixel of [fromarray] at a position of the array. *)
Lemma fromarray_getpixel (b : list (list (list Z))) (i j : nat)
    (row : list (list Z)) (p : list Z) :
  b !! j = Some row → row !! i = Some p →
  getpixel (fromarray b) i j
  = RGB (p !!! 0%nat) (p !!! 1%nat) (p !!! 2%nat).
Proof.
  intros Hj Hi. unfold fromarray. simpl.
  by rewrite (list_lookup_total_correct _ _ _ Hj),
    (list_lookup_total_correct _ _ _ Hi).
Qed.

Lemma has_component_at (p : list Z) (k : nat) (z : Z) :
  (k < 3)%nat → p !! k = Some z →
  let pixel := RGB (p !!! 0%nat) (p !!! 1%nat) (p !!! 2%nat) in
  red pixel = z ∨ green pixel = z ∨ blue pixel = z.
Proof.
  intros Hk Hz. simpl.
  destruct k as [|[|[|k]]]; [| | |lia];
    rewrite (list_lookup_total_correct _ _ _ Hz); auto.
Qed.

Section Rescaling.
Context `{Rounding, Libraries}.
Hypothesis rnd_mono : rnd_monotone.
Hypothesis rnd_int : rnd_exact_on_integers.

Lemma fsub_mono (a b l : Qc) :
  (a ≤ b)%Qc → fleb (fsub (Fin a) (Fin l)) (fsub (Fin b) (Fin l)) = true.
Proof.
  intros Hab. simpl. apply rnd_mono. by apply Qcplus_le_compat.
Qed.

Lemma fsub_self (a : Qc) : fsub (Fin a) (Fin a) = fzero.
Proof. simpl. rewrite Qcplus_opp_r, <-Z2Qc_inj_0. by apply rnd_int. Qed.

Lemma fsub_bounded (a l : Qc) :
  bounded_value (Fin a) → bounded_value (Fin l) → (l ≤ a)%Qc →
  ∃ u, fsub (Fin a) (Fin l) = Fin u ∧ (Qc_of_Z 0 ≤ u)%Qc.
Proof.
  intros (a' & [= <-] & _ & Ha) (l' & [= <-] & Hl & _) Hla.
  pose proof (fsub_mono l a l Hla) as Hlo. rewrite fsub_self in Hlo.
  assert (fleb (fsub (Fin a) (Fin l)) (fl_of_Z (2 ^ 24)) = true) as Hhi.
  { rewrite <-(rnd_int (2 ^ 24)) by lia. simpl. apply rnd_mono.
    replace (Qc_of_Z (2 ^ 24)) with (Qc_of_Z (2 ^ 23) + - Qc_of_Z (- 2 ^ 23))%Qc.
    - apply Qcplus_le_compat; [done|]. by apply Qcopp_le_compat.
    - by apply Qc_is_canon. }
  destruct (fsub (Fin a) (Fin l)) as [u| | |]; try done.
  exists u. split; [done|]. simpl in Hlo. by apply bool_decide_eq_true in Hlo.
Qed.

Lemma fmul_zero_255 : fmul fzero (fl_of_Z 255) = fzero.
Proof.
  unfold fzero, fl_of_Z. simpl.
  rewrite Z2Qc_inj_0, Qcmult_0_l, <-Z2Qc_inj_0. by apply rnd_int.
Qed.

Lemma fmul_one_255 : fmul fone (fl_of_Z 255) = fl_of_Z 255.
Proof.
  unfold fone, fl_of_Z. simpl. rewrite Z2Qc_inj_1, Qcmult_1_l.
  by apply rnd_int.
Qed.

Lemma fdiv_zero (m : Qc) : (Qc_of_Z 0 < m)%Qc → fdiv fzero (Fin m) = fzero.
Proof.
  intros Hm. unfold fzero. simpl. rewrite (Qc_sign_pos m Hm). unfold Qcdiv.
  rewrite Z2Qc_inj_0, Qcmult_0_l, <-Z2Qc_inj_0. by apply rnd_int.
Qed.

(** X8: [array_to_img] stretches its argument to the whole range of a
    byte.  For an array of shape (h, w, 3) with entries within
    [-2^23, 2^23], the conversion returns an image of width [w] and
    height [h].  When the difference of the maximum and the minimum is
    zero, every pixel is black, whatever the common value is; otherwise
    some pixel has a channel of 0, where the minimum stands, and some
    pixel has a channel of 255, where the maximum stands. *)
Theorem array_to_img_stretches_to_the_byte_range (x : tensor3) (h w : nat) :
  has_shape3 x h w 3 → (0 < h)%nat → (0 < w)%nat →
  Forall (Forall (Forall bounded_value)) x →
  ∃ lo hi img,
    np_min (flat3 x) = Ok lo ∧ np_max (flat3 x) = Ok hi ∧
    array_to_img x = Ok img ∧ pil_size img = (w, h) ∧
    (fsub hi lo = fzero →
       ∀ i j, (i < w)%nat → (j < h)%nat → getpixel img i j = RGB 0 0 0) ∧
    (fsub hi lo ≠ fzero →
       (∃ i j, (i < w)%nat ∧ (j < h)%nat ∧
          let pixel := getpixel img i j in
          red pixel = 0 ∨ green pixel = 0 ∨ blue pixel = 0) ∧
       (∃ i j, (i < w)%nat ∧ (j < h)%nat ∧
          let pixel := getpixel img i j in
          red pixel = 255 ∨ green pixel = 255 ∨ blue pixel = 255)).
Proof.
  intros Hshape Hh Hw Hbound.
  assert (Forall bounded_value (flat3 x)) as Hflat.
  { unfold flat3. apply Forall_concat, Forall_concat.
    eapply Forall_impl; [done|]. by intros row Hrow. }
  assert (Forall (λ y, is_nan y = false) (flat3 x)) as Hnan.
  { eapply Forall_impl; [done|]. by intros v (q & -> & _). }
  assert (flat3 x ≠ []) as Hne
    by (eapply has_shape3_flat_nonempty; eauto; lia).
  destruct (np_min_max_spec (flat3 x) Hne Hnan)
    as (lo & hi & Hmin & Hmax & Hlo & Hhi & Hbounds).
  rewrite Forall_forall in Hflat.
  destruct (Hflat lo Hlo) as (l & -> & Hl).
  destruct (Hflat hi Hhi) as (u & -> & Hu).
  assert (∀ v, v ∈ flat3 x → ∃ a, v = Fin a ∧ (l ≤ a)%Qc ∧ (a ≤ u)%Qc)
    as Hentry.
  { intros v Hv. destruct (Hflat v Hv) as (a & -> & _).
    destruct (Hbounds _ Hv) as [H1 H2]. simpl in H1, H2.
    apply bool_decide_eq_true in H1, H2. by exists a. }
  destruct (fsub_bounded u l) as (m & Hm & Hm0).
  { by exists u. } { by exists l. }
  { destruct (Hentry _ Hhi) as (a & [= <-] & ? & ?). done. }
  (* the maximum of the shifted array *)
  assert (np_max (flat3 (map3 (λ v, fsub v (Fin l)) x)) = Ok (Fin m))
    as Hmax1.
  { rewrite flat3_map3, <-Hm. apply np_max_greatest.
    - apply Forall_fmap, Forall_forall. intros v Hv. simpl.
      destruct (Hentry v Hv) as (a & -> & _). apply (rnd_not_nan rnd_mono).
    - apply list_elem_of_fmap. by exists (Fin u).
    - intros y (v & -> & Hv)%list_elem_of_fmap.
      destruct (Hentry v Hv) as (a & -> & _ & Ha). by apply fsub_mono. }
  exists (Fin l), (Fin u).
  destruct (array_to_img_ok x h w) as (img & Himg & Hsize); [done..|].
  exists img. split; [done|]. split; [done|]. split; [done|].
  split; [done|].
  (* the image, entry by entry *)
  pose (scale := λ v : fl,
    if negb (feqb (Fin m) fzero) then fdiv v (Fin m) else v).
  pose (g := λ v : fl,
    np_uint8 (fmul (scale (fsub v (Fin l))) (fl_of_Z 255))).
  assert (img = fromarray (map3 g x)) as ->.
  { unfold array_to_img in Himg. rewrite Hmin in Himg.
    cbn [mbind result_bind] in Himg. rewrite Hmax1 in Himg.
    cbn [mbind result_bind] in Himg.
    case_decide as Hc; [|done]. injection Himg as <-. f_equal.
    unfold g, scale, map3, map2. destruct (negb _);
      rewrite <-?list_fmap_compose; apply list_fmap_ext; intros ? row _;
      simpl; rewrite <-?list_fmap_compose; apply list_fmap_ext;
      intros ? p _; simpl; by rewrite <-?list_fmap_compose. }
  assert (∀ v k i j row p, x !! j = Some row → row !! i = Some p →
    p !! k = Some v → (k < 3)%nat →
    let pixel := getpixel (fromarray (map3 g x)) i j in
    red pixel = g v ∨ green pixel = g v ∨ blue pixel = g v) as Hpixel.
  { intros v k i j row p Hj Hi Hk Hk3.
    rewrite (fromarray_getpixel _ i j (map2 g row) (g <$> p)).
    - apply (has_component_at _ k); [done|].
      by rewrite list_lookup_fmap, Hk.
    - unfold map3. by rewrite list_lookup_fmap, Hj.
    - unfold map2. by rewrite list_lookup_fmap, Hi. }
  split.
  - (* a constant array *)
    intros Hconst. rewrite Hm in Hconst.
    assert (feqb fzero fzero = true) as Hfeq.
    { unfold feqb, fzero. by rewrite bool_decide_eq_true_2. }
    assert (∀ v, v ∈ flat3 x → g v = 0) as Hg.
    { intros v Hv. destruct (Hentry v Hv) as (a & -> & Hla & Hau).
      unfold g, scale. rewrite Hconst, Hfeq. simpl negb. cbv iota.
      assert (fsub (Fin a) (Fin l) = fzero) as ->.
      { apply fleb_antisym.
        - rewrite <-Hconst, <-Hm. by apply fsub_mono.
        - rewrite <-(fsub_self l). by apply fsub_mono. }
      rewrite fmul_zero_255. done. }
    intros i j Hi Hj. destruct Hshape as [Hlen Hrows].
    destruct (lookup_lt_is_Some_2 x j) as [row Hrow]; [lia|].
    rewrite Forall_forall in Hrows.
    destruct (Hrows row (list_elem_of_lookup_2 _ _ _ Hrow)) as [Hwidth Hcells].
    destruct (lookup_lt_is_Some_2 row i) as [p Hp]; [lia|].
    rewrite Forall_forall in Hcells.
    pose proof (Hcells p (list_elem_of_lookup_2 _ _ _ Hp)) as Hc.
    simpl in Hc.
    rewrite (fromarray_getpixel _ i j (map2 g row) (g <$> p)).
    2: { unfold map3. by rewrite list_lookup_fmap, Hrow. }
    2: { unfold map2. by rewrite list_lookup_fmap, Hp. }
    assert (∀ k, (k < 3)%nat → (g <$> p) !!! k = 0) as Hk.
    { intros k Hk. destruct (lookup_lt_is_Some_2 p k) as [v Hv]; [lia|].
      rewrite (list_lookup_total_correct (g <$> p) k (g v)).
      - apply Hg. unfold flat3.
        apply list_elem_of_In, in_concat. exists p. split.
        + apply in_concat. exists row.
          split; apply list_elem_of_In; by eapply list_elem_of_lookup_2.
        + apply list_elem_of_In. by eapply list_elem_of_lookup_2.
      - by rewrite list_lookup_fmap, Hv. }
    by rewrite !Hk by lia.
  - (* a range of positive width *)
    intros Hwide. rewrite Hm in Hwide.
    assert (Qc_of_Z 0 < m)%Qc as Hpos.
    { apply Qcle_lt_or_eq in Hm0 as [?|Heq]; [done|].
      destruct Hwide. by rewrite <-Heq. }
    assert (feqb (Fin m) fzero = false) as Hfeq.
    { simpl. apply bool_decide_eq_false. intros [= ->].
      by apply Qclt_not_eq in Hpos. }
    assert (g (Fin l) = 0) as Hg0.
    { unfold g, scale. rewrite Hfeq. simpl negb. cbv iota.
      rewrite fsub_self, fdiv_zero, fmul_zero_255 by done. done. }
    assert (g (Fin u) = 255) as Hg255.
    { unfold g, scale. rewrite Hfeq. simpl negb. cbv iota.
      rewrite Hm, fdiv_self, fmul_one_255 by done. done. }
    split.
    + destruct (elem_of_flat3 x (Fin l) h w 3 Hshape Hlo)
        as (j & i & k & row & p & Hj & Hi & Hk & ? & ? & ?).
      exists i, j. split; [done|]. split; [done|].
      rewrite <-Hg0. by eapply Hpixel.
    + destruct (elem_of_flat3 x (Fin u) h w 3 Hshape Hhi)
        as (j & i & k & row & p & Hj & Hi & Hk & ? & ? & ?).
      exists i, j. split; [done|]. split; [done|].
      rewrite <-Hg255. by eapply Hpixel.
Qed.
End Rescaling.

(** ** The range of the network input *)

Section Input_range.
Context `{Rounding, Libraries}.
Hypothesis rnd_mono : rnd_monotone.
Hypothesis rnd_int : rnd_exact_on_integers.

Lemma half_255_pos : (Qc_of_Z 0 < Qc_of_Z 255 / Qc_of_Z 2)%Qc.
Proof. done. Qed.

Lemma preprocess_value_byte (z : Z) :
  0 ≤ z ≤ 255 → in_signed_unit_interval (preprocess_value (fl_of_Z z)).
Proof.
  intros Hz. unfold preprocess_value. unfold fl_of_Z at 1.
  set (d := (Qc_of_Z z / (Qc_of_Z 255 / Qc_of_Z 2))%Qc).
  assert (fdiv (Fin (Qc_of_Z z)) (Fin (Qc_of_Z 255 / Qc_of_Z 2)%Qc) = rnd d)
    as ->.
  { unfold fdiv. by rewrite (Qc_sign_pos _ half_255_pos). }
  assert (Qc_of_Z 0 ≤ d)%Qc as Hd0.
  { unfold d, Qcdiv. rewrite Z2Qc_inj_0.
    apply Qcmult_nonneg_nonneg; [|done].
    rewrite <-Z2Qc_inj_0. apply (Z2Qc_inj_le 0 z). lia. }
  assert (d ≤ Qc_of_Z 2)%Qc as Hd2.
  { unfold d, Qcdiv.
    replace (Qc_of_Z 2) with (Qc_of_Z 255 * / (Qc_of_Z 255 / Qc_of_Z 2))%Qc
      by (by apply Qc_is_canon).
    apply Qcmult_le_compat_r; [|done]. apply (Z2Qc_inj_le z 255). lia. }
  pose proof (rnd_mono _ _ Hd0) as Hlo. pose proof (rnd_mono _ _ Hd2) as Hhi.
  rewrite (rnd_int 0) in Hlo by done. rewrite (rnd_int 2) in Hhi by done.
  destruct (rnd d) as [e| | |]; try done. simpl in Hlo, Hhi.
  apply bool_decide_eq_true in Hlo, Hhi.
  unfold in_signed_unit_interval. split.
  - rewrite <-(rnd_int (-1)) by done. simpl. apply rnd_mono.
    replace (Qc_of_Z (-1)) with (Qc_of_Z 0 + - Qc_of_Z 1)%Qc
      by (by apply Qc_is_canon).
    by apply Qcplus_le_compat.
  - rewrite <-(rnd_1 rnd_int) at 2. simpl. apply rnd_mono.
    replace (Qc_of_Z 1) with (Qc_of_Z 2 + - Qc_of_Z 1)%Qc at 2
      by (by apply Qc_is_canon).
    by apply Qcplus_le_compat.
Qed.

Lemma preprocess_value_black : preprocess_value (fl_of_Z 0) = fl_of_Z (-1).
Proof.
  unfold preprocess_value, fl_of_Z, fdiv.
  rewrite (Qc_sign_pos _ half_255_pos).
  replace (Qc_of_Z 0 / (Qc_of_Z 255 / Qc_of_Z 2))%Qc with (Qc_of_Z 0)
    by (by apply Qc_is_canon).
  rewrite (rnd_int 0) by done. unfold fl_of_Z. simpl.
  replace (Qc_of_Z 0 + - Qc_of_Z 1)%Qc with (Qc_of_Z (-1))
    by (by apply Qc_is_canon).
  by apply rnd_int.
Qed.

Lemma preprocess_value_white : preprocess_value (fl_of_Z 255) = fone.
Proof.
  unfold preprocess_value, fl_of_Z, fdiv.
  rewrite (Qc_sign_pos _ half_255_pos).
  replace (Qc_of_Z 255 / (Qc_of_Z 255 / Qc_of_Z 2))%Qc with (Qc_of_Z 2)
    by (by apply Qc_is_canon).
  rewrite (rnd_int 2) by done. unfold fl_of_Z. simpl.
  replace (Qc_of_Z 2 + - Qc_of_Z 1)%Qc with (Qc_of_Z 1)
    by (by apply Qc_is_canon).
  by apply rnd_int.
Qed.

Lemma img_to_array_bytes (img : pil_image) (P : fl → Prop) :
  (∀ x y, (x < width img)%nat → (y < height img)%nat →
     byte_pixel (getpixel img x y)) →
  (∀ z, 0 ≤ z ≤ 255 → P (fl_of_Z z)) →
  Forall (Forall (Forall P)) (img_to_array img).
Proof.
  intros Hbytes HP. unfold img_to_array.
  apply Forall_fmap, Forall_forall. intros y Hy%elem_of_seq.
  apply Forall_fmap, Forall_forall. intros x Hx%elem_of_seq. simpl.
  destruct (Hbytes x y) as (Hr & Hg & Hb); [lia..|].
  repeat constructor; by apply HP.
Qed.

(** X9: the tensor handed to the network lies in [-1, 1].  For every
    upload that decodes to an image of bytes, every entry of the
    preprocessed batch is at least -1 and at most 1; a channel of 0 is
    sent to exactly -1 and a channel of 255 to exactly 1. *)
Theorem network_input_lies_between_minus_one_and_one
    (uploaded_file : bytes) (src : pil_image) :
  pil_open uploaded_file = Some src →
  (0 < width src)%nat → (0 < height src)%nat →
  (∀ x y, (x < width src)%nat → (y < height src)%nat →
     byte_pixel (getpixel src x y)) →
  ∃ img img_array,
    load_and_preprocess uploaded_file = Ok (img, img_array) ∧
    Forall (Forall (Forall (Forall in_signed_unit_interval))) img_array ∧
    preprocess_value (fl_of_Z 0) = fl_of_Z (-1) ∧
    preprocess_value (fl_of_Z 255) = fone.
Proof.
  intros Hopen Hw Hh Hbytes.
  assert (∀ img : pil_image,
    (∀ x y, (x < width img)%nat → (y < height img)%nat →
       byte_pixel (getpixel img x y)) →
    Forall (Forall (Forall (Forall in_signed_unit_interval)))
      (preprocess_input (expand_dims (img_to_array img)))) as Hrange.
  { intros img Himg. unfold preprocess_input, expand_dims.
    apply Forall_fmap. constructor; [|constructor]. simpl.
    unfold map3, map2. apply Forall_fmap.
    eapply Forall_impl;
      [apply (img_to_array_bytes img
         (λ v, in_signed_unit_interval (preprocess_value v)));
       [done|apply preprocess_value_byte]|].
    intros row Hrow. simpl. apply Forall_fmap.
    eapply Forall_impl; [exact Hrow|]. intros p Hp. simpl.
    by apply Forall_fmap. }
  unfold load_and_preprocess, load_img. rewrite Hopen.
  cbn [of_option mbind mret result_bind result_ret].
  case_decide as Hsize; cbn [mbind mret result_bind result_ret].
  - exists src. eexists. split; [done|]. split; [by apply Hrange|].
    split; [apply preprocess_value_black|apply preprocess_value_white].
  - eexists. eexists. split; [done|]. split.
    + apply Hrange. intros x y Hx Hy. simpl in *.
      apply Hbytes; by apply nearest_source_lt.
    + split; [apply preprocess_value_black|apply preprocess_value_white].
Qed.
End Input_range.

(** ** Nearest-neighbour resizing *)

Lemma nearest_source_replicates (n k i : nat) :
  (0 < n)%nat → (0 < k)%nat →
  nearest_source n (k * n) i = (i `div` k)%nat.
Proof.
  intros Hn Hk. unfold nearest_source.
  replace (2 * (k * n))%nat with ((2 * k) * n)%nat by lia.
  rewrite Nat.Div0.div_mul_cancel_r by lia.
  rewrite <-Nat.Div0.div_div.
  replace (2 * i + 1)%nat with (1 + i * 2)%nat by lia.
  by rewrite Nat.div_add by lia.
Qed.

Lemma nearest_source_decimates (n k i : nat) :
  (0 < n)%nat → (0 < k)%nat →
  nearest_source (k * n) n i = (k * i + k `div` 2)%nat.
Proof.
  intros Hn Hk. unfold nearest_source.
  replace ((2 * i + 1) * (k * n))%nat with (((2 * i + 1) * k) * n)%nat by lia.
  rewrite Nat.Div0.div_mul_cancel_r by lia.
  replace ((2 * i + 1) * k)%nat with (k + (k * i) * 2)%nat by lia.
  rewrite Nat.div_add by lia. lia.
Qed.

Section Resizing.
Context `{Libraries}.

(** X10: enlarging by a whole factor repeats the pixels.  When 224 is a
    whole multiple of each side of the decoded upload, [kx] times the
    width and [ky] times the height, the pixel [(x, y)] of the image
    [load_img] returns is the pixel [(x / kx, y / ky)] of the upload:
    every pixel of the upload is repeated in a block of [kx] by [ky]
    pixels, none is lost and none is mixed with another. *)
Theorem enlarging_repeats_every_pixel (uploaded_file : bytes)
    (src : pil_image) (kx ky : nat) :
  pil_open uploaded_file = Some src →
  (kx * width src)%nat = 224%nat → (ky * height src)%nat = 224%nat →
  ∃ img,
    load_img uploaded_file (Some target_size) = Ok img ∧
    (∀ x y, (x < 224)%nat → (y < 224)%nat →
       getpixel img x y = getpixel src (x `div` kx)%nat (y `div` ky)%nat) ∧
    (∀ x y, (x < width src)%nat → (y < height src)%nat →
       ∀ dx dy, (dx < kx)%nat → (dy < ky)%nat →
         (kx * x + dx < 224)%nat ∧ (ky * y + dy < 224)%nat ∧
         getpixel img (kx * x + dx)%nat (ky * y + dy)%nat
         = getpixel src x y).
Proof.
  intros Hopen Hkx Hky.
  assert (∃ img,
    load_img uploaded_file (Some target_size) = Ok img ∧
    ∀ x y, getpixel img x y
           = getpixel src (x `div` kx)%nat (y `div` ky)%nat)
    as (img & Himg & Hpixel).
  { unfold load_img. rewrite Hopen.
    cbn [of_option mbind mret result_bind result_ret].
    case_decide as Hsize; cbn [mbind mret result_bind result_ret].
    - injection Hsize as Hwidth Hheight. exists src. split; [done|].
      intros x y.
      assert (kx = 1%nat) as -> by nia. assert (ky = 1%nat) as -> by nia.
      by rewrite !Nat.div_1_r.
    - eexists. split; [done|]. intros x y.
      change (getpixel src (nearest_source (width src) 224 x)
                (nearest_source (height src) 224 y)
              = getpixel src (x `div` kx)%nat (y `div` ky)%nat).
      rewrite <-Hkx at 1. rewrite <-Hky at 1.
      rewrite !nearest_source_replicates; [done|nia..]. }
  exists img. split; [done|]. split; [by intros x y _ _|].
  intros x y Hx Hy dx dy Hdx Hdy.
  split; [nia|]. split; [nia|]. rewrite Hpixel. f_equal.
  - rewrite (Nat.mul_comm kx x), Nat.div_add_l by lia.
    rewrite Nat.div_small by done. lia.
  - rewrite (Nat.mul_comm ky y), Nat.div_add_l by lia.
    rewrite Nat.div_small by done. lia.
Qed.

(** X11: shrinking by a whole factor neither averages nor interpolates.
    When the decoded upload is [kx] times 224 pixels wide and [ky]
    times 224 pixels high, the pixel [(x, y)] of the image [load_img]
    returns is the one pixel [(kx x + kx/2, ky y + ky/2)] of the upload,
    the centre of a block of [kx] by [ky] pixels: the other pixels of
    the block do not reach the network. *)
Theorem shrinking_samples_the_block_centres (uploaded_file : bytes)
    (src : pil_image) (kx ky : nat) :
  pil_open uploaded_file = Some src →
  (0 < kx)%nat → (0 < ky)%nat →
  width src = (kx * 224)%nat → height src = (ky * 224)%nat →
  ∃ img,
    load_img uploaded_file (Some target_size) = Ok img ∧
    ∀ x y, getpixel img x y
           = getpixel src (kx * x + kx `div` 2)%nat
                          (ky * y + ky `div` 2)%nat.
Proof.
  intros Hopen Hkx Hky Hw Hh. unfold load_img. rewrite Hopen.
  cbn [of_option mbind mret result_bind result_ret].
  case_decide as Hsize; cbn [mbind mret result_bind result_ret].
  - injection Hsize as Hwidth Hheight. exists src. split; [done|].
    assert (kx = 1%nat) as -> by lia. assert (ky = 1%nat) as -> by lia.
    intros x y. simpl. by rewrite !Nat.add_0_r.
  - eexists. split; [done|]. intros x y.
    change (getpixel src (nearest_source (width src) 224 x)
              (nearest_source (height src) 224 y)
            = getpixel src (kx * x + kx `div` 2)%nat
                (ky * y + ky `div` 2)%nat).
    rewrite Hw, Hh. by rewrite !nearest_source_decimates by lia.
Qed.
End Resizing.

(** ** The overlay is total *)

Section Overlay_total.
Context `{Rounding, Libraries}.

Lemma array_to_img_byte_pixels (x : tensor3) (img : pil_image) (h w : nat) :
  has_shape3 x h w 3 → array_to_img x = Ok img →
  ∀ i j, (i < w)%nat → (j < h)%nat → byte_pixel (getpixel img i j).
Proof.
  intros Hshape Himg i j Hi Hj. unfold array_to_img in Himg.
  apply bind_Ok_inv in Himg as (x_min & _ & Himg).
  apply bind_Ok_inv in Himg as (x_max & _ & Himg).
  case_decide as Hc; [|done]. injection Himg as <-.
  set (x3 := map3 (λ v, fmul v (fl_of_Z 255)) _).
  assert (has_shape3 x3 h w 3) as [Hlen Hrows].
  { unfold x3. apply has_shape3_fmap. case_match; [|by apply has_shape3_fmap].
    by do 2 apply has_shape3_fmap. }
  destruct (lookup_lt_is_Some_2 x3 j) as [row Hrow]; [lia|].
  rewrite Forall_forall in Hrows.
  destruct (Hrows row (list_elem_of_lookup_2 _ _ _ Hrow)) as [Hwidth Hcells].
  destruct (lookup_lt_is_Some_2 row i) as [p Hp]; [lia|].
  rewrite Forall_forall in Hcells.
  pose proof (Hcells p (list_elem_of_lookup_2 _ _ _ Hp)) as Hp3.
  simpl in Hp3.
  rewrite (fromarray_getpixel _ i j (map2 np_uint8 row) (np_uint8 <$> p)).
  2: { unfold map3. by rewrite list_lookup_fmap, Hrow. }
  2: { unfold map2. by rewrite list_lookup_fmap, Hp. }
  assert (∀ k, (k < 3)%nat → 0 ≤ (np_uint8 <$> p) !!! k ≤ 255) as Hk.
  { intros k Hk. destruct (lookup_lt_is_Some_2 p k) as [v Hv]; [lia|].
    rewrite (list_lookup_total_correct (np_uint8 <$> p) k (np_uint8 v)).
    - apply np_uint8_range.
    - by rewrite list_lookup_fmap, Hv. }
  repeat split; simpl; apply Hk; lia.
Qed.

(** X12: the overlay never fails on the values of its arguments.  For
    an image array of shape (h, w, 3) and a heatmap that is a non-empty
    rectangle, whatever floats they and [alpha] hold (NaN, infinities
    and heatmap values outside [0, 1] included), the renderer returns an
    image of width [w] and height [h] whose channels are bytes. *)
Theorem overlay_never_fails_on_values (img : tensor3) (heatmap : tensor2)
    (alpha : fl) (h w h' w' : nat) :
  jet_table_ok →
  has_shape3 img h w 3 → (0 < h)%nat → (0 < w)%nat →
  has_shape2 heatmap h' w' → (0 < h')%nat → (0 < w')%nat →
  ∃ out,
    overlay_heatmap_on_image img heatmap alpha = Ok out ∧
    pil_size out = (w, h) ∧
    ∀ i j, (i < w)%nat → (j < h)%nat → byte_pixel (getpixel out i j).
Proof.
  intros Hjet Himg Hh Hw Hheat Hh' Hw'.
  destruct (has_shape3_dims img h w 3) as (Hlen & Hdim1 & _); [done..|].
  destruct (resized_jet_heatmap_ok img heatmap h' w')
    as (jet & Hjet_ok & Hshape & _); [done..|].
  rewrite Hlen, Hdim1 in Hshape.
  unfold overlay_heatmap_on_image. rewrite Hjet_ok.
  cbn [mbind mret result_bind result_ret].
  rewrite (np_add_same_shape _ img h w 3);
    [|by apply has_shape3_fmap|done..].
  cbn [mbind mret result_bind result_ret].
  set (blend := zip_with _ _ _).
  assert (has_shape3 blend h w 3) as Hblend.
  { apply zip_with_shape3; [by apply has_shape3_fmap|done]. }
  destruct (array_to_img_ok blend h w) as (out & Hout & Hsize); [done..|].
  exists out. split; [done|]. split; [done|].
  by eapply array_to_img_byte_pixels.
Qed.
End Overlay_total.

(** ** The report on the page *)

Lemma streamlit_bind_quiet_ok {A B} (a : A) (k : A → streamlit B) page :
  (quiet (Ok a) ≫= k) page = k a page.
Proof. done. Qed.
Lemma streamlit_bind_quiet_raise {A B} (e : exn) (k : A → streamlit B) page :
  (quiet (Raise e) ≫= k) page = (Raise e, page).
Proof. done. Qed.
Lemma streamlit_bind_draw {B} (p : place) (e : element)
    (k : unit → streamlit B) page :
  (draw p e ≫= k) page = k () (page ++ [(p, e)]).
Proof. done. Qed.

Section Report.
Context `{Rounding, Libraries}.

Lemma confidence_chart_five (predictions : tensor1) :
  length predictions = 5%nat →
  ∃ fig,
    confidence_chart (prediction_probabilities predictions) = Ok fig ∧
    bars predictions = Ok (fig_bars fig) ∧
    fig_bars fig = zip class_names (prediction_probabilities predictions) ∧
    length (fig_texts fig) = 5%nat.
Proof.
  intros Hlen. unfold bars, confidence_chart, plt_barh.
  assert (length class_names = length (prediction_probabilities predictions))
    as Heq.
  { unfold prediction_probabilities. by rewrite length_fmap, Hlen. }
  rewrite !decide_True by done.
  cbn [mbind mret result_bind result_ret]. eexists. split; [done|].
  split; [done|]. split; [done|]. cbn [fig_texts].
  rewrite length_imap, !length_zip_with. rewrite <-Heq.
  change (length class_names) with 5%nat. lia.
Qed.

(** X14: what an upload puts on the page.  With a colour table of 256
    colours and a network as the script expects it (five probabilities
    without NaN, feature maps over a grid of at least two rows and two
    columns), an upload that does not decode adds one element to the
    page, the error that carries the exception of the decoder, and
    nothing is predicted; an upload that decodes adds, in this order, the
    result heading, the metric with the grade and the confidence of the
    pipeline written with two decimals, the upload and the overlay side
    by side, and the bar chart with one bar and one text per grade.  In
    both cases the section returns normally. *)
Theorem upload_is_reported_or_explained
    (model_predict : tensor4 → tensor2) (grad_model : grad_model_t)
    (content : bytes) (page : list (place * element)) :
  jet_table_ok → network_ok model_predict grad_model →
  (pil_open content = None →
     upload_section model_predict grad_model (Some content) page
     = (Ok (),
        page ++ [(Main, st_error "Error processing the image: "
                          UnidentifiedImageError)])) ∧
  (∀ src, pil_open content = Some src →
     ∃ report fig,
       pipeline model_predict grad_model content = Ok report ∧
       fig_bars fig = page_bars report ∧
       length (fig_texts fig) = 5%nat ∧
       upload_section model_predict grad_model (Some content) page
       = (Ok (),
          page ++
          [(Main, st_subheader "Prediction Result ✅");
           (Main, st_metric "Predicted Severity Level"
                    (page_predicted_class report)
                    ("Confidence: " +:+ format_2f (page_confidence report)
                       +:+ "%"));
           (Column 0, st_subheader "📸 Input Image");
           (Column 0, st_image_upload content "Uploaded X-ray Image");
           (Column 1, st_subheader "📊 Explainability with Grad-CAM");
           (Column 1, st_image (page_heatmap_overlay report)
                        "Grad-CAM Heatmap");
           (Main, st_subheader "📈 Prediction Confidence Levels");
           (Main, st_pyplot fig)])).
Proof.
  intros Hjet Hnet. split.
  - intros Hopen. unfold upload_section, try_except, analyse_upload, load_img.
    rewrite Hopen. done.
  - intros src Hopen.
    destruct (pipeline_ok model_predict grad_model content src)
      as [report Hreport]; [done..|].
    pose proof Hreport as Hrun. unfold pipeline in Hrun.
    apply bind_Ok_inv in Hrun as ([img img_array] & Hload & Hrun).
    apply bind_Ok_inv in Hrun as (predictions & Hpred & Hrun).
    apply bind_Ok_inv in Hrun as (label & Hlabel & Hrun).
    apply bind_Ok_inv in Hrun as (delta & Hdelta & Hrun).
    apply bind_Ok_inv in Hrun as (heatmap & Hheat & Hrun).
    apply bind_Ok_inv in Hrun as (overlay & Hoverlay & Hrun).
    apply bind_Ok_inv in Hrun as (bar_list & Hbars & Hrun).
    injection Hrun as <-.
    unfold load_and_preprocess in Hload.
    apply bind_Ok_inv in Hload as (img' & Himg & Hload).
    cbv zeta in Hload. injection Hload as -> <-.
    destruct (Hnet [map3 preprocess_value (img_to_array img)])
      as [(probs & rest & Hpredict & Hprobs & Hnan) _].
    assert (predictions = probs) as ->.
    { rewrite Hpredict in Hpred. by injection Hpred. }
    destruct (confidence_chart_five probs Hprobs)
      as (fig & Hfig & Hfigbars & _ & Htexts).
    eexists. exists fig. split; [exact Hreport|]. simpl.
    split; [congruence|]. split; [done|].
    unfold upload_section, try_except, analyse_upload.
    rewrite Himg, streamlit_bind_quiet_ok. cbv zeta.
    change (preprocess_input (expand_dims (img_to_array img)))
      with [map3 preprocess_value (img_to_array img)].
    rewrite Hpred, streamlit_bind_quiet_ok.
    assert (np_argmax probs = Ok (argmax probs)) as Hargmax.
    { apply np_argmax_no_nan; [by destruct probs|done]. }
    unfold predicted_class in Hlabel. rewrite Hargmax in Hlabel.
    cbn [mbind result_bind] in Hlabel.
    rewrite Hargmax, streamlit_bind_quiet_ok. rewrite Hlabel.
    rewrite streamlit_bind_quiet_ok, streamlit_bind_draw.
    unfold confidence in Hdelta. rewrite Hdelta.
    rewrite streamlit_bind_quiet_ok, streamlit_bind_draw.
    rewrite Hheat, streamlit_bind_quiet_ok.
    rewrite Hoverlay, streamlit_bind_quiet_ok.
    rewrite !streamlit_bind_draw.
    rewrite Hfig, streamlit_bind_quiet_ok. unfold draw.
    by rewrite <-!app_assoc.
Qed.
End Report.

(** ** The confidence in the metric and in the chart *)

Lemma round_half_even_nearest (q : Q) :
  (Qabs (inject_Z (round_half_even q) - q) <= 1 # 2)%Q.
Proof.
  unfold round_half_even.
  pose proof (Qfloor_le q) as Hlo. pose proof (Qlt_floor q) as Hhi.
  rewrite inject_Z_plus in Hhi. change (inject_Z 1) with 1%Q in Hhi.
  apply Qabs_Qle_condition.
  destruct (Qcompare_spec (q - inject_Z (Qfloor q)) (1 # 2)) as [Heq|Hlt|Hgt];
    cbv beta iota.
  - destruct (Z.even (Qfloor q)); rewrite ?inject_Z_plus;
      change (inject_Z 1) with 1%Q; split; lra.
  - split; lra.
  - rewrite inject_Z_plus. change (inject_Z 1) with 1%Q. split; lra.
Qed.

Section Shown_confidence.
Context `{Rounding, Libraries}.
Hypothesis rnd_mono : rnd_monotone.

Lemma confidence_chart_equal_lengths (widths : tensor1) :
  length widths = 5%nat →
  confidence_chart widths
  = Ok {| fig_bars := zip class_names widths;
          fig_xlim := (0, 100);
          fig_xlabel := "Confidence (%)";
          fig_title := "Prediction Confidence Levels";
          fig_texts :=
            imap (λ i '(bar, prob),
                    (fadd prob (fl_of_Z 2), i, format_2f prob +:+ "%"))
                 (zip (zip class_names widths) widths) |}.
Proof.
  intros Hlen. unfold confidence_chart, plt_barh.
  by rewrite decide_True by (by rewrite Hlen).
Qed.

(** X15: the confidence under the grade is the text beside the longest
    bar.  For five probabilities without NaN, the number of the metric
    is the maximum of the percentages; the bar of the predicted grade
    has that width and no bar is longer; the text beside that bar is
    the same two-decimal text as in the metric, placed two units right
    of the end of the bar; and one hundred times the magnitude of a
    finite confidence differs from the hundredths that are written by
    at most one half. *)
Theorem shown_confidence_labels_the_longest_bar (predictions : tensor1) :
  length predictions = 5%nat →
  Forall (λ p, is_nan p = false) predictions →
  ∃ fig top name,
    confidence predictions = Ok top ∧
    confidence_chart (prediction_probabilities predictions) = Ok fig ∧
    predicted_class predictions = Ok name ∧
    fig_bars fig !! argmax predictions = Some (name, top) ∧
    (∀ bar, bar ∈ fig_bars fig → fleb bar.2 top = true) ∧
    fig_texts fig !! argmax predictions
      = Some (fadd top (fl_of_Z 2), argmax predictions,
              format_2f top +:+ "%") ∧
    (∀ q : Qc, top = Fin q →
       (Qabs (inject_Z (hundredths q) - Qabs q * inject_Z 100) <= 1 # 2)%Q).
Proof.
  intros Hlen Hnan.
  assert (predictions ≠ []) as Hne by (by destruct predictions).
  destruct (argmax_spec predictions Hne Hnan) as (p & Hp & Hmax).
  pose proof (argmax_lt_length predictions Hne) as Hlt. rewrite Hlen in Hlt.
  destruct (class_names !! argmax predictions) as [name|] eqn:Hname.
  2: { apply lookup_ge_None in Hname.
       change (length class_names) with 5%nat in Hname. lia. }
  assert (Qc_of_Z 0 < Qc_of_Z 100)%Qc as H100 by done.
  set (widths := prediction_probabilities predictions).
  set (top := fmul (fl_of_Z 100) p).
  assert (widths !! argmax predictions = Some top) as Htop.
  { unfold widths, prediction_probabilities.
    by rewrite list_lookup_fmap, Hp. }
  assert (∀ y, y ∈ widths → fleb y top = true) as Hub.
  { intros y (q & -> & Hq)%list_elem_of_fmap.
    apply (fmul_positive_mono rnd_mono); [done|]. by apply Hmax. }
  assert (np_max widths = Ok top) as Hconf.
  { apply np_max_greatest; [| |done].
    - apply Forall_fmap. eapply Forall_impl; [done|]. intros q Hq. simpl.
      by apply (fmul_positive_not_nan rnd_mono).
    - by eapply list_elem_of_lookup_2. }
  assert (length widths = 5%nat) as Hwidths.
  { unfold widths, prediction_probabilities. by rewrite length_fmap. }
  eexists. exists top, name.
  split; [exact Hconf|].
  split; [by apply confidence_chart_equal_lengths|].
  split.
  { unfold predicted_class. rewrite np_argmax_no_nan by done.
    cbn [mbind result_bind]. by rewrite Hname. }
  cbn [fig_bars fig_texts]. split; [|split; [|split]].
  - apply lookup_zip_with_Some. by exists name, top.
  - intros [bar_name w] Hbar. simpl. apply Hub.
    apply list_elem_of_lookup in Hbar as [i Hi]. unfold zip in Hi.
    apply lookup_zip_with_Some in Hi as (? & ? & [= <- <-] & _ & Hw).
    by eapply list_elem_of_lookup_2.
  - rewrite list_lookup_imap.
    assert (zip (zip class_names widths) widths !! argmax predictions
            = Some ((name, top), top)) as ->; [|done].
    apply lookup_zip_with_Some. exists (name, top), top.
    split; [done|]. split; [|done].
    apply lookup_zip_with_Some. by exists name, top.
  - intros q _. apply round_half_even_nearest.
Qed.
End Shown_confidence.

(** ** The script as a whole *)

Ltac split_membership H :=
  repeat first
    [ apply elem_of_app in H as [H|H]
    | apply elem_of_cons in H as [H|H]
    | apply elem_of_nil in H as [] ].

Section Script_outcomes.
Context `{Rounding, Libraries, OperatingSystem}.

Lemma streamlit_bind_draws {A B} (P : place * element → Prop)
    (m : streamlit A) (k : A → streamlit B) (page : list (place * element)) :
  (∀ page, ∃ more, (m page).2 = page ++ more ∧ Forall P more) →
  (∀ a page, ∃ more, (k a page).2 = page ++ more ∧ Forall P more) →
  ∃ more, ((m ≫= k) page).2 = page ++ more ∧ Forall P more.
Proof.
  intros Hm Hk. unfold mbind, streamlit_bind.
  destruct (Hm page) as (more & Hmore & HP).
  destruct (m page) as [[a|e] page']; simpl in *; subst.
  - destruct (Hk a (page ++ more)) as (more' & -> & HP').
    exists (more ++ more'). split; [by rewrite app_assoc|].
    by apply Forall_app.
  - by exists more.
Qed.

(** The section on the upload returns normally; what it draws is added
    after what is on the page, and is no notice of a download. *)
Lemma upload_section_returns (model_predict : tensor4 → tensor2)
    (grad_model : grad_model_t) (uploaded_file : option bytes)
    (page : list (place * element)) :
  ∃ more,
    upload_section model_predict grad_model uploaded_file page
    = (Ok (), page ++ more) ∧
    Forall (λ x, x ≠ (Main, st_info "Downloading model. Please wait..."))
      more.
Proof.
  set (P := λ x : place * element,
    x ≠ (Main, st_info "Downloading model. Please wait...")).
  destruct uploaded_file as [content|].
  2: { eexists. split; [done|]. by repeat constructor. }
  unfold upload_section, try_except.
  assert (∃ more,
    (analyse_upload model_predict grad_model content page).2 = page ++ more
    ∧ Forall P more) as (more & Hmore & HP).
  { unfold analyse_upload.
    repeat first
      [ progress cbv zeta
      | apply streamlit_bind_draws;
          [intros ?;
           first [ eexists; split; [done|]; by repeat constructor
                 | exists []; split; [by rewrite app_nil_r|done] ]
          |intros ? ?] ].
    eexists. split; [done|]. by repeat constructor. }
  destruct (analyse_upload _ _ _ _) as [[[]|e] page']; simpl in Hmore; subst.
  - by exists more.
  - unfold draw. exists (more ++ [(Main, st_error
      "Error processing the image: " e)]). split; [by rewrite app_assoc|].
    apply Forall_app. split; [done|]. by repeat constructor.
Qed.

Lemma sidebar_images_draws (image : string → image_outcome) :
  Forall (λ x, ∃ e, x.2 = e ∧
            match e with
            | st_image_file _ _ _ | st_warning _ => True
            | _ => False
            end) (sidebar_images image).1.
Proof.
  unfold sidebar_images.
  repeat case_match; simpl; repeat constructor; by eexists.
Qed.

Lemma script_with_model_file_outcomes (env : environment) (fs : filesystem)
    (page : list (place * element)) :
  let uploader :=
    (Sidebar, st_file_uploader "Upload an X-ray image"
                ["png"; "jpg"; "jpeg"]) in
  let notice := (Main, st_info "Downloading model. Please wait...") in
  let out := script_with_model_file env fs page in
  is_Some (fs !! MODEL_PATH) → uploader ∉ page →
  out.1.1 = fs ∧
  (out.2 = Completed ↔ uploader ∈ out.1.2) ∧
  (out.2 = Completed →
     ∃ content model grad_model,
       fs !! MODEL_PATH = Some content ∧
       env_load_model env (Some content) = Ok model ∧
       km_grad_model model = Ok grad_model) ∧
  (out.2 = Stopped →
     ∃ before body e, out.1.2 = before ++ [(Main, st_error body e)]) ∧
  (notice ∉ page → notice ∉ out.1.2).
Proof.
  intros uploader notice out [content Hfile] Hpage.
  unfold out, script_with_model_file. clear out. rewrite Hfile.
  pose proof (sidebar_images_draws (env_sidebar_image env)) as Hside.
  destruct (sidebar_images (env_sidebar_image env)) as [images failure].
  simpl in Hside.
  assert ((uploader ∉ images) ∧ (notice ∉ images)) as [Himg1 Himg2].
  { rewrite Forall_forall in Hside.
    split; intros Hin; destruct (Hside _ Hin) as (e & <- & He); done. }
  destruct (env_load_model env (Some content)) as [model|e] eqn:Hload.
  2: { simpl. split; [done|]. split; [|split; [done|split]].
       - split; [done|]. intros Hin. by split_membership Hin.
       - intros _. by eexists _, _, _.
       - intros Hn Hin. by split_membership Hin. }
  destruct (km_grad_model model) as [grad_model|e] eqn:Hgrad.
  2: { simpl. split; [done|]. split; [|split; [done|split]].
       - split; [done|]. intros Hin. by split_membership Hin.
       - intros _. by eexists _, _, _.
       - intros Hn Hin. by split_membership Hin. }
  destruct failure as [e|].
  { simpl. split; [done|]. split; [|split; [done|split; [done|]]].
    - split; [done|]. intros Hin. by split_membership Hin.
    - intros Hn Hin. by split_membership Hin. }
  cbv zeta.
  destruct (upload_section_returns (km_predict model) grad_model
    (env_uploaded_file env)
    ((page ++ [(Main, st_success "Model loaded successfully!")]) ++
     images ++ [uploader; (Main, st_title "OSTEO VISION")]))
    as (more & Hmore & Hdraws).
  fold uploader. rewrite Hmore.
  simpl. split; [done|]. split; [|split; [|split; [done|]]].
  - split; [|done]. intros _. rewrite !elem_of_app.
    left. right. right. left.
  - intros _. by exists content, model, grad_model.
  - intros Hn Hin. rewrite Forall_forall in Hdraws.
    split_membership Hin; try done. by apply (Hdraws _ Hin).
Qed.

(** X16: the script reaches the uploader only with a model.  A run ends
    at the last line exactly when the uploader is on the page, and then
    the model file exists, Keras has loaded it and the Grad-CAM model
    was built from it; a run that ends at [st.stop()] ends the page with
    the error that explains why; and a run that finds the model file
    writes nothing and announces no download. *)
Theorem script_reaches_the_uploader_only_with_a_model
    (env : environment) (fs : filesystem) :
  let uploader :=
    (Sidebar, st_file_uploader "Upload an X-ray image"
                ["png"; "jpg"; "jpeg"]) in
  let out := script env fs in
  (out.2 = Completed ↔ uploader ∈ out.1.2) ∧
  (out.2 = Completed →
     ∃ content model grad_model,
       out.1.1 !! MODEL_PATH = Some content ∧
       env_load_model env (Some content) = Ok model ∧
       km_grad_model model = Ok grad_model) ∧
  (out.2 = Stopped →
     ∃ before body e, out.1.2 = before ++ [(Main, st_error body e)]) ∧
  (is_Some (fs !! MODEL_PATH) →
     out.1.1 = fs ∧
     (Main, st_info "Downloading model. Please wait...") ∉ out.1.2).
Proof.
  intros uploader out. unfold out, script, ensure_model. clear out.
  set (notice := (Main, st_info "Downloading model. Please wait...")).
  destruct (fs !! MODEL_PATH) as [content|] eqn:Hfile.
  - destruct (script_with_model_file_outcomes env fs [])
      as (Hfs & Hdone & Hmodel & Hstop & Hnotice).
    { by rewrite Hfile. } { by intros ?%elem_of_nil. }
    split; [done|]. split; [by rewrite Hfs|]. split; [done|]. intros _.
    split; [done|]. apply Hnotice. by intros ?%elem_of_nil.
  - assert (∀ fs' e,
      let out : filesystem * list (place * element) * outcome :=
        (fs', [notice], Uncaught e) in
      (out.2 = Completed ↔ uploader ∈ out.1.2) ∧
      (out.2 = Completed →
         ∃ content model grad_model,
           out.1.1 !! MODEL_PATH = Some content ∧
           env_load_model env (Some content) = Ok model ∧
           km_grad_model model = Ok grad_model) ∧
      (out.2 = Stopped →
         ∃ before body e, out.1.2 = before ++ [(Main, st_error body e)]) ∧
      (is_Some (@None bytes) →
         out.1.1 = fs ∧ notice ∉ out.1.2)) as Hraised.
    { intros fs' e. simpl.
      split; [|split; [done|split; [done|by intros [? ?]]]].
      split; [done|]. by intros ?%list_elem_of_singleton. }
    unfold download_model_from_url. case_decide as Hstatus.
    + destruct (open_error fs MODEL_PATH) as [e|]; [apply Hraised|].
      cbv zeta.
      destruct (write_error fs MODEL_PATH _) as [[written e]|];
        [apply Hraised|].
      destruct (iter_error (env_requests_get env MODEL_URL)) as [e|];
        [apply Hraised|].
      destruct (script_with_model_file_outcomes env
        (<[MODEL_PATH := write_chunks
             (iter_content (env_requests_get env MODEL_URL))]> fs)
        [notice]) as (Hfs & Hdone & Hmodel & Hstop & _).
      { rewrite lookup_insert_eq. by eexists. }
      { by intros ?%list_elem_of_singleton. }
      split; [done|]. split; [by rewrite Hfs|]. split; [done|].
      by intros [? ?].
    + apply Hraised.
Qed.
End Script_outcomes.

(** ** The explainer on a valid target *)

Section Valid_target.
Context `{Rounding}.

Lemma tf_getitem_first {A} `{Inhabited A} text (x : A) (l : list A) :
  tf_getitem text (x :: l) 0 = Ok x.
Proof.
  unfold tf_getitem, slice_index. rewrite decide_True; [done|].
  simpl. lia.
Qed.

Lemma slice_index_valid text (axis n : nat) (i : Z) :
  - Z.of_nat n ≤ i < Z.of_nat n →
  slice_index text axis n i = Ok (Z.to_nat (i `mod` Z.of_nat n)).
Proof.
  intros Hi. unfold slice_index.
  destruct (decide (0 ≤ i < Z.of_nat n)) as [Hpos|Hneg].
  - by rewrite Z.mod_small.
  - rewrite decide_True by lia. do 2 f_equal.
    apply Z.mod_unique with (q := -1); lia.
Qed.

(** X17: the explainer on a valid target.  When the network returns
    feature maps over a grid of [h] by [w] positions, [h] and [w] at
    least 2, and [n] class scores, the explainer returns a heatmap of
    [h] by [w] cells for the default target and for every target index
    from [-n] to [n - 1]; an index explains the class [index mod n], and
    the heatmap has the shape of the grid whatever the number of
    channels and the values are. *)
Theorem explainer_returns_a_map_of_the_grid (grad_model : grad_model_t)
    (img_array : tensor4) (activation_map : tensor3) (more_maps : tensor4)
    (scores : tensor1) (more_scores : tensor2) (h w : nat) :
  gm_call grad_model img_array
    = (activation_map :: more_maps, scores :: more_scores) →
  has_shape2 activation_map h w → (1 < h)%nat → (1 < w)%nat →
  scores ≠ [] →
  let n := Z.of_nat (length scores) in
  (∃ heatmap,
     make_gradcam_heatmap grad_model img_array None = Ok heatmap ∧
     has_shape2 heatmap h w) ∧
  (∀ target : Z, - n ≤ target < n →
     ∃ heatmap,
       make_gradcam_heatmap grad_model img_array (Some target)
         = Ok heatmap ∧
       has_shape2 heatmap h w ∧
       make_gradcam_heatmap grad_model img_array (Some (target `mod` n))
         = Ok heatmap).
Proof.
  intros Hcall [Hh Hw] _ _ Hne n.
  assert (∀ target : Z, - n ≤ target < n →
    ∃ heatmap,
      make_gradcam_heatmap grad_model img_array (Some target) = Ok heatmap ∧
      has_shape2 heatmap h w ∧
      make_gradcam_heatmap grad_model img_array (Some (target `mod` n))
        = Ok heatmap) as Htarget.
  { intros target Htarget.
    assert (0 ≤ target `mod` n < n) as Hmod.
    { apply Z.mod_pos_bound. lia. }
    unfold make_gradcam_heatmap, weighted_activation_map.
    rewrite Hcall. cbn [mbind mret result_bind result_ret].
    unfold tf_getitem_col. cbn [dim1].
    rewrite !slice_index_valid by (fold n; lia). fold n.
    rewrite Zmod_mod.
    cbn [mbind mret result_bind result_ret].
    rewrite tf_getitem_first. cbn [mbind mret result_bind result_ret].
    eexists. split; [done|]. split; [|done].
    apply has_shape2_fmap. unfold squeeze, matmul, map2. split.
    - by rewrite !length_fmap.
    - rewrite <-list_fmap_compose. apply Forall_fmap.
      eapply Forall_impl; [done|]. intros row Hrow. simpl.
      unfold matmul2. by rewrite !length_fmap. }
  split; [|done].
  destruct (Htarget (Z.of_nat (argmax scores))) as (heatmap & Hheat & Hshape & _).
  { pose proof (argmax_lt_length scores Hne). lia. }
  exists heatmap. split; [|done]. rewrite <-Hheat.
  unfold make_gradcam_heatmap, weighted_activation_map.
  rewrite Hcall. by rewrite tf_getitem_first.
Qed.
End Valid_target.

(** ** The chart and the limits of its axis *)

Lemma fleb_fltb_trans_r x y z :
  fltb x y = true → fleb y z = true → fltb x z = true.
Proof.
  destruct x as [a| | |], y as [b| | |], z as [c| | |]; try done; simpl.
  intros Hab%bool_decide_eq_true Hbc%bool_decide_eq_true.
  apply bool_decide_eq_true. by eapply Qclt_le_trans.
Qed.

Section Chart_limits.
Context `{Rounding, Libraries}.
Hypothesis rnd_mono : rnd_monotone.
Hypothesis rnd_int : rnd_exact_on_integers.

Lemma percentage_of_a_probability (p : fl) :
  in_unit_interval p →
  ∃ q, fmul (fl_of_Z 100) p = Fin q ∧
       (Qc_of_Z 0 ≤ q)%Qc ∧ (q ≤ Qc_of_Z 100)%Qc.
Proof.
  intros [Hge Hle]. destruct p as [a| | |]; try done.
  simpl in Hge, Hle. apply bool_decide_eq_true in Hge, Hle. simpl.
  assert (fleb (rnd (Qc_of_Z 0)) (rnd (Qc_of_Z 100 * a)%Qc) = true) as Hlo.
  { apply rnd_mono. rewrite Z2Qc_inj_0 in *.
    apply Qcmult_nonneg_nonneg; [done|done]. }
  assert (fleb (rnd (Qc_of_Z 100 * a)%Qc) (rnd (Qc_of_Z 100)) = true)
    as Hhi.
  { apply rnd_mono. rewrite <-(Qcmult_1_r (Qc_of_Z 100)) at 2.
    rewrite !(Qcmult_comm (Qc_of_Z 100)).
    apply Qcmult_le_compat_r; [by rewrite <-Z2Qc_inj_1|done]. }
  rewrite rnd_int in Hlo, Hhi by done.
  destruct (rnd (Qc_of_Z 100 * a)%Qc) as [q| | |]; try done.
  exists q. simpl in Hlo, Hhi. apply bool_decide_eq_true in Hlo, Hhi.
  done.
Qed.

Lemma text_position (q : Qc) (lo hi : Z) :
  - 2 ^ 24 ≤ lo + 2 ≤ 2 ^ 24 → - 2 ^ 24 ≤ hi + 2 ≤ 2 ^ 24 →
  (Qc_of_Z lo ≤ q)%Qc → (q ≤ Qc_of_Z hi)%Qc →
  fleb (fl_of_Z (lo + 2)) (fadd (Fin q) (fl_of_Z 2)) = true ∧
  fleb (fadd (Fin q) (fl_of_Z 2)) (fl_of_Z (hi + 2)) = true.
Proof.
  intros Hlo Hhi Hq1 Hq2.
  rewrite <-(rnd_int (lo + 2)), <-(rnd_int (hi + 2)) by done.
  unfold fl_of_Z. simpl. rewrite !Z2Qc_inj_add.
  split; apply rnd_mono; by apply Qcplus_le_compat.
Qed.

(** X18: the bars fit the axis, the texts need not.  For five
    probabilities between 0 and 1 the chart has one bar per grade, every
    bar ends between the limits 0 and 100 of the x axis, and the text of
    a bar starts two units right of its end, between 2 and 102: the text
    of a bar of length 99 or more starts beyond the right limit of the
    axis. *)
Theorem bars_fit_the_axis_and_texts_need_not (predictions : tensor1) :
  length predictions = 5%nat →
  Forall in_unit_interval predictions →
  ∃ fig,
    confidence_chart (prediction_probabilities predictions) = Ok fig ∧
    fig_xlim fig = (0, 100) ∧
    fst <$> fig_bars fig = class_names ∧
    Forall (λ bar : string * fl,
              fleb (fl_of_Z 0) bar.2 = true ∧
              fleb bar.2 (fl_of_Z 100) = true) (fig_bars fig) ∧
    (∀ i bar, fig_bars fig !! i = Some bar →
       ∃ x, fig_texts fig !! i = Some (x, i, format_2f bar.2 +:+ "%") ∧
            fleb (fl_of_Z 2) x = true ∧ fleb x (fl_of_Z 102) = true ∧
            (fleb (fl_of_Z 99) bar.2 = true →
               fltb (fl_of_Z 100) x = true)).
Proof.
  intros Hlen Hunit.
  set (widths := prediction_probabilities predictions).
  assert (length widths = 5%nat) as Hwidths.
  { unfold widths, prediction_probabilities. by rewrite length_fmap. }
  assert (Forall (λ v, ∃ q, v = Fin q ∧
            (Qc_of_Z 0 ≤ q)%Qc ∧ (q ≤ Qc_of_Z 100)%Qc) widths) as Hrange.
  { unfold widths, prediction_probabilities. apply Forall_fmap.
    eapply Forall_impl; [done|]. intros p Hp. simpl.
    by apply percentage_of_a_probability. }
  rewrite Forall_forall in Hrange.
  eexists. split; [by apply confidence_chart_equal_lengths|].
  cbn [fig_xlim fig_bars fig_texts]. split; [done|]. split; [|split].
  - apply fst_zip. rewrite Hwidths. done.
  - apply Forall_forall. intros [name v] Hbar. simpl.
    apply list_elem_of_lookup in Hbar as [i Hi].
    apply lookup_zip_with_Some in Hi as (? & ? & [= <- <-] & _ & Hv).
    destruct (Hrange v) as (q & -> & Hq0 & Hq100);
      [by eapply list_elem_of_lookup_2|].
    split; simpl; by apply bool_decide_eq_true.
  - intros i [name v] Hbar. cbn [snd].
    apply lookup_zip_with_Some in Hbar as (? & ? & [= <- <-] & Hname & Hv).
    destruct (Hrange v) as (q & -> & Hq0 & Hq100);
      [by eapply list_elem_of_lookup_2|].
    exists (fadd (Fin q) (fl_of_Z 2)). split.
    { rewrite list_lookup_imap.
      assert (zip (zip class_names widths) widths !! i
              = Some ((name, Fin q), Fin q)) as ->; [|done].
      apply lookup_zip_with_Some. exists (name, Fin q), (Fin q).
      split; [done|]. split; [|done].
      apply lookup_zip_with_Some. by exists name, (Fin q). }
    destruct (text_position q 0 100) as [Hlo Hhi]; [lia..|done|done|].
    split; [done|]. split; [done|].
    intros H99. simpl in H99. apply bool_decide_eq_true in H99.
    destruct (text_position q 99 100) as [Hlo' _]; [lia..|done|done|].
    eapply fleb_fltb_trans_r; [|exact Hlo']. done.
Qed.
End Chart_limits.

(** ** The colour index and the heat *)

Lemma Qc_trunc_mono (a b : Qc) :
  (Qc_of_Z 0 ≤ a)%Qc → (a ≤ b)%Qc → Qc_trunc a ≤ Qc_trunc b.
Proof.
  unfold Qcle, Qle, Qc_trunc. simpl. intros Ha Hab.
  assert (0 ≤ Qnum a) as Hna by lia.
  assert (0 ≤ Qnum b) as Hnb by nia.
  rewrite !Z.quot_div_nonneg by lia.
  apply Z.div_le_lower_bound; [lia|].
  pose proof (Z.mul_div_le (Qnum a) (Z.pos (Qden a))) as Hdiv.
  assert (0 ≤ Qnum a `div` Z.pos (Qden a)) by (apply Z.div_pos; lia).
  nia.
Qed.

Section Colour_order.
Context `{Rounding, Libraries}.
Hypothesis rnd_mono : rnd_monotone.
Hypothesis rnd_int : rnd_exact_on_integers.

(** X19: within [0, 1] a hotter cell never gets a lower colour.  For
    two heatmap values between 0 and 1, the greater one gets a row of
    the colour table that is at least as far up; the rows of 0 and of 1
    are the first and the last.  (Beyond 1 the byte wraps around, and
    the order is lost.) *)
Theorem colour_index_grows_with_the_heat (h1 h2 : fl) :
  in_unit_interval h1 → in_unit_interval h2 → fleb h1 h2 = true →
  let intensity := λ h, np_uint8 (fmul (fl_of_Z 255) h) in
  intensity fzero = 0 ∧ intensity fone = 255 ∧
  0 ≤ intensity h1 ∧ intensity h1 ≤ intensity h2 ∧ intensity h2 ≤ 255.
Proof.
  intros Hh1 Hh2 Hle intensity.
  destruct (scaled_unit_interval rnd_mono rnd_int h1 Hh1)
    as (q1 & Hq1 & Hlo1 & Hhi1).
  destruct (scaled_unit_interval rnd_mono rnd_int h2 Hh2)
    as (q2 & Hq2 & Hlo2 & Hhi2).
  assert (q1 ≤ q2)%Qc as Hq.
  { assert (Qc_of_Z 0 < Qc_of_Z 255)%Qc as H255 by done.
    pose proof (fmul_positive_mono rnd_mono (Qc_of_Z 255) h1 h2 H255 Hle)
      as Hmono.
    unfold fl_of_Z in Hq1, Hq2. rewrite Hq1, Hq2 in Hmono.
    simpl in Hmono. by apply bool_decide_eq_true in Hmono. }
  pose proof (Qc_trunc_nonneg_bounds q1 255 Hlo1 Hhi1) as Hb1.
  pose proof (Qc_trunc_nonneg_bounds q2 255 Hlo2 Hhi2) as Hb2.
  pose proof (Qc_trunc_mono q1 q2 Hlo1 Hq) as Hmono.
  split; [apply (colour_index_of_zero rnd_int)|].
  split; [apply (colour_index_of_one rnd_int)|].
  unfold intensity, np_uint8. rewrite Hq1, Hq2. simpl.
  rewrite !Z.mod_small by lia. lia.
Qed.
End Colour_order.

(** ** Binary32 rounding is monotone and exact on small integers *)

Section Binary32.
Local Open Scope Q_scope.

Lemma pow2_pos e : 0 < pow2 e.
Proof. by apply Qpower_0_lt. Qed.

Lemma pow2_le a b : (a ≤ b)%Z → pow2 a <= pow2 b.
Proof. intros. by apply Qpower_le_compat_l. Qed.

Lemma pow2_lt a b : (a < b)%Z → pow2 a < pow2 b.
Proof. intros. by apply Qpower_lt_compat_l. Qed.

Lemma pow2_lt_inv a b : pow2 a < pow2 b → (a < b)%Z.
Proof.
  intros Hab. destruct (Z_lt_le_dec a b) as [|Hle]; [done|].
  apply pow2_le in Hle. lra.
Qed.

Lemma pow2_add a b : pow2 (a + b) == pow2 a * pow2 b.
Proof. by apply Qpower_plus. Qed.

Lemma pow2_sub a b : pow2 (a - b) == pow2 a / pow2 b.
Proof. by apply Qpower_minus. Qed.

Lemma pow2_Z e : (0 ≤ e)%Z → pow2 e == inject_Z (2 ^ e).
Proof. intros. unfold pow2. by rewrite Zpower_Qpower. Qed.

Lemma Qabs_num_den q :
  Qabs q == inject_Z (Z.abs (Qnum q)) / inject_Z (Zpos (Qden q)).
Proof.
  destruct q as [n d]. unfold Qabs. simpl.
  rewrite (Qmake_Qdiv (Z.abs n) d). reflexivity.
Qed.

Lemma ilog2_spec q :
  ¬ q == 0 → pow2 (ilog2 q) <= Qabs q ∧ Qabs q < pow2 (ilog2 q + 1).
Proof.
  intros Hq. unfold ilog2.
  set (n := Z.abs (Qnum q)). set (d := Zpos (Qden q)).
  assert (0 < n)%Z as Hn.
  { unfold n. destruct q as [[|p|p] dd]; simpl; try lia.
    destruct Hq. reflexivity. }
  assert (0 < d)%Z as Hd by done.
  destruct (Z.log2_spec n Hn) as [Hn1 Hn2].
  destruct (Z.log2_spec d Hd) as [Hd1 Hd2].
  set (ln := Z.log2 n) in *. set (ld := Z.log2 d) in *.
  assert (0 ≤ ln)%Z as Hln by apply Z.log2_nonneg.
  assert (0 ≤ ld)%Z as Hld by apply Z.log2_nonneg.
  assert (Qabs q == inject_Z n / inject_Z d) as Habs by apply Qabs_num_den.
  assert (0 < inject_Z d) as HdQ by (rewrite <-(Zlt_Qlt 0); done).
  assert (0 < inject_Z n) as HnQ by (rewrite <-(Zlt_Qlt 0); done).
  assert (pow2 ln <= inject_Z n) as A1.
  { rewrite pow2_Z by done. by rewrite <-Zle_Qle. }
  assert (inject_Z n < pow2 (ln + 1)) as A2.
  { rewrite pow2_Z by lia. rewrite <-Zlt_Qlt. by rewrite <-Z.add_1_r in Hn2. }
  assert (pow2 ld <= inject_Z d) as B1.
  { rewrite pow2_Z by done. by rewrite <-Zle_Qle. }
  assert (inject_Z d < pow2 (ld + 1)) as B2.
  { rewrite pow2_Z by lia. rewrite <-Zlt_Qlt. by rewrite <-Z.add_1_r in Hd2. }
  pose proof (pow2_pos ld) as Pld. pose proof (pow2_pos ln) as Pln.
  pose proof (pow2_pos (ld + 1)) as Pld1.
  set (y := inject_Z n / inject_Z d) in *.
  assert (y * inject_Z d == inject_Z n) as Hy by (unfold y; field; lra).
  assert (0 < y) as Hy0 by (by apply Qlt_shift_div_l; lra).
  assert (Qabs q < pow2 (ln - ld + 1)) as Hupper.
  { rewrite Habs. replace (ln - ld + 1)%Z with ((ln + 1) - ld)%Z by lia.
    rewrite pow2_sub. apply Qlt_shift_div_l; [done|].
    assert (y * pow2 ld <= y * inject_Z d) as Hmul
      by (by apply Qmult_le_l).
    lra. }
  assert (pow2 (ln - ld - 1) <= Qabs q) as Hlower.
  { rewrite Habs. replace (ln - ld - 1)%Z with (ln - (ld + 1))%Z by lia.
    rewrite pow2_sub. apply Qle_shift_div_r; [done|].
    assert (y * inject_Z d <= y * pow2 (ld + 1)) as Hmul
      by (apply Qmult_le_l; [done|lra]).
    lra. }
  destruct (Qle_bool (pow2 (ln - ld)) (Qabs q)) eqn:Hcmp.
  - apply Qle_bool_iff in Hcmp. done.
  - split; [done|]. replace (ln - ld - 1 + 1)%Z with (ln - ld)%Z by lia.
    apply Qnot_le_lt. intros Hle. apply Qle_bool_iff in Hle. congruence.
Qed.

Lemma ilog2_mono a b : 0 < a → a <= b → (ilog2 a ≤ ilog2 b)%Z.
Proof.
  intros Ha Hab.
  destruct (ilog2_spec a) as [Ha1 _]; [lra|].
  destruct (ilog2_spec b) as [_ Hb2]; [lra|].
  rewrite Qabs_pos in Ha1, Hb2 by lra.
  assert (pow2 (ilog2 a) < pow2 (ilog2 b + 1)) as Hlt by lra.
  apply pow2_lt_inv in Hlt. lia.
Qed.

Lemma ilog2_mono_neg a b : b < 0 → a <= b → (ilog2 b ≤ ilog2 a)%Z.
Proof.
  intros Hb Hab.
  destruct (ilog2_spec b) as [Hb1 _]; [lra|].
  destruct (ilog2_spec a) as [_ Ha2]; [lra|].
  rewrite Qabs_neg in Hb1, Ha2 by lra.
  assert (pow2 (ilog2 b) < pow2 (ilog2 a + 1)) as Hlt by lra.
  apply pow2_lt_inv in Hlt. lia.
Qed.

(** *** Rounding to the nearest integer *)

Lemma round_half_even_bounds q :
  (Qfloor q ≤ round_half_even q ≤ Qfloor q + 1)%Z.
Proof.
  unfold round_half_even. destruct (_ ?= _); [destruct (Z.even _)|..]; lia.
Qed.

Lemma round_half_even_Z q z : q == inject_Z z → round_half_even q = z.
Proof.
  intros Hq. unfold round_half_even.
  assert (Qfloor q = z) as -> by (by rewrite (Qfloor_comp _ _ Hq), Qfloor_Z).
  destruct (Qcompare_spec (q - inject_Z z) (1 # 2)); [lra|done|lra].
Qed.

Lemma round_half_even_mono a b :
  a <= b → (round_half_even a ≤ round_half_even b)%Z.
Proof.
  intros Hab. pose proof (Qfloor_resp_le a b Hab) as Hfloor.
  pose proof (round_half_even_bounds a) as Ha.
  pose proof (round_half_even_bounds b) as Hb.
  destruct (Z_lt_le_dec (Qfloor a) (Qfloor b)) as [Hlt|Hge]; [lia|].
  assert (Qfloor a = Qfloor b) as Heq by lia.
  unfold round_half_even in *. rewrite Heq in *.
  set (f := Qfloor b) in *.
  destruct (Qcompare_spec (a - inject_Z f) (1 # 2)) as [Ha'|Ha'|Ha'];
    destruct (Qcompare_spec (b - inject_Z f) (1 # 2)) as [Hb'|Hb'|Hb'];
    try lia; try lra; destruct (Z.even f); lia.
Qed.

(** *** Rounding to a multiple of a unit *)

Lemma round_to_mono ulp a b :
  0 < ulp → a <= b → round_to ulp a <= round_to ulp b.
Proof.
  intros Hulp Hab. unfold round_to. apply Qmult_le_compat_r; [|lra].
  rewrite <-Zle_Qle. apply round_half_even_mono.
  apply Qle_shift_div_l; [done|].
  assert (a / ulp * ulp == a) as Heq by (field; lra). lra.
Qed.

Lemma round_to_multiple ulp q m :
  0 < ulp → q == inject_Z m * ulp → round_to ulp q == inject_Z m * ulp.
Proof.
  intros Hulp Hq. unfold round_to.
  rewrite (round_half_even_Z (q / ulp) m); [reflexivity|].
  rewrite Hq. field. lra.
Qed.

Lemma round_to_le ulp q m :
  0 < ulp → q <= inject_Z m * ulp → round_to ulp q <= inject_Z m * ulp.
Proof.
  intros Hulp Hq.
  rewrite <-(round_to_multiple ulp (inject_Z m * ulp) m) by done.
  by apply round_to_mono.
Qed.

Lemma round_to_ge ulp q m :
  0 < ulp → inject_Z m * ulp <= q → inject_Z m * ulp <= round_to ulp q.
Proof.
  intros Hulp Hq.
  rewrite <-(round_to_multiple ulp (inject_Z m * ulp) m) by done.
  by apply round_to_mono.
Qed.

(** *** The rounded value stays in the binade of the number *)

Lemma binary32_ulp_pos q : 0 < binary32_ulp q.
Proof. apply pow2_pos. Qed.

Lemma binary32_ulp_scale q (k : Z) :
  (0 ≤ k)%Z →
  inject_Z (2 ^ k) * binary32_ulp q == pow2 (binary32_exponent q - 23 + k).
Proof.
  intros Hk. unfold binary32_ulp. rewrite pow2_add, (pow2_Z k) by done.
  ring.
Qed.

Lemma binary32_value_nonneg q : 0 <= q → 0 <= binary32_value q.
Proof.
  intros Hq. unfold binary32_value.
  assert (inject_Z 0 * binary32_ulp q == 0) as H0 by ring.
  rewrite <-H0. apply round_to_ge; [apply binary32_ulp_pos|]. lra.
Qed.

Lemma binary32_value_nonpos q : q <= 0 → binary32_value q <= 0.
Proof.
  intros Hq. unfold binary32_value.
  assert (inject_Z 0 * binary32_ulp q == 0) as H0 by ring.
  rewrite <-H0. apply round_to_le; [apply binary32_ulp_pos|]. lra.
Qed.

Lemma binary32_value_upper q :
  ¬ q == 0 → binary32_value q <= pow2 (binary32_exponent q + 1).
Proof.
  intros Hq. unfold binary32_value.
  destruct (ilog2_spec q Hq) as [_ Hup].
  assert (pow2 (ilog2 q + 1) <= pow2 (binary32_exponent q + 1)) as Hle.
  { apply pow2_le. unfold binary32_exponent. lia. }
  pose proof (Qle_Qabs q) as Habs.
  pose proof (binary32_ulp_scale q 24 ltac:(lia)) as Hscale.
  replace (binary32_exponent q - 23 + 24)%Z
    with (binary32_exponent q + 1)%Z in Hscale by lia.
  rewrite <-Hscale. apply round_to_le; [apply binary32_ulp_pos|]. lra.
Qed.

Lemma binary32_value_lower q :
  ¬ q == 0 → - pow2 (binary32_exponent q + 1) <= binary32_value q.
Proof.
  intros Hq. unfold binary32_value.
  destruct (ilog2_spec q Hq) as [_ Hup].
  assert (pow2 (ilog2 q + 1) <= pow2 (binary32_exponent q + 1)) as Hle.
  { apply pow2_le. unfold binary32_exponent. lia. }
  assert (- Qabs q <= q) as Habs.
  { destruct (Qlt_le_dec q 0).
    - rewrite Qabs_neg by lra. lra.
    - rewrite Qabs_pos by lra. lra. }
  pose proof (binary32_ulp_scale q 24 ltac:(lia)) as Hscale.
  replace (binary32_exponent q - 23 + 24)%Z
    with (binary32_exponent q + 1)%Z in Hscale by lia.
  assert (inject_Z (- 2 ^ 24) * binary32_ulp q
          == - pow2 (binary32_exponent q + 1)) as Hneg.
  { rewrite <-Hscale. rewrite inject_Z_opp. ring. }
  rewrite <-Hneg. apply round_to_ge; [apply binary32_ulp_pos|]. lra.
Qed.

(** A normal number is rounded to a number of at least its power of
    two. *)
Lemma binary32_value_normal_pos q :
  0 < q → (-126 ≤ ilog2 q)%Z →
  pow2 (binary32_exponent q) <= binary32_value q.
Proof.
  intros Hq Hnormal. unfold binary32_value.
  destruct (ilog2_spec q) as [Hlo _]; [lra|].
  rewrite Qabs_pos in Hlo by lra.
  assert (binary32_exponent q = ilog2 q) as He
    by (unfold binary32_exponent; lia).
  pose proof (binary32_ulp_scale q 23 ltac:(lia)) as Hscale.
  replace (binary32_exponent q - 23 + 23)%Z
    with (binary32_exponent q) in Hscale by lia.
  rewrite <-Hscale. apply round_to_ge; [apply binary32_ulp_pos|].
  rewrite Hscale, He. done.
Qed.

Lemma binary32_value_normal_neg q :
  q < 0 → (-126 ≤ ilog2 q)%Z →
  binary32_value q <= - pow2 (binary32_exponent q).
Proof.
  intros Hq Hnormal. unfold binary32_value.
  destruct (ilog2_spec q) as [Hlo _]; [lra|].
  rewrite Qabs_neg in Hlo by lra.
  assert (binary32_exponent q = ilog2 q) as He
    by (unfold binary32_exponent; lia).
  pose proof (binary32_ulp_scale q 23 ltac:(lia)) as Hscale.
  replace (binary32_exponent q - 23 + 23)%Z
    with (binary32_exponent q) in Hscale by lia.
  assert (inject_Z (- 2 ^ 23) * binary32_ulp q
          == - pow2 (binary32_exponent q)) as Hneg.
  { rewrite <-Hscale. rewrite inject_Z_opp. ring. }
  rewrite <-Hneg. apply round_to_le; [apply binary32_ulp_pos|].
  rewrite Hneg, He. lra.
Qed.

(** *** Rounding is monotone *)

Lemma binary32_value_mono_pos a b :
  0 < a → a <= b → binary32_value a <= binary32_value b.
Proof.
  intros Ha Hab. pose proof (ilog2_mono a b Ha Hab) as Hlog.
  destruct (Z_lt_le_dec (binary32_exponent a) (binary32_exponent b))
    as [Hlt|Hge].
  - assert (-126 ≤ ilog2 b)%Z by (unfold binary32_exponent in *; lia).
    pose proof (binary32_value_upper a ltac:(lra)).
    pose proof (binary32_value_normal_pos b ltac:(lra) ltac:(done)).
    assert (pow2 (binary32_exponent a + 1) <= pow2 (binary32_exponent b))
      by (apply pow2_le; lia).
    lra.
  - assert (binary32_exponent a = binary32_exponent b) as Heq
      by (unfold binary32_exponent in *; lia).
    unfold binary32_value, binary32_ulp. rewrite Heq.
    apply round_to_mono; [apply pow2_pos|done].
Qed.

Lemma binary32_value_mono_neg a b :
  b < 0 → a <= b → binary32_value a <= binary32_value b.
Proof.
  intros Hb Hab. pose proof (ilog2_mono_neg a b Hb Hab) as Hlog.
  destruct (Z_lt_le_dec (binary32_exponent b) (binary32_exponent a))
    as [Hlt|Hge].
  - assert (-126 ≤ ilog2 a)%Z by (unfold binary32_exponent in *; lia).
    pose proof (binary32_value_lower b ltac:(lra)).
    pose proof (binary32_value_normal_neg a ltac:(lra) ltac:(done)).
    assert (pow2 (binary32_exponent b + 1) <= pow2 (binary32_exponent a))
      by (apply pow2_le; lia).
    lra.
  - assert (binary32_exponent a = binary32_exponent b) as Heq
      by (unfold binary32_exponent in *; lia).
    unfold binary32_value, binary32_ulp. rewrite Heq.
    apply round_to_mono; [apply pow2_pos|done].
Qed.

Lemma binary32_value_mono a b :
  a <= b → binary32_value a <= binary32_value b.
Proof.
  intros Hab. destruct (Qlt_le_dec 0 a) as [Ha|Ha].
  - by apply binary32_value_mono_pos.
  - destruct (Qlt_le_dec b 0) as [Hb|Hb].
    + by apply binary32_value_mono_neg.
    + pose proof (binary32_value_nonpos a Ha).
      pose proof (binary32_value_nonneg b Hb). lra.
Qed.
End Binary32.

Lemma Q2Qc_this (q : Q) : (this (Q2Qc q) == q)%Q.
Proof. apply Qred_correct. Qed.

Theorem binary32_monotone : rnd_monotone (H := binary32).
Proof.
  intros a b Hab. unfold rnd, binary32.
  pose proof (binary32_value_mono a b Hab) as Hv.
  pose proof (Q2Qc_this (binary32_value a)) as Ha.
  pose proof (Q2Qc_this (binary32_value b)) as Hb.
  set (va := Q2Qc (binary32_value a)) in *.
  set (vb := Q2Qc (binary32_value b)) in *.
  cbv zeta.
  destruct (Qle_bool (pow2 128) va) eqn:Ha1.
  { apply Qle_bool_iff in Ha1.
    assert (Qle_bool (pow2 128) vb = true) as ->; [|done].
    apply Qle_bool_iff. lra. }
  destruct (Qle_bool va (- pow2 128)) eqn:Ha2.
  { by destruct (Qle_bool (pow2 128) vb), (Qle_bool vb (- pow2 128)). }
  destruct (Qle_bool (pow2 128) vb) eqn:Hb1; [done|].
  destruct (Qle_bool vb (- pow2 128)) eqn:Hb2.
  { apply Qle_bool_iff in Hb2.
    assert (Qle_bool va (- pow2 128) = true) as Hcontra; [|congruence].
    apply Qle_bool_iff. lra. }
  simpl. apply bool_decide_eq_true. unfold Qcle. lra.
Qed.

Lemma pow2_le_inv a b : (pow2 a <= pow2 b)%Q → (a ≤ b)%Z.
Proof.
  intros Hab. destruct (Z_lt_le_dec b a) as [Hlt|]; [|done].
  apply pow2_lt in Hlt. lra.
Qed.

Lemma binary32_value_integer (z : Z) :
  - 2 ^ 24 ≤ z ≤ 2 ^ 24 → (binary32_value (inject_Z z) == inject_Z z)%Q.
Proof.
  intros Hz. destruct (decide (z = 0)) as [->|Hz0].
  { pose proof (binary32_value_nonneg (inject_Z 0) ltac:(done)).
    pose proof (binary32_value_nonpos (inject_Z 0) ltac:(done)).
    change (inject_Z 0) with 0%Q in *. lra. }
  assert (¬ (inject_Z z == 0)%Q) as HzQ.
  { change 0%Q with (inject_Z 0). rewrite inject_Z_injective. done. }
  destruct (ilog2_spec (inject_Z z) HzQ) as [Hlo Hup].
  set (e := ilog2 (inject_Z z)) in *.
  assert (Qabs (inject_Z z) == inject_Z (Z.abs z))%Q as Habs by done.
  rewrite Habs in Hlo, Hup.
  assert (pow2 0 <= inject_Z (Z.abs z))%Q as H1.
  { rewrite pow2_Z by done. rewrite <-Zle_Qle. simpl. lia. }
  assert (inject_Z (Z.abs z) <= pow2 24)%Q as H24.
  { rewrite pow2_Z by done. rewrite <-Zle_Qle. lia. }
  assert (0 ≤ e)%Z as He0.
  { cut (0 < e + 1)%Z; [lia|]. apply pow2_lt_inv. lra. }
  assert (e ≤ 24)%Z as He24 by (apply pow2_le_inv; lra).
  assert (binary32_exponent (inject_Z z) = e) as Hexp
    by (unfold binary32_exponent; fold e; lia).
  unfold binary32_value, binary32_ulp. rewrite Hexp.
  destruct (decide (e = 24)) as [->|Hne].
  - assert (Z.abs z = 2 ^ 24) as Hzabs.
    { apply Z.le_antisymm; [lia|]. rewrite Zle_Qle.
      rewrite <-(pow2_Z 24) by done. done. }
    rewrite (round_to_multiple _ _ (z `div` 2)); [| apply pow2_pos |].
    + rewrite (pow2_Z (24 - 23)) by done. rewrite <-inject_Z_mult.
      rewrite inject_Z_injective.
      destruct (Z.abs_eq_or_opp z) as [Heq|Heq]; rewrite Heq in Hzabs.
      * by rewrite Hzabs.
      * assert (z = - 2 ^ 24) as -> by lia. done.
    + rewrite (pow2_Z (24 - 23)) by done. rewrite <-inject_Z_mult.
      rewrite inject_Z_injective.
      destruct (Z.abs_eq_or_opp z) as [Heq|Heq]; rewrite Heq in Hzabs.
      * by rewrite Hzabs.
      * assert (z = - 2 ^ 24) as -> by lia. done.
  - assert (inject_Z (z * 2 ^ (23 - e)) * pow2 (e - 23) == inject_Z z)%Q
      as Hmul.
    { rewrite inject_Z_mult, <-(pow2_Z (23 - e)) by lia.
      rewrite <-Qmult_assoc, <-pow2_add.
      replace (23 - e + (e - 23))%Z with 0%Z by lia.
      change (pow2 0) with 1%Q. ring. }
    rewrite (round_to_multiple _ _ (z * 2 ^ (23 - e)));
      [done|apply pow2_pos|by rewrite Hmul].
Qed.

Theorem binary32_exact_on_integers : rnd_exact_on_integers (H := binary32).
Proof.
  intros z Hz. unfold rnd, binary32, fl_of_Z.
  pose proof (binary32_value_integer z Hz) as Hv.
  change (this (Qc_of_Z z)) with (inject_Z z).
  pose proof (Q2Qc_this (binary32_value (inject_Z z))) as Hthis.
  set (v := Q2Qc (binary32_value (inject_Z z))) in *. cbv zeta.
  assert (pow2 24 < pow2 128)%Q as Hbig by (by apply pow2_lt).
  assert (- pow2 24 <= inject_Z z ∧ inject_Z z <= pow2 24)%Q as [Hlo Hhi].
  { rewrite (pow2_Z 24) by done. rewrite <-inject_Z_opp, <-!Zle_Qle. lia. }
  assert (Qle_bool (pow2 128) v = false) as ->.
  { apply not_true_is_false. rewrite Qle_bool_iff. lra. }
  assert (Qle_bool v (- pow2 128) = false) as ->.
  { apply not_true_is_false. rewrite Qle_bool_iff. lra. }
  f_equal. apply Qc_is_canon.
  change (this (Qc_of_Z z)) with (inject_Z z). by rewrite Hthis.
Qed.

(** ** The concrete setting *)

Lemma ramp_colors_ok : jet_table_ok (H := example_libraries).
Proof.
  split; [done|]. apply Forall_fmap, Forall_forall. by intros i _.
Qed.

Lemma example_network_ok : network_ok example_predict example_grad_model.
Proof.
  intros x. split.
  - exists example_probabilities, []. split; [done|]. split; [done|].
    by repeat constructor.
  - exists example_features, example_probabilities, 2%nat, 2%nat, 2%nat.
    split; [done|]. split; [done|]. split; [by repeat constructor|].
    split; [by repeat constructor|]. split; [|lia].
    intros k. exists (example_gradient k). split; [done|].
    by repeat constructor.
Qed.

(** ** Instances of the properties *)

Lemma example_upload_decodes :
  pil_open (Libraries := example_libraries) example_upload
  = Some example_source.
Proof. reflexivity. Qed.

Lemma heatmap_range_by_maximum_witness :
  rnd_monotone (H := binary32) ∧
  rnd_exact_on_integers (H := binary32) ∧
  weighted_activation_map (H := binary32)
    example_grad_model example_batch None = Ok example_weighted_map ∧
  Forall (Forall (λ x, is_finite x = true)) example_weighted_map ∧
  ∃ heatmap,
    make_gradcam_heatmap (H := binary32)
      example_grad_model example_batch None = Ok heatmap ∧
    (fltb fzero (reduce_max (flat2 example_weighted_map)) = true →
       Forall (Forall in_unit_interval) heatmap) ∧
    (fltb (reduce_max (flat2 example_weighted_map)) fzero = true →
       Forall (Forall (λ x, x = fzero)) heatmap) ∧
    (reduce_max (flat2 example_weighted_map) = fzero →
       Forall (Forall (λ x, x = NaN)) heatmap).
Proof.
  split; [exact binary32_monotone|].
  split; [exact binary32_exact_on_integers|].
  split; [vm_compute; reflexivity|].
  split; [repeat constructor|].
  apply (heatmap_range_by_maximum (H := binary32)
           binary32_monotone binary32_exact_on_integers).
  - vm_compute; reflexivity.
  - repeat constructor.
Defined.

(** The claim C1 fails where the feature maps are zero: the weighted map
    is zero, its maximum is zero, and every entry of the heatmap is
    [0/0], which is NaN and not a number of [0, 1]. *)
Lemma zero_feature_maps_give_nan :
  make_gradcam_heatmap (H := binary32)
    zero_grad_model example_batch None = Ok [[NaN; NaN]; [NaN; NaN]] ∧
  ¬ in_unit_interval NaN.
Proof. split; [vm_compute; reflexivity|]. by intros [? _]. Qed.

Lemma overlay_has_the_resolution_of_the_network_input_witness :
  jet_table_ok (H := example_libraries) ∧
  network_ok example_predict example_grad_model ∧
  pil_open (Libraries := example_libraries) example_upload
    = Some example_source ∧
  (∀ img heatmap alpha out h w,
     has_shape3 img h w 3 → (0 < h)%nat → (0 < w)%nat →
     overlay_heatmap_on_image (H := binary32)
       (H0 := example_libraries) img heatmap alpha = Ok out →
     pil_size out = (w, h)) ∧
  ∃ page,
    pipeline (H := binary32) (H0 := example_libraries)
      example_predict example_grad_model example_upload = Ok page ∧
    pil_size (page_heatmap_overlay page) = (224%nat, 224%nat).
Proof.
  split; [exact ramp_colors_ok|].
  split; [exact example_network_ok|].
  split; [reflexivity|].
  apply (overlay_has_the_resolution_of_the_network_input
           (H := binary32) (H0 := example_libraries)
           example_predict example_grad_model example_upload example_source).
  - exact ramp_colors_ok.
  - exact example_network_ok.
  - reflexivity.
Defined.

(** The claim C2 fails on an upload of 2 by 1 pixels: the overlay on the
    page is 224 by 224. *)
Lemma overlay_resolution_differs_from_the_upload :
  ∃ page,
    pil_open (Libraries := example_libraries) example_upload
      = Some example_source ∧
    pipeline (H := binary32) (H0 := example_libraries)
      example_predict example_grad_model example_upload = Ok page ∧
    pil_size (page_heatmap_overlay page) ≠ pil_size example_source.
Proof.
  destruct (pipeline_ok (H := binary32) (H0 := example_libraries)
    example_predict example_grad_model example_upload example_source)
    as [page Hpage];
    [exact ramp_colors_ok|exact example_network_ok|reflexivity|].
  exists page. split; [reflexivity|]. split; [done|].
  by rewrite (pipeline_overlay_size _ _ _ _ Hpage).
Qed.

Lemma target_index_is_resolved_by_slicing_witness :
  dim1 (gm_call example_grad_model example_batch).2 = 5%nat ∧
  ((7 < -5 ∨ 4 < 7 →
     let error :=
       InvalidArgumentError (gm_index_error example_grad_model 1 5 7) in
     make_gradcam_heatmap (H := binary32)
       example_grad_model example_batch (Some 7)
     = Raise error ∧
     (∀ σ : store,
        lift (make_gradcam_heatmap (H := binary32)
                example_grad_model example_batch (Some 7)) σ
        = (Raise error, σ)) ∧
     (∀ page : list (place * element),
        quiet (make_gradcam_heatmap (H := binary32)
                 example_grad_model example_batch (Some 7)) page
        = (Raise error, page))) ∧
   (-5 ≤ 7 < 0 →
     make_gradcam_heatmap (H := binary32)
       example_grad_model example_batch (Some 7)
     = make_gradcam_heatmap (H := binary32)
         example_grad_model example_batch (Some (7 + 5)))).
Proof.
  split; [reflexivity|].
  apply (target_index_is_resolved_by_slicing (H := binary32)
           example_grad_model example_batch 7).
  reflexivity.
Defined.

(** The claim C3 fails for the index -1: it is accepted and explains the
    last class, as the index 4 does. *)
Lemma index_minus_one_explains_the_last_class :
  make_gradcam_heatmap (H := binary32)
    example_grad_model example_batch (Some (-1))
  = Ok example_last_class_heatmap ∧
  make_gradcam_heatmap (H := binary32)
    example_grad_model example_batch (Some 4)
  = Ok example_last_class_heatmap.
Proof. split; vm_compute; reflexivity. Qed.

Lemma preprocess_resizes_by_nearest_neighbour_witness :
  pil_open (Libraries := example_libraries) example_upload
    = Some example_source ∧
  ∃ img img_array,
    load_and_preprocess (H := binary32) (H0 := example_libraries)
      example_upload = Ok (img, img_array) ∧
    has_shape4 img_array 1 224 224 3 ∧
    pil_size img = (224%nat, 224%nat) ∧
    (pil_size example_source = (224%nat, 224%nat) → img = example_source) ∧
    ((0 < width example_source)%nat → (0 < height example_source)%nat →
     ∀ x y, (x < 224)%nat → (y < 224)%nat →
       ∃ x' y', (x' < width example_source)%nat ∧
                (y' < height example_source)%nat ∧
                getpixel img x y = getpixel example_source x' y').
Proof.
  split; [reflexivity|].
  apply (preprocess_resizes_by_nearest_neighbour (H := binary32)
           (H0 := example_libraries) example_upload example_source).
  reflexivity.
Defined.

(** The claim C4 fails in its filter: on the upload of a black and a
    white pixel the resized image is black at column 111, where bilinear
    interpolation gives a grey. *)
Lemma preprocessing_does_not_interpolate :
  ∃ img,
    load_img (H := example_libraries) example_upload (Some target_size)
      = Ok img ∧
    getpixel img 111 0 = RGB 0 0 0 ∧
    getpixel (resize (224%nat, 224%nat) spec_bilinear example_source) 111 0
      = RGB 126 126 126.
Proof.
  exists (resize (224%nat, 224%nat) NEAREST example_source).
  split; [reflexivity|]. split; vm_compute; reflexivity.
Qed.

Lemma download_failure_leaves_filesystem_witness :
  let requests_get : string → response :=
    λ _, {| status_code := 404; iter_content := [[60; 63]];
            iter_error := None |} in
  status_code (requests_get "https://models/model.h5") ≠ 200 ∧
  download_model_from_url (H := example_os) requests_get
    "https://models/model.h5" "model.h5" ∅
  = (∅, Raise (Exception "Failed to download model. HTTP Status code: 404")).
Proof.
  intros requests_get. split; [done|].
  apply (download_failure_leaves_filesystem (H := example_os) requests_get
           "https://models/model.h5" "model.h5" ∅).
  done.
Defined.

Lemma gradcam_follows_the_stated_steps_witness :
  exact_arithmetic (H := no_rounding) ∧
  gm_call example_grad_model example_batch
    = ([map3 Fin example_activations], [example_probabilities]) ∧
  example_probabilities ≠ [] ∧
  Forall (λ p, is_nan p = false) example_probabilities ∧
  gm_gradient example_grad_model example_batch
    (argmax example_probabilities)
    = [map3 Fin (example_exact_gradient (argmax example_probabilities))] ∧
  has_shape3 example_activations 2 2 2 ∧
  has_shape3 (example_exact_gradient (argmax example_probabilities)) 2 2 2 ∧
  let target := argmax example_probabilities in
  let weights :=
    (λ k, spec_pooled_gradient
            (example_exact_gradient (argmax example_probabilities)) 2 2 k)
      <$> seq 0 2 in
  (∃ p, example_probabilities !! target = Some p ∧
        ∀ q, q ∈ example_probabilities → fleb q p = true) ∧
  weighted_activation_map (H := no_rounding)
    example_grad_model example_batch None
    = Ok (map2 Fin (spec_weighted_sum example_activations weights 2 2 2)) ∧
  make_gradcam_heatmap (H := no_rounding)
    example_grad_model example_batch None
    = Ok (normalize_heatmap (H := no_rounding)
            (map2 Fin
               (spec_weighted_sum example_activations weights 2 2 2))).
Proof.
  assert (has_shape3 example_activations 2 2 2) as Hmaps
    by (split; [done|]; repeat constructor).
  assert (has_shape3
            (example_exact_gradient (argmax example_probabilities)) 2 2 2)
    as Hshape by (split; [done|]; repeat constructor).
  split; [by intros q|].
  split; [reflexivity|]. split; [done|]. split; [repeat constructor|].
  split; [reflexivity|]. split; [exact Hmaps|]. split; [exact Hshape|].
  apply (gradcam_follows_the_stated_steps (H := no_rounding)
           (λ q, eq_refl) example_grad_model example_batch
           example_activations
           (example_exact_gradient (argmax example_probabilities))
           example_probabilities 2 2 2);
    first [reflexivity | done | lia | exact Hmaps | exact Hshape
          | repeat constructor].
Defined.

(** The weights and the map of the example: the gradient of class 2
    averages to 1 and 3/4 over the four positions, and the dot products
    of the activations with these weights are 1, 3/2, -1 and 15/4. *)
Lemma example_gradcam_values :
  let weights :=
    (λ k, spec_pooled_gradient (example_exact_gradient 2) 2 2 k)
      <$> seq 0 2 in
  argmax example_probabilities = 2%nat ∧
  weights = [Qc_of_Z 1; (Qc_of_Z 3 / Qc_of_Z 4)%Qc] ∧
  spec_weighted_sum example_activations weights 2 2 2
  = [[Qc_of_Z 1; (Qc_of_Z 3 / Qc_of_Z 2)%Qc];
     [Qc_of_Z (-1); (Qc_of_Z 15 / Qc_of_Z 4)%Qc]].
Proof.
  split; [reflexivity|].
  split; cbn [fmap list_fmap seq spec_weighted_sum];
    repeat (apply (f_equal2 cons));
    try reflexivity; apply Qc_is_canon; reflexivity.
Qed.

(** On the example the floats of [binary32] round nothing either: the
    weighted map the explainer computes with them is the map of the
    formulas. *)
Lemma example_floats_give_the_exact_map :
  weighted_activation_map (H := binary32)
    example_grad_model example_batch None
  = Ok (map2 Fin
          [[Qc_of_Z 1; (Qc_of_Z 3 / Qc_of_Z 2)%Qc];
           [Qc_of_Z (-1); (Qc_of_Z 15 / Qc_of_Z 4)%Qc]]).
Proof.
  assert (weighted_activation_map (H := binary32)
            example_grad_model example_batch None = Ok example_weighted_map)
    as -> by (vm_compute; reflexivity).
  f_equal. unfold example_weighted_map, map2.
  cbn [fmap list_fmap].
  repeat (apply (f_equal2 cons)); try reflexivity;
    apply (f_equal Fin), Qc_is_canon; reflexivity.
Qed.

Lemma overlay_blends_then_rescales_witness :
  rnd_exact_on_integers (H := binary32) ∧
  jet_table_ok (H := example_libraries) ∧
  has_shape3 grey_image 2 2 3 ∧
  Forall (Forall (Forall (float_value (H := binary32)))) grey_image ∧
  has_shape2 example_heatmap 2 2 ∧
  ∃ jet_heatmap,
    resized_jet_heatmap (H := binary32) (H0 := example_libraries)
      grey_image example_heatmap = Ok jet_heatmap ∧
    has_shape3 jet_heatmap 2 2 3 ∧
    (∀ alpha,
       overlay_heatmap_on_image (H := binary32)
         (H0 := example_libraries) grey_image example_heatmap alpha
       = array_to_img (H := binary32) (H0 := example_libraries)
           (zip_with (zip_with (zip_with
              (λ colour pixel,
                 fadd (H := binary32)
                   (fmul (H := binary32) colour alpha) pixel)))
              jet_heatmap grey_image)) ∧
    overlay_heatmap_on_image (H := binary32)
      (H0 := example_libraries) grey_image example_heatmap fzero
    = array_to_img (H := binary32) (H0 := example_libraries)
        grey_image.
Proof.
  assert (has_shape3 grey_image 2 2 3) as Himg
    by (split; [done|]; repeat constructor).
  assert (Forall (Forall (Forall (float_value (H := binary32))))
            grey_image) as Hvalues.
  { repeat first
      [ apply Forall_nil_2
      | apply Forall_cons_2
      | apply (binary32_exact_on_integers 100); lia ]. }
  assert (has_shape2 example_heatmap 2 2) as Hheat
    by (split; [done|]; repeat constructor).
  split; [exact binary32_exact_on_integers|].
  split; [exact ramp_colors_ok|].
  split; [exact Himg|]. split; [exact Hvalues|]. split; [exact Hheat|].
  apply (overlay_blends_then_rescales (H := binary32)
           (H0 := example_libraries) grey_image example_heatmap 2 2 2 2);
    first [exact binary32_exact_on_integers | exact ramp_colors_ok
          | exact Himg | exact Hvalues | exact Hheat | lia].
Defined.

(** The claim C7 fails in its consequence: with [alpha = 0] the overlay of
    a uniformly grey image, every channel 100, is black, because the
    final conversion shifts the minimum of the array to 0. *)
Lemma overlay_with_alpha_zero_is_not_a_copy :
  (λ out, (getpixel out 0 0, getpixel out 1 0,
           getpixel out 0 1, getpixel out 1 1)) <$>
    overlay_heatmap_on_image (H := binary32)
      (H0 := example_libraries) grey_image example_heatmap fzero
  = Ok (RGB 0 0 0, RGB 0 0 0, RGB 0 0 0, RGB 0 0 0) ∧
  img_to_array (PIL 2 2 (λ _ _, RGB 100 100 100)) = grey_image.
Proof. split; vm_compute; reflexivity. Qed.

Lemma confidence_report_keeps_class_order_witness :
  rnd_monotone (H := binary32) ∧
  Forall (λ p, is_nan p = false) example_probabilities ∧
  ∃ (name : string) (p : fl),
    class_names !! argmax example_probabilities = Some name ∧
    example_probabilities !! argmax example_probabilities = Some p ∧
    (∀ q, q ∈ example_probabilities → fleb q p = true) ∧
    predicted_class example_probabilities = Ok name ∧
    confidence (H := binary32) example_probabilities
      = Ok (fmul (H := binary32) (fl_of_Z 100) p) ∧
    bars (H := binary32) example_probabilities =
      Ok [("KL-GRADE 0",
           fmul (H := binary32) (fl_of_Z 100)
             (Fin (Qc_of_Z 1 / Qc_of_Z 8)%Qc));
          ("KL-GRADE 1",
           fmul (H := binary32) (fl_of_Z 100)
             (Fin (Qc_of_Z 1 / Qc_of_Z 4)%Qc));
          ("KL-GRADE 2",
           fmul (H := binary32) (fl_of_Z 100)
             (Fin (Qc_of_Z 3 / Qc_of_Z 8)%Qc));
          ("KL-GRADE 3",
           fmul (H := binary32) (fl_of_Z 100)
             (Fin (Qc_of_Z 1 / Qc_of_Z 8)%Qc));
          ("KL-GRADE 4",
           fmul (H := binary32) (fl_of_Z 100)
             (Fin (Qc_of_Z 1 / Qc_of_Z 8)%Qc))].
Proof.
  split; [exact binary32_monotone|].
  split; [repeat constructor|].
  apply (confidence_report_keeps_class_order (H := binary32)
           binary32_monotone).
  repeat constructor.
Defined.

Lemma pipeline_keeps_the_callers_objects_witness :
  let σ : store := {[ 1%positive := UploadedFile example_upload ]} in
  σ !! 1%positive = Some (UploadedFile example_upload) ∧
  (run_pipeline (H := binary32) (H0 := example_libraries)
     example_predict example_grad_model 1%positive σ).2 !! 1%positive
  = Some (UploadedFile example_upload).
Proof.
  intros σ. split; [reflexivity|].
  apply (pipeline_keeps_the_callers_objects (H := binary32)
           (H0 := example_libraries) example_predict example_grad_model
           1%positive σ 1%positive (UploadedFile example_upload)).
  reflexivity.
Defined.

Lemma heatmap_colour_index_is_total_witness :
  length (jet_colors (Libraries := example_libraries)) = 256%nat ∧
  rnd_monotone (H := binary32) ∧
  rnd_exact_on_integers (H := binary32) ∧
  let intensity := λ h,
    np_uint8 (H := example_libraries)
      (fmul (H := binary32) (fl_of_Z 255) h) in
  take_rows (jet_colors (Libraries := example_libraries))
    (map2 intensity example_heatmap)
    = Ok (map2 (λ h, jet_colors (Libraries := example_libraries)
                       !!! Z.to_nat (intensity h)) example_heatmap) ∧
  (∀ h, 0 ≤ intensity h ≤ 255) ∧
  (∀ h, in_unit_interval h →
     ∃ q, fmul (H := binary32) (fl_of_Z 255) h = Fin q ∧
          intensity h = Qc_trunc q) ∧
  (∀ h q, fmul (H := binary32) (fl_of_Z 255) h = Fin q →
     intensity h = Qc_trunc q `mod` 256).
Proof.
  split; [reflexivity|]. split; [exact binary32_monotone|].
  split; [exact binary32_exact_on_integers|].
  apply (heatmap_colour_index_is_total (H := binary32)
           (H0 := example_libraries) example_heatmap).
  - reflexivity.
  - exact binary32_monotone.
  - exact binary32_exact_on_integers.
Defined.

(** The intensities of the example heatmap: 0, 0.5 and 1 give 0, 127 and
    255; the value 2, outside [0, 1], gives 510 modulo 256. *)
Lemma example_intensities :
  map2 (λ h, np_uint8 (H := example_libraries)
               (fmul (H := binary32) (fl_of_Z 255) h)) example_heatmap
  = [[0; 127]; [255; 254]].
Proof. vm_compute. reflexivity. Qed.

(** ** Instances of the further properties *)

Lemma download_writes_the_body_in_order_witness :
  let fs : filesystem := {[ "model.h5" := [1] ]} in
  let url := "https://models/model.h5" in
  status_code (example_server url) = 200 ∧
  let chunks := iter_content (example_server url) in
  let out := download_model_from_url (H := example_os) example_server
               url "model.h5" fs in
  (∀ path, path ≠ "model.h5" → out.1 !! path = fs !! path) ∧
  (∀ e, open_error (OperatingSystem := example_os) fs "model.h5" = Some e →
        out = (fs, Raise e)) ∧
  (open_error (OperatingSystem := example_os) fs "model.h5" = None →
     (∀ written e,
        write_error (OperatingSystem := example_os) fs "model.h5" chunks
        = Some (written, e) →
        out.1 !! "model.h5" = Some written ∧ out.2 = Raise e) ∧
     (write_error (OperatingSystem := example_os) fs "model.h5" chunks
      = None →
        out.1 !! "model.h5" = Some (concat chunks) ∧
        (iter_error (example_server url) = None → out.2 = Ok ()) ∧
        (∀ e, iter_error (example_server url) = Some e → out.2 = Raise e))).
Proof.
  intros fs url. split; [reflexivity|].
  apply (download_writes_the_body_in_order (H := example_os) example_server
           url "model.h5" fs).
  reflexivity.
Defined.

(** The example server delivers the three bytes of its two chunks; an
    empty path cannot be opened and nothing is written. *)
Lemma example_download :
  download_model_from_url (H := example_os) example_server
    "https://models/model.h5" "model.h5" ∅
  = ({[ "model.h5" := [77; 90; 144] ]}, Ok ()) ∧
  download_model_from_url (H := example_os) example_server
    "https://models/model.h5" "" ∅
  = (∅, Raise (OSError "No such file or directory")).
Proof. split; reflexivity. Qed.

Lemma broken_download_is_never_repaired_witness :
  let failing : string → response :=
    λ _, {| status_code := 503; iter_content := []; iter_error := None |} in
  let e := OSError "Connection broken" in
  (∅ : filesystem) !! "model.h5" = None ∧
  status_code (breaking_server "https://models/model.h5") = 200 ∧
  open_error (OperatingSystem := example_os) ∅ "model.h5" = None ∧
  write_error (OperatingSystem := example_os) ∅ "model.h5"
    (iter_content (breaking_server "https://models/model.h5")) = None ∧
  iter_error (breaking_server "https://models/model.h5") = Some e ∧
  let out := ensure_model (H := example_os) breaking_server
               "https://models/model.h5" "model.h5" ∅ in
  out.2 = Raise e ∧
  out.1 !! "model.h5"
    = Some (concat
              (iter_content (breaking_server "https://models/model.h5"))) ∧
  (∀ path, path ≠ "model.h5" →
     out.1 !! path = (∅ : filesystem) !! path) ∧
  ensure_model (H := example_os) failing "https://models/model.h5"
    "model.h5" out.1
  = (out.1, Ok ()).
Proof.
  intros failing e. split; [reflexivity|]. split; [reflexivity|].
  split; [reflexivity|]. split; [reflexivity|]. split; [reflexivity|].
  apply (broken_download_is_never_repaired (H := example_os)
           breaking_server failing "https://models/model.h5" "model.h5"
           ∅ e); reflexivity.
Defined.

Lemma ensure_model_downloads_at_most_once_witness :
  let failing : string → response :=
    λ _, {| status_code := 503; iter_content := []; iter_error := None |} in
  let out := ensure_model (H := example_os) example_server
               "https://models/model.h5" "model.h5" ∅ in
  out.2 = Ok () ∧
  ensure_model (H := example_os) failing "https://models/model.h5"
    "model.h5" out.1
  = (out.1, Ok ()).
Proof.
  intros failing out. split; [reflexivity|].
  apply (ensure_model_downloads_at_most_once (H := example_os)
           example_server failing
           "https://models/model.h5" "model.h5" ∅).
  reflexivity.
Defined.

Lemma ties_go_to_the_lowest_grade_witness :
  let predictions :=
    [Fin (Qc_of_Z 1 / Qc_of_Z 8)%Qc; Fin (Qc_of_Z 3 / Qc_of_Z 8)%Qc;
     Fin (Qc_of_Z 3 / Qc_of_Z 8)%Qc; Fin (Qc_of_Z 1 / Qc_of_Z 8)%Qc;
     fzero] in
  predictions ≠ [] ∧
  Forall (λ p, is_nan p = false) predictions ∧
  ∃ p, predictions !! argmax predictions = Some p ∧
       (∀ q, q ∈ predictions → fleb q p = true) ∧
       (∀ j q, (j < argmax predictions)%nat →
               predictions !! j = Some q → fltb q p = true) ∧
       ((length predictions ≤ 5)%nat →
          ∃ name, predicted_class predictions = Ok name ∧
                  class_names !! argmax predictions = Some name).
Proof.
  intros predictions. split; [done|]. split; [repeat constructor|].
  apply (ties_go_to_the_lowest_grade predictions); [done|].
  repeat constructor.
Defined.

Lemma hottest_cell_is_exactly_one_witness :
  rnd_monotone (H := binary32) ∧
  rnd_exact_on_integers (H := binary32) ∧
  weighted_activation_map (H := binary32)
    example_grad_model example_batch None = Ok example_weighted_map ∧
  Forall (Forall (λ x, is_finite x = true)) example_weighted_map ∧
  fltb fzero (reduce_max (flat2 example_weighted_map)) = true ∧
  ∃ heatmap,
    make_gradcam_heatmap (H := binary32)
      example_grad_model example_batch None = Ok heatmap ∧
    (∀ i j row x, example_weighted_map !! i = Some row →
       row !! j = Some x → x = reduce_max (flat2 example_weighted_map) →
       ∃ hrow, heatmap !! i = Some hrow ∧ hrow !! j = Some fone) ∧
    reduce_max (flat2 heatmap) = fone ∧
    np_uint8 (H := example_libraries)
      (fmul (H := binary32) (fl_of_Z 255) (reduce_max (flat2 heatmap)))
    = 255.
Proof.
  split; [exact binary32_monotone|].
  split; [exact binary32_exact_on_integers|].
  split; [vm_compute; reflexivity|].
  split; [repeat constructor|].
  split; [vm_compute; reflexivity|].
  apply (hottest_cell_is_exactly_one (H := binary32)
           (H0 := example_libraries)
           binary32_monotone binary32_exact_on_integers).
  - vm_compute; reflexivity.
  - repeat constructor.
  - vm_compute; reflexivity.
Defined.

Lemma normalisation_keeps_order_and_clips_witness :
  rnd_monotone (H := binary32) ∧
  rnd_exact_on_integers (H := binary32) ∧
  weighted_activation_map (H := binary32)
    example_grad_model example_batch None = Ok example_weighted_map ∧
  Forall (Forall (λ x, is_finite x = true)) example_weighted_map ∧
  fltb fzero (reduce_max (flat2 example_weighted_map)) = true ∧
  ∃ norm : fl → fl,
    make_gradcam_heatmap (H := binary32)
      example_grad_model example_batch None
      = Ok (map2 norm example_weighted_map) ∧
    (∀ a b : Qc, (a ≤ b)%Qc → fleb (norm (Fin a)) (norm (Fin b)) = true) ∧
    (∀ a : Qc, (a ≤ Qc_of_Z 0)%Qc →
       norm (Fin a) = fzero ∧
       np_uint8 (H := example_libraries)
         (fmul (H := binary32) (fl_of_Z 255) (norm (Fin a))) = 0).
Proof.
  split; [exact binary32_monotone|].
  split; [exact binary32_exact_on_integers|].
  split; [vm_compute; reflexivity|].
  split; [repeat constructor|].
  split; [vm_compute; reflexivity|].
  apply (normalisation_keeps_order_and_clips (H := binary32)
           (H0 := example_libraries)
           binary32_monotone binary32_exact_on_integers).
  - vm_compute; reflexivity.
  - repeat constructor.
  - vm_compute; reflexivity.
Defined.

Lemma vanishing_gradient_gives_nan_witness :
  rnd_exact_on_integers (H := binary32) ∧
  gm_call saturated_grad_model example_batch
    = ([example_features], [example_probabilities]) ∧
  example_probabilities ≠ [] ∧
  Forall (λ p, is_nan p = false) example_probabilities ∧
  gm_gradient saturated_grad_model example_batch
    (argmax example_probabilities)
    = [map3 (λ _, fzero) (example_gradient 0)] ∧
  has_shape3 example_features 2 2 2 ∧
  has_shape3 (map3 (λ _ : fl, fzero) (example_gradient 0)) 2 2 2 ∧
  Forall (Forall (Forall (λ v, v = fzero)))
    (map3 (λ _ : fl, fzero) (example_gradient 0)) ∧
  Forall (Forall (Forall (λ v, is_finite v = true))) example_features ∧
  weighted_activation_map (H := binary32)
    saturated_grad_model example_batch None
    = Ok (map2 (λ _, fzero) example_features) ∧
  make_gradcam_heatmap (H := binary32)
    saturated_grad_model example_batch None
    = Ok (map2 (λ _, NaN) example_features).
Proof.
  assert (has_shape3 example_features 2 2 2) as Hmaps
    by (split; [done|]; repeat constructor).
  assert (has_shape3 (map3 (λ _ : fl, fzero) (example_gradient 0)) 2 2 2)
    as Hshape by (split; [done|]; repeat constructor).
  split; [exact binary32_exact_on_integers|].
  split; [reflexivity|]. split; [done|]. split; [repeat constructor|].
  split; [reflexivity|]. split; [exact Hmaps|].
  split; [exact Hshape|]. split; [repeat constructor|].
  split; [repeat constructor|].
  apply (vanishing_gradient_gives_nan (H := binary32)
           binary32_exact_on_integers saturated_grad_model example_batch
           example_features (map3 (λ _, fzero) (example_gradient 0))
           example_probabilities 2 2 2);
    first [reflexivity | done | lia | exact Hmaps | exact Hshape
          | repeat constructor].
Defined.

Lemma array_to_img_stretches_to_the_byte_range_witness :
  let x := img_to_array example_source in
  rnd_monotone (H := binary32) ∧
  rnd_exact_on_integers (H := binary32) ∧
  has_shape3 x 1 2 3 ∧
  Forall (Forall (Forall bounded_value)) x ∧
  ∃ lo hi img,
    np_min (flat3 x) = Ok lo ∧ np_max (flat3 x) = Ok hi ∧
    array_to_img (H := binary32) (H0 := example_libraries) x = Ok img ∧
    pil_size img = (2%nat, 1%nat) ∧
    (fsub (H := binary32) hi lo = fzero →
       ∀ i j, (i < 2)%nat → (j < 1)%nat → getpixel img i j = RGB 0 0 0) ∧
    (fsub (H := binary32) hi lo ≠ fzero →
       (∃ i j, (i < 2)%nat ∧ (j < 1)%nat ∧
          let pixel := getpixel img i j in
          red pixel = 0 ∨ green pixel = 0 ∨ blue pixel = 0) ∧
       (∃ i j, (i < 2)%nat ∧ (j < 1)%nat ∧
          let pixel := getpixel img i j in
          red pixel = 255 ∨ green pixel = 255 ∨ blue pixel = 255)).
Proof.
  intros x.
  assert (has_shape3 x 1 2 3) as Hshape
    by (split; [done|]; repeat constructor).
  assert (Forall (Forall (Forall bounded_value)) x) as Hbound.
  { repeat constructor; eexists; (split; [reflexivity|by split]). }
  split; [exact binary32_monotone|].
  split; [exact binary32_exact_on_integers|].
  split; [exact Hshape|]. split; [exact Hbound|].
  apply (array_to_img_stretches_to_the_byte_range (H := binary32)
           (H0 := example_libraries)
           binary32_monotone binary32_exact_on_integers x 1 2);
    first [exact Hshape | exact Hbound | lia].
Defined.

Lemma network_input_lies_between_minus_one_and_one_witness :
  rnd_monotone (H := binary32) ∧
  rnd_exact_on_integers (H := binary32) ∧
  pil_open (Libraries := example_libraries) example_upload
    = Some example_source ∧
  (∀ x y, (x < width example_source)%nat → (y < height example_source)%nat →
     byte_pixel (getpixel example_source x y)) ∧
  ∃ img img_array,
    load_and_preprocess (H := binary32) (H0 := example_libraries)
      example_upload = Ok (img, img_array) ∧
    Forall (Forall (Forall (Forall in_signed_unit_interval))) img_array ∧
    preprocess_value (H := binary32) (fl_of_Z 0) = fl_of_Z (-1) ∧
    preprocess_value (H := binary32) (fl_of_Z 255) = fone.
Proof.
  assert (∀ x y, (x < width example_source)%nat →
    (y < height example_source)%nat →
    byte_pixel (getpixel example_source x y)) as Hbytes.
  { intros x y Hx Hy. simpl in Hx, Hy.
    destruct y as [|y]; [|lia]. destruct x as [|[|x]]; [| |lia];
      repeat split; simpl; lia. }
  split; [exact binary32_monotone|].
  split; [exact binary32_exact_on_integers|].
  split; [reflexivity|]. split; [exact Hbytes|].
  apply (network_input_lies_between_minus_one_and_one (H := binary32)
           (H0 := example_libraries)
           binary32_monotone binary32_exact_on_integers
           example_upload example_source);
    first [reflexivity | exact Hbytes | simpl; lia].
Defined.

Lemma enlarging_repeats_every_pixel_witness :
  pil_open (Libraries := example_libraries) example_upload
    = Some example_source ∧
  (112 * width example_source)%nat = 224%nat ∧
  (224 * height example_source)%nat = 224%nat ∧
  ∃ img,
    load_img (H := example_libraries) example_upload (Some target_size)
      = Ok img ∧
    (∀ x y, (x < 224)%nat → (y < 224)%nat →
       getpixel img x y
       = getpixel example_source (x `div` 112)%nat (y `div` 224)%nat) ∧
    (∀ x y, (x < width example_source)%nat →
       (y < height example_source)%nat →
       ∀ dx dy, (dx < 112)%nat → (dy < 224)%nat →
         (112 * x + dx < 224)%nat ∧ (224 * y + dy < 224)%nat ∧
         getpixel img (112 * x + dx)%nat (224 * y + dy)%nat
         = getpixel example_source x y).
Proof.
  split; [reflexivity|]. split; [reflexivity|]. split; [reflexivity|].
  apply (enlarging_repeats_every_pixel (H := example_libraries)
           example_upload example_source 112 224); reflexivity.
Defined.

Lemma shrinking_samples_the_block_centres_witness :
  pil_open (Libraries := striped_libraries) example_upload
    = Some striped_source ∧
  width striped_source = (2 * 224)%nat ∧
  height striped_source = (1 * 224)%nat ∧
  ∃ img,
    load_img (H := striped_libraries) example_upload (Some target_size)
      = Ok img ∧
    ∀ x y, getpixel img x y
           = getpixel striped_source (2 * x + 2 `div` 2)%nat
                                     (1 * y + 1 `div` 2)%nat.
Proof.
  split; [reflexivity|]. split; [reflexivity|]. split; [reflexivity|].
  apply (shrinking_samples_the_block_centres (H := striped_libraries)
           example_upload striped_source 2 1);
    first [reflexivity | lia].
Defined.

Lemma overlay_never_fails_on_values_witness :
  let heatmap := [[NaN; fl_of_Z 2]; [PInf; fl_of_Z (-3)]] in
  jet_table_ok (H := example_libraries) ∧
  has_shape3 grey_image 2 2 3 ∧
  has_shape2 heatmap 2 2 ∧
  ∃ out,
    overlay_heatmap_on_image (H := binary32) (H0 := example_libraries)
      grey_image heatmap NaN = Ok out ∧
    pil_size out = (2%nat, 2%nat) ∧
    ∀ i j, (i < 2)%nat → (j < 2)%nat → byte_pixel (getpixel out i j).
Proof.
  intros heatmap.
  assert (has_shape3 grey_image 2 2 3) as Himg
    by (split; [done|]; repeat constructor).
  assert (has_shape2 heatmap 2 2) as Hheat
    by (split; [done|]; repeat constructor).
  split; [exact ramp_colors_ok|]. split; [exact Himg|].
  split; [exact Hheat|].
  apply (overlay_never_fails_on_values (H := binary32)
           (H0 := example_libraries) grey_image heatmap NaN 2 2 2 2);
    first [exact ramp_colors_ok | exact Himg | exact Hheat | lia].
Defined.

Lemma run_pipeline_agrees_with_pipeline_witness :
  let σ : store := {[ 1%positive := UploadedFile example_upload ]} in
  σ !! 1%positive = Some (UploadedFile example_upload) ∧
  match run_pipeline (H := binary32) (H0 := example_libraries)
          example_predict example_grad_model 1%positive σ with
  | (Ok p, σ') =>
      ∃ overlay,
        σ' !! py_heatmap_overlay p = Some (PilImage overlay) ∧
        pipeline (H := binary32) (H0 := example_libraries)
          example_predict example_grad_model example_upload
        = Ok {| page_predicted_class := py_predicted_class p;
                page_confidence := py_confidence p;
                page_heatmap_overlay := overlay;
                page_bars := py_bars p |}
  | (Raise e, _) =>
      pipeline (H := binary32) (H0 := example_libraries)
        example_predict example_grad_model example_upload = Raise e
  end.
Proof.
  intros σ. split; [reflexivity|].
  apply (run_pipeline_agrees_with_pipeline (H := binary32)
           (H0 := example_libraries) example_predict example_grad_model
           1%positive example_upload σ).
  reflexivity.
Defined.

Lemma upload_is_reported_or_explained_witness :
  jet_table_ok (H := example_libraries) ∧
  network_ok example_predict example_grad_model ∧
  (pil_open (Libraries := example_libraries) example_upload = None →
     upload_section (H := binary32) (H0 := example_libraries)
       example_predict example_grad_model (Some example_upload) []
     = (Ok (),
        [] ++ [(Main, st_error "Error processing the image: "
                        UnidentifiedImageError)])) ∧
  (∀ src,
     pil_open (Libraries := example_libraries) example_upload = Some src →
     ∃ report fig,
       pipeline (H := binary32) (H0 := example_libraries)
         example_predict example_grad_model example_upload = Ok report ∧
       fig_bars fig = page_bars report ∧
       length (fig_texts fig) = 5%nat ∧
       upload_section (H := binary32) (H0 := example_libraries)
         example_predict example_grad_model (Some example_upload) []
       = (Ok (),
          [] ++
          [(Main, st_subheader "Prediction Result ✅");
           (Main, st_metric "Predicted Severity Level"
                    (page_predicted_class report)
                    ("Confidence: " +:+ format_2f (page_confidence report)
                       +:+ "%"));
           (Column 0, st_subheader "📸 Input Image");
           (Column 0, st_image_upload example_upload "Uploaded X-ray Image");
           (Column 1, st_subheader "📊 Explainability with Grad-CAM");
           (Column 1, st_image (page_heatmap_overlay report)
                        "Grad-CAM Heatmap");
           (Main, st_subheader "📈 Prediction Confidence Levels");
           (Main, st_pyplot fig)])).
Proof.
  split; [exact ramp_colors_ok|]. split; [exact example_network_ok|].
  apply (upload_is_reported_or_explained (H := binary32)
           (H0 := example_libraries) example_predict example_grad_model
           example_upload []).
  - exact ramp_colors_ok.
  - exact example_network_ok.
Defined.

Lemma shown_confidence_labels_the_longest_bar_witness :
  rnd_monotone (H := binary32) ∧
  length example_probabilities = 5%nat ∧
  Forall (λ p, is_nan p = false) example_probabilities ∧
  ∃ fig top name,
    confidence (H := binary32) example_probabilities = Ok top ∧
    confidence_chart (H := binary32)
      (prediction_probabilities (H := binary32) example_probabilities)
    = Ok fig ∧
    predicted_class example_probabilities = Ok name ∧
    fig_bars fig !! argmax example_probabilities = Some (name, top) ∧
    (∀ bar, bar ∈ fig_bars fig → fleb bar.2 top = true) ∧
    fig_texts fig !! argmax example_probabilities
      = Some (fadd (H := binary32) top (fl_of_Z 2),
              argmax example_probabilities, format_2f top +:+ "%") ∧
    (∀ q : Qc, top = Fin q →
       (Qabs (inject_Z (hundredths q) - Qabs q * inject_Z 100) <= 1 # 2)%Q).
Proof.
  split; [exact binary32_monotone|]. split; [reflexivity|].
  split; [repeat constructor|].
  apply (shown_confidence_labels_the_longest_bar (H := binary32)
           binary32_monotone example_probabilities).
  - reflexivity.
  - repeat constructor.
Defined.

(** The example network is most sure of the third grade, with three
    eighths: the metric and the text beside that bar read 37.50. *)
Lemma example_confidence_text :
  format_2f (fmul (H := binary32) (fl_of_Z 100)
               (Fin (Qc_of_Z 3 / Qc_of_Z 8)%Qc)) = "37.50" ∧
  format_2f (Fin (Qc_of_Z 1 / Qc_of_Z 8)%Qc) = "0.12" ∧
  format_2f (Fin (Qc_of_Z (-3) / Qc_of_Z 8)%Qc) = "-0.38" ∧
  format_2f NaN = "nan".
Proof. repeat split; vm_compute; reflexivity. Qed.

Lemma explainer_returns_a_map_of_the_grid_witness :
  gm_call example_grad_model example_batch
    = ([example_features], [example_probabilities]) ∧
  has_shape2 example_features 2 2 ∧
  (1 < 2)%nat ∧
  example_probabilities ≠ [] ∧
  let n := Z.of_nat (length example_probabilities) in
  (∃ heatmap,
     make_gradcam_heatmap (H := binary32)
       example_grad_model example_batch None = Ok heatmap ∧
     has_shape2 heatmap 2 2) ∧
  (∀ target : Z, - n ≤ target < n →
     ∃ heatmap,
       make_gradcam_heatmap (H := binary32)
         example_grad_model example_batch (Some target) = Ok heatmap ∧
       has_shape2 heatmap 2 2 ∧
       make_gradcam_heatmap (H := binary32)
         example_grad_model example_batch (Some (target `mod` n))
       = Ok heatmap).
Proof.
  assert (has_shape2 example_features 2 2) as Hshape
    by (split; [done|]; repeat constructor).
  split; [reflexivity|]. split; [exact Hshape|]. split; [lia|].
  split; [done|].
  apply (explainer_returns_a_map_of_the_grid (H := binary32)
           example_grad_model example_batch example_features []
           example_probabilities [] 2 2);
    first [reflexivity | exact Hshape | lia | done].
Defined.

Lemma bars_fit_the_axis_and_texts_need_not_witness :
  let predictions :=
    [fzero; fzero; Fin (Qc_of_Z 1 / Qc_of_Z 128)%Qc;
     Fin (Qc_of_Z 127 / Qc_of_Z 128)%Qc; fzero] in
  rnd_monotone (H := binary32) ∧
  rnd_exact_on_integers (H := binary32) ∧
  length predictions = 5%nat ∧
  Forall in_unit_interval predictions ∧
  ∃ fig,
    confidence_chart (H := binary32)
      (prediction_probabilities (H := binary32) predictions) = Ok fig ∧
    fig_xlim fig = (0, 100) ∧
    fst <$> fig_bars fig = class_names ∧
    Forall (λ bar : string * fl,
              fleb (fl_of_Z 0) bar.2 = true ∧
              fleb bar.2 (fl_of_Z 100) = true) (fig_bars fig) ∧
    (∀ i bar, fig_bars fig !! i = Some bar →
       ∃ x, fig_texts fig !! i = Some (x, i, format_2f bar.2 +:+ "%") ∧
            fleb (fl_of_Z 2) x = true ∧ fleb x (fl_of_Z 102) = true ∧
            (fleb (fl_of_Z 99) bar.2 = true →
               fltb (fl_of_Z 100) x = true)).
Proof.
  intros predictions.
  assert (Forall in_unit_interval predictions) as Hunit
    by (repeat constructor).
  split; [exact binary32_monotone|].
  split; [exact binary32_exact_on_integers|].
  split; [reflexivity|]. split; [exact Hunit|].
  apply (bars_fit_the_axis_and_texts_need_not (H := binary32)
           binary32_monotone binary32_exact_on_integers predictions).
  - reflexivity.
  - exact Hunit.
Defined.

Lemma colour_index_grows_with_the_heat_witness :
  let h1 := Fin (Qc_of_Z 1 / Qc_of_Z 2)%Qc in
  let h2 := Fin (Qc_of_Z 3 / Qc_of_Z 4)%Qc in
  rnd_monotone (H := binary32) ∧
  rnd_exact_on_integers (H := binary32) ∧
  in_unit_interval h1 ∧ in_unit_interval h2 ∧ fleb h1 h2 = true ∧
  let intensity := λ h,
    np_uint8 (H := example_libraries)
      (fmul (H := binary32) (fl_of_Z 255) h) in
  intensity fzero = 0 ∧ intensity fone = 255 ∧
  0 ≤ intensity h1 ∧ intensity h1 ≤ intensity h2 ∧ intensity h2 ≤ 255.
Proof.
  intros h1 h2.
  split; [exact binary32_monotone|].
  split; [exact binary32_exact_on_integers|].
  split; [by split|]. split; [by split|]. split; [reflexivity|].
  apply (colour_index_grows_with_the_heat (H := binary32)
           (H0 := example_libraries)
           binary32_monotone binary32_exact_on_integers h1 h2).
  - by split.
  - by split.
  - reflexivity.
Defined.
